(** * bars-player: lyric timeline, text fitter, scroll curve and publish throttle

    A shallow embedding of the lyric core of the player
    ([lib/lrc.ts] and the lyric part of [App.tsx]) together with the
    properties its specification states about it.

    Modelling conventions.
    - A JavaScript string is a [string] of the Standard Library: a sequence of
      code units, here the code units below 256.  [isWhiteSpace] is the set
      that [trim] and [trimStart] strip in that range.
    - Integer milliseconds and indices are [Z].  A JavaScript number that is
      only compared (a pixel width, a playback time against a timestamp) is a
      rational ([Q]): comparisons of doubles are exact.
    - Where the result depends on what the arithmetic returns, a JavaScript
      number is an IEEE 754 double, the primitive [float] of the Standard
      Library ([Module Binary64]): the window index as a value and the dwell
      handlers.  The order properties of the window index (it never moves
      back, it is the first window at the start of a line and the last at
      its end, it is an index of the window list) are stated on the same
      computation in exact rational arithmetic.
    - Refs and React state are explicit state records; each handler is a
      function from state to state (and to the list of what it sent). *)

From Stdlib Require Import Floats Uint63.
From Stdlib Require Import String Ascii List Bool Arith ZArith QArith Lia Lqa.
From Stdlib Require Import Qminmax Qround Sorted Permutation.
From Equations Require Import Equations.
From Equations.Prop Require Import Logic.
Import ListNotations.

#[local] Set Warnings "-inexact-float".
Local Close Scope Q_scope.
Local Open Scope string_scope.

(* ===================================================================== *)
(** * Part I: definitions                                                 *)
(* ===================================================================== *)

(** ** Strings *)

(** White space and line terminators of ECMAScript among the code units
    below 256: TAB, LF, VT, FF, CR, SP and NBSP. *)
Definition isWhiteSpace (c : ascii) : bool :=
  let n := nat_of_ascii c in
  ((9 <=? n) && (n <=? 13) || (n =? 32) || (n =? 160))%nat.

(** [s.trimStart()] *)
Fixpoint trimStart (s : string) : string :=
  match s with
  | EmptyString => EmptyString
  | String c s' => if isWhiteSpace c then trimStart s' else s
  end.

(** [s.trimEnd()] *)
Fixpoint trimEnd (s : string) : string :=
  match s with
  | EmptyString => EmptyString
  | String c s' =>
      match trimEnd s' with
      | EmptyString => if isWhiteSpace c then EmptyString else String c EmptyString
      | t => String c t
      end
  end.

(** [s.trim()] *)
Definition trim (s : string) : string := trimEnd (trimStart s).

(** Truthiness of a string: [!s] holds exactly for the empty string. *)
Definition isEmpty (s : string) : bool :=
  match s with
  | EmptyString => true
  | String _ _ => false
  end.

(** [a || b] on strings. *)
Definition orElse (a b : string) : string := if isEmpty a then b else a.

(** [g] occurs in [w] as a contiguous piece. *)
Definition occursIn (g w : string) : Prop :=
  exists pre post, w = pre ++ g ++ post.

(** The first code unit of [g] exists and is not white space. *)
Definition startsVisible (g : string) : bool :=
  match g with
  | EmptyString => false
  | String c _ => negb (isWhiteSpace c)
  end.

(** Some code unit of [s] is not white space. *)
Fixpoint hasVisible (s : string) : bool :=
  match s with
  | EmptyString => false
  | String c s' => negb (isWhiteSpace c) || hasVisible s'
  end.

(** ** Grapheme-aware text fitter ([App.tsx]) *)

(** [Array.from(text)]: the fallback of [splitGraphemes] when the host has no
    [Intl.Segmenter]; one piece per code unit in the modelled range. *)
Fixpoint arrayFrom (text : string) : list string :=
  match text with
  | EmptyString => []
  | String c rest => String c EmptyString :: arrayFrom rest
  end.

(** [pieces.join("")] *)
Definition join (pieces : list string) : string :=
  fold_right append "" pieces.

(** What both branches of [splitGraphemes] guarantee: the pieces are not
    empty and, joined, give the text back. *)
Class LawfulSegmenter (splitGraphemes : string -> list string) : Prop := {
  segments_join : forall text, join (splitGraphemes text) = text;
  segments_nonempty : forall text g, In g (splitGraphemes text) -> g <> ""
}.

(** The measurer [createTextWidthMeasurer] returns when no canvas context is
    available: [text.length * 8]. *)
Definition fallbackMeasureWidth (text : string) : Q :=
  inject_Z (Z.of_nat (String.length text) * 8)%Z.

(** [windows[windows.length - 1]], [None] for [undefined]. *)
Definition lastWindow (windows : list string) : option string :=
  match rev windows with
  | [] => None
  | w :: _ => Some w
  end.

(** [windows[windows.length - 1] !== finalWindow] guards the push. *)
Definition pushDistinct (windows : list string) (finalWindow : string) : list string :=
  match lastWindow windows with
  | Some w => if (w =? finalWindow) then windows else (windows ++ [finalWindow])%list
  | None => (windows ++ [finalWindow])%list
  end.

Section Fitter.

Variable splitGraphemes : string -> list string.
Variable measureWidth : string -> Q.
Variable maxWidthPx : Q.

(** [measureWidth(s.trimStart()) <= maxWidthPx] *)
Definition fits (s : string) : bool :=
  Qle_bool (measureWidth (trimStart s)) maxWidthPx.

(** The inner loop [for (end = start; end < graphemes.length; end += 1)]:
    [rest] is [graphemes.slice(end)], the result is the final
    [(candidate, reachedLineEnd)]. *)
Fixpoint growCandidate (candidate : string) (reachedLineEnd : bool)
         (rest : list string) : string * bool :=
  match rest with
  | [] => (candidate, reachedLineEnd)
  | g :: rest' =>
      let nextCandidate := candidate ++ g in
      if fits nextCandidate
      then growCandidate nextCandidate
             (match rest' with [] => true | _ => false end) rest'
      else (candidate, reachedLineEnd)
  end.

(** The window recorded for the start position whose graphemes are
    [g :: rest'], given the outcome [candidate] of the inner loop. *)
Definition finalWindowOf (g candidate : string) : string :=
  let candidate := if isEmpty candidate then g else candidate in
  let normalized := trimStart candidate in
  orElse normalized candidate.

(** The outer loop [for (start = 0; start < graphemes.length; start += 1)]:
    [rest] is [graphemes.slice(start)]. *)
Fixpoint scanWindows (windows : list string) (rest : list string) : list string :=
  match rest with
  | [] => windows
  | g :: rest' =>
      let '(candidate, reachedLineEnd) := growCandidate "" false rest in
      let windows' := pushDistinct windows (finalWindowOf g candidate) in
      if reachedLineEnd then windows' else scanWindows windows' rest'
  end.

Definition buildFittingWindows (text : string) : list string :=
  if isEmpty (trim text) then [""]
  else if fits text then [trimStart text]
  else
    let windows := scanWindows [] (splitGraphemes text) in
    match windows with
    | [] => [text]
    | _ => windows
    end.

End Fitter.

(** ** Timeline parser ([lib/lrc.ts]) *)

Record LyricLine := mkLyricLine { timeMs : Z; text : string }.

Definition LF : ascii := ascii_of_nat 10.
Definition CR : ascii := ascii_of_nat 13.

(** [text.split(/\r?\n/)] as a first line and the lines after it: a line
    ends at LF, and a CR directly before that LF belongs to the separator. *)
Fixpoint splitLinesFrom (text : string) : string * list string :=
  match text with
  | EmptyString => (EmptyString, [])
  | String c rest =>
      let (line, lines) := splitLinesFrom rest in
      if Ascii.eqb c LF then (EmptyString, line :: lines)
      else if Ascii.eqb c CR &&
              match rest with String d _ => Ascii.eqb d LF | EmptyString => false end
      then (line, lines)
      else (String c line, lines)
  end.

Definition splitLines (text : string) : list string :=
  let (line, lines) := splitLinesFrom text in line :: lines.

(** [\d] without the unicode flag: the ten ASCII digits. *)
Definition isDigit (c : ascii) : bool :=
  let n := nat_of_ascii c in ((48 <=? n) && (n <=? 57))%nat.

Definition digitValue (c : ascii) : Z := (Z.of_nat (nat_of_ascii c) - 48)%Z.

(** [Number(s)] for a string of decimal digits. *)
Definition Number (s : string) : Z :=
  fold_left (fun acc c => (acc * 10 + digitValue c)%Z) (list_ascii_of_string s) 0%Z.

Fixpoint repeatChar (n : nat) (c : ascii) : string :=
  match n with
  | O => EmptyString
  | S k => String c (repeatChar k c)
  end.

(** [s.padEnd(targetLength, "0")] *)
Definition padEnd (targetLength : nat) (s : string) : string :=
  s ++ repeatChar (targetLength - String.length s) "0"%char.

(** The longest prefix of at most [max] digits, and what follows it: a greedy
    [\d{..,max}]. *)
Fixpoint takeDigits (max : nat) (s : string) : string * string :=
  match max, s with
  | S k, String c rest =>
      if isDigit c
      then let (ds, after) := takeDigits k rest in (String c ds, after)
      else (EmptyString, s)
  | _, _ => (EmptyString, s)
  end.

(** The capture groups of one match of [TIMESTAMP_REGEX]. *)
Record TimestampMatch := mkMatch {
  minutesGroup : string;
  secondsGroup : string;
  fractionGroup : option string
}.

(** The next character of the pattern is the literal [c]. *)
Definition expectChar (c : ascii) (s : string) : option string :=
  match s with
  | String d rest => if Ascii.eqb d c then Some rest else None
  | EmptyString => None
  end.

(** One match attempt of [/\[(\d{1,2}):(\d{2})(?:\.(\d{1,3}))?\]/] at the
    start of [s]: the groups and the text after the match.  The greedy
    quantifiers never succeed after giving a digit back (the character after a
    shorter run is a digit, where [:], [.] or a closing bracket is needed), so
    the attempt is deterministic. *)
Definition matchTimestamp (s : string) : option (TimestampMatch * string) :=
  match expectChar "["%char s with
  | None => None
  | Some s1 =>
      let (mm, s2) := takeDigits 2 s1 in
      if isEmpty mm then None
      else
        match expectChar ":"%char s2 with
        | None => None
        | Some s3 =>
            let (ss, s4) := takeDigits 2 s3 in
            if (String.length ss =? 2)%nat
            then
              match expectChar "."%char s4 with
              | Some s5 =>
                  let (fff, s6) := takeDigits 3 s5 in
                  if isEmpty fff then None
                  else
                    match expectChar "]"%char s6 with
                    | Some after => Some (mkMatch mm ss (Some fff), after)
                    | None => None
                    end
              | None =>
                  match expectChar "]"%char s4 with
                  | Some after => Some (mkMatch mm ss None, after)
                  | None => None
                  end
              end
            else None
        end
  end.

Definition parseTimestampMs (m : TimestampMatch) : Z :=
  let minutes := Number (minutesGroup m) in
  let seconds := Number (secondsGroup m) in
  let fraction := match fractionGroup m with Some f => f | None => "0" end in
  let millis := Number (padEnd 3 fraction) in
  (minutes * 60000 + seconds * 1000 + millis)%Z.

(** The shape the pattern describes, written out: the text of a tag with
    given groups, and when groups are admissible. *)
Fixpoint allDigits (s : string) : bool :=
  match s with
  | EmptyString => true
  | String c rest => isDigit c && allDigits rest
  end.

(** The next character, if any, is a digit. *)
Definition startsWithDigit (s : string) : bool :=
  match s with
  | String c _ => isDigit c
  | EmptyString => false
  end.

Definition tagText (m : TimestampMatch) : string :=
  "[" ++ minutesGroup m ++ ":" ++ secondsGroup m
      ++ match fractionGroup m with Some f => "." ++ f | None => "" end
      ++ "]".

Definition wellFormedTag (m : TimestampMatch) : Prop :=
  allDigits (minutesGroup m) = true /\
  (1 <= String.length (minutesGroup m) <= 2)%nat /\
  allDigits (secondsGroup m) = true /\
  String.length (secondsGroup m) = 2%nat /\
  match fractionGroup m with
  | Some f => allDigits f = true /\ (1 <= String.length f <= 3)%nat
  | None => True
  end.

(** A match consumes at least its opening bracket. *)
Lemma takeDigits_length (max : nat) (s : string) :
  (String.length (snd (takeDigits max s)) <= String.length s)%nat.
Proof.
  revert s; induction max as [|k IH]; intros [|c rest]; simpl; try lia.
  destruct (isDigit c); simpl; [|lia].
  specialize (IH rest). destruct (takeDigits k rest); simpl in *; lia.
Qed.

Lemma expectChar_Some (c : ascii) (s rest : string) :
  expectChar c s = Some rest <-> s = String c rest.
Proof.
  destruct s as [|d s']; simpl; [split; discriminate|].
  destruct (Ascii.eqb_spec d c) as [->|Hne]; split; intros H; try congruence.
Qed.

Lemma matchTimestamp_shorter (s : string) m after :
  matchTimestamp s = Some (m, after) ->
  (String.length after < String.length s)%nat.
Proof.
  unfold matchTimestamp.
  destruct (expectChar "[" s) as [s1|] eqn:E1; [|discriminate].
  apply expectChar_Some in E1. subst s.
  pose proof (takeDigits_length 2 s1) as H1.
  destruct (takeDigits 2 s1) as [mm s2]; simpl in H1.
  destruct (isEmpty mm); [discriminate|].
  destruct (expectChar ":" s2) as [s3|] eqn:E2; [|discriminate].
  apply expectChar_Some in E2. subst s2.
  pose proof (takeDigits_length 2 s3) as H2.
  destruct (takeDigits 2 s3) as [ss s4]; simpl in H2.
  destruct (String.length ss =? 2)%nat; [|discriminate].
  destruct (expectChar "." s4) as [s5|] eqn:E3.
  - apply expectChar_Some in E3. subst s4.
    pose proof (takeDigits_length 3 s5) as H3.
    destruct (takeDigits 3 s5) as [fff s6]; simpl in H3.
    destruct (isEmpty fff); [discriminate|].
    destruct (expectChar "]" s6) as [after'|] eqn:E4; [|discriminate].
    apply expectChar_Some in E4. subst s6.
    intros [= <- <-]. simpl in *. lia.
  - destruct (expectChar "]" s4) as [after'|] eqn:E4; [|discriminate].
    apply expectChar_Some in E4. subst s4.
    intros [= <- <-]. simpl in *. lia.
Qed.

(** The loop [while (match) { timestamps.push(..); match = REGEX.exec(line) }]
    with [lastIndex] reset to 0 before it: [line] is the text from
    [lastIndex] on.  Each [exec] finds the leftmost match at or after
    [lastIndex] and moves [lastIndex] behind it. *)
Equations? execAll (line : string) : list TimestampMatch
  by wf (String.length line) lt :=
  execAll EmptyString := [];
  execAll (String c rest) with inspect (matchTimestamp (String c rest)) := {
    | exist _ (Some (m, after)) Hm := m :: execAll after;
    | exist _ None _ := execAll rest }.
Proof.
  exact (matchTimestamp_shorter (String c rest) m after Hm).
Qed.

(** [line.replace(TIMESTAMP_REGEX, "")]: every match, leftmost first, is
    removed. *)
Equations? stripTimestamps (line : string) : string
  by wf (String.length line) lt :=
  stripTimestamps EmptyString := EmptyString;
  stripTimestamps (String c rest) with inspect (matchTimestamp (String c rest)) := {
    | exist _ (Some (m, after)) Hm := stripTimestamps after;
    | exist _ None _ := String c (stripTimestamps rest) }.
Proof.
  exact (matchTimestamp_shorter (String c rest) m after Hm).
Qed.

(** The entries one source line pushes onto [parsed]. *)
Definition lineEntries (line : string) : list LyricLine :=
  let timestamps := map parseTimestampMs (execAll line) in
  match timestamps with
  | [] => []
  | _ =>
      let lyricText := trim (stripTimestamps line) in
      map (fun t => mkLyricLine t (orElse lyricText "...")) timestamps
  end.

(** [parsed] before the final sort: the emission order. *)
Definition emitted (text : string) : list LyricLine :=
  flat_map lineEntries (splitLines text).

(** The comparator handed to [sort]. *)
Definition byTime (a b : LyricLine) : Z := (timeMs a - timeMs b)%Z.

(** [Array.prototype.sort] is specified (since ECMAScript 2019) to be stable;
    with a consistent comparator its result is the one stable sorted
    rearrangement ([stable_sort_unique] below), computed here by insertion. *)
Fixpoint insertSorted (cmp : LyricLine -> LyricLine -> Z) (x : LyricLine)
         (sorted : list LyricLine) : list LyricLine :=
  match sorted with
  | [] => [x]
  | y :: rest =>
      if (cmp x y <=? 0)%Z then x :: y :: rest
      else y :: insertSorted cmp x rest
  end.

Definition sort (cmp : LyricLine -> LyricLine -> Z) (l : list LyricLine) : list LyricLine :=
  fold_right (insertSorted cmp) [] l.

Definition parseLrc (text : string) : list LyricLine :=
  sort byTime (emitted text).

(** [line.timeMs === t] *)
Definition atTime (t : Z) (line : LyricLine) : bool := (timeMs line =? t)%Z.

(** ** Active-line resolver ([lib/lrc.ts]) *)

(** [lines[i]]; [None] is [undefined]. *)
Definition lineAt (lines : list LyricLine) (i : Z) : option LyricLine :=
  if (i <? 0)%Z then None else nth_error lines (Z.to_nat i).

(** The [while (left <= right)] loop ([lo] and [hi] are the source's [left]
    and [right]).  [None] stands for the [TypeError] that reading [.timeMs] of
    [undefined] would raise. *)
Equations? searchLoop (lines : list LyricLine) (currentMs : Q)
  (lo hi answer : Z) : option Z
  by wf (Z.to_nat (hi - lo + 1)) lt :=
  searchLoop lines currentMs lo hi answer with inspect (lo <=? hi)%Z := {
    | exist _ false _ := Some answer;
    | exist _ true Hle with lineAt lines ((lo + hi) / 2)%Z := {
        | None := None;
        | Some line with Qle_bool (inject_Z (timeMs line)) currentMs := {
            | true := searchLoop lines currentMs ((lo + hi) / 2 + 1)%Z hi
                        ((lo + hi) / 2)%Z;
            | false := searchLoop lines currentMs lo ((lo + hi) / 2 - 1)%Z
                         answer } } }.
Proof.
  all: apply Z.leb_le in Hle;
    assert (lo <= (lo + hi) / 2 <= hi)%Z
      by (split; [apply Z.div_le_lower_bound | apply Z.div_le_upper_bound]; lia);
    lia.
Qed.

Definition activeLyricIndex (lines : list LyricLine) (currentMs : Q) : option Z :=
  match lines with
  | [] => Some (-1)%Z
  | _ => searchLoop lines currentMs 0%Z (Z.of_nat (length lines) - 1)%Z (-1)%Z
  end.

Definition ascendingByTime (lines : list LyricLine) : Prop :=
  Sorted (fun a b => (timeMs a <= timeMs b)%Z) lines.

(** [line.timeMs <= currentMs] *)
Definition startedBy (currentMs : Q) (line : LyricLine) : Prop :=
  (inject_Z (timeMs line) <= currentMs)%Q.


(** ** Scroll progress calculator ([lyricWindow] in [App.tsx]), in exact arithmetic

    The computation with every operation exact, for the properties that are
    about the order of its results; [Binary64] below has the same computation
    on doubles. *)

Definition MIN_SCROLL_PORTION : Q := 1 # 10.

(** The [scrollPortion] memo. *)
Definition scrollPortion (scrollDwellStart scrollDwellEnd : Q) : Q :=
  let raw := (1 - scrollDwellStart - scrollDwellEnd)%Q in
  Qmax MIN_SCROLL_PORTION raw.

Definition lineDurationMs (currentLineStartMs currentLineEndMs : Q) : Q :=
  Qmax 300 (currentLineEndMs - currentLineStartMs)%Q.

(** [currentMs] is the source's [currentTime * 1000]. *)
Definition normalizedLineProgress (currentLineStartMs currentLineEndMs currentMs : Q) : Q :=
  let elapsedInLineMs := (currentMs - currentLineStartMs)%Q in
  Qmin 1 (Qmax 0 (elapsedInLineMs / lineDurationMs currentLineStartMs currentLineEndMs)%Q).

Definition scrollEndOf (scrollDwellStart scrollDwellEnd : Q) : Q :=
  Qmin (1 - MIN_SCROLL_PORTION)%Q
       (scrollDwellStart + scrollPortion scrollDwellStart scrollDwellEnd)%Q.

(** The [progress] variable after the three-way branch. *)
Definition progressOf (normalized scrollStart scrollEnd : Q) : Q :=
  if Qle_bool normalized scrollStart then 0%Q
  else if Qle_bool scrollEnd normalized then 1%Q
  else ((normalized - scrollStart) / (scrollEnd - scrollStart))%Q.

(** [currentWindowIndex]; [windowCount] is [currentWindows.length]. *)
Definition currentWindowIndex
  (currentLineStartMs currentLineEndMs currentMs scrollDwellStart scrollDwellEnd : Q)
  (windowCount : Z) : Z :=
  let normalized := normalizedLineProgress currentLineStartMs currentLineEndMs currentMs in
  let scrollStart := scrollDwellStart in
  let scrollEnd := scrollEndOf scrollDwellStart scrollDwellEnd in
  let progress := progressOf normalized scrollStart scrollEnd in
  if (windowCount <=? 1)%Z then 0%Z
  else Z.min (windowCount - 1) (Qfloor (progress * inject_Z (windowCount - 1))%Q).

(** The selection as the specification's formula, in exact arithmetic: raw
    progress, mapped progress and the clamped index. *)
Module ScrollSpec.

Definition clampQ (x lo hi : Q) : Q := Qmin hi (Qmax lo x).
Definition clampZ (x lo hi : Z) : Z := Z.max lo (Z.min hi x).

Definition duration (a b : Q) : Q := Qmax 300 (b - a)%Q.

Definition raw (a b c : Q) : Q := clampQ ((c - a) / duration a b)%Q 0%Q 1%Q.

Definition scrollEnd (dwellStart dwellEnd : Q) : Q :=
  let scrollPortion := Qmax (1 # 10) (1 - dwellStart - dwellEnd)%Q in
  Qmin (9 # 10) (dwellStart + scrollPortion)%Q.

Definition mapped (a b c dwellStart dwellEnd : Q) : Q :=
  let r := raw a b c in
  if Qle_bool r dwellStart then 0%Q
  else if Qle_bool (scrollEnd dwellStart dwellEnd) r then 1%Q
  else ((r - dwellStart) / (scrollEnd dwellStart dwellEnd - dwellStart))%Q.

Definition windowIndex (a b c dwellStart dwellEnd : Q) (n : Z) : Z :=
  if (n <=? 1)%Z then 0%Z
  else clampZ (Qfloor (mapped a b c dwellStart dwellEnd * inject_Z (n - 1))%Q)
              0%Z (n - 1)%Z.

End ScrollSpec.

(** ** JavaScript numbers as IEEE 754 doubles

    [float] is the binary64 type of the kernel: [+], [-], [*], [/] and the
    comparisons are the processor's operations, rounded to nearest with ties
    to even, which is the arithmetic of JavaScript numbers.  The Standard
    Library specifies them ([FloatAxioms]) by the operations of [SpecFloat] on
    sign, mantissa and exponent; [Prim2SF] gives that view of a number. *)

Module Binary64.

(** [Number.isNaN]: NaN is the one number that differs from itself. *)
Definition isNaN (x : float) : bool := negb (x =? x)%float.

(** The sign bit, which tells [-0] from [+0]. *)
Definition signBit (x : float) : bool :=
  match Prim2SF x with
  | S754_zero s | S754_infinity s | S754_finite s _ _ => s
  | S754_nan => false
  end.

(** [Math.max] and [Math.min] of two numbers: NaN when either is NaN, and
    [+0] counts as greater than [-0]. *)
Definition Math_max (x y : float) : float :=
  if isNaN x || isNaN y then nan
  else if (x <? y)%float then y
  else if (y <? x)%float then x
  else if signBit x then y else x.

Definition Math_min (x y : float) : float :=
  if isNaN x || isNaN y then nan
  else if (x <? y)%float then x
  else if (y <? x)%float then y
  else if signBit x then x else y.

(** The number with the value of an integer (exact up to 2^53, which covers
    every array length). *)
Definition numberOfZ (z : Z) : float :=
  if (z <? 0)%Z then (- of_uint63 (of_Z (- z)))%float else of_uint63 (of_Z z).

(** [Math.floor]: a finite number [m * 2^e] with [e < 0] is below 2^53, so its
    floor is an integer that [numberOfZ] gives exactly; every other number is
    its own floor. *)
Definition Math_floor (x : float) : float :=
  match Prim2SF x with
  | S754_finite s m e =>
      if (0 <=? e)%Z then x
      else numberOfZ ((if s then Zneg m else Zpos m) / 2 ^ (- e))
  | _ => x
  end.

(** *** The scroll progress calculator ([lyricWindow] in [App.tsx]) *)

Definition MIN_SCROLL_PORTION : float := 0.1.

(** The [scrollPortion] memo. *)
Definition scrollPortion (scrollDwellStart scrollDwellEnd : float) : float :=
  let raw := (1 - scrollDwellStart - scrollDwellEnd)%float in
  Math_max MIN_SCROLL_PORTION raw.

Definition lineDurationMs (currentLineStartMs currentLineEndMs : float) : float :=
  Math_max 300 (currentLineEndMs - currentLineStartMs)%float.

(** [currentMs] is the source's [currentTime * 1000]. *)
Definition normalizedLineProgress
  (currentLineStartMs currentLineEndMs currentMs : float) : float :=
  let elapsedInLineMs := (currentMs - currentLineStartMs)%float in
  Math_min 1 (Math_max 0
    (elapsedInLineMs / lineDurationMs currentLineStartMs currentLineEndMs)%float).

Definition scrollEndOf (scrollDwellStart scrollDwellEnd : float) : float :=
  Math_min (1 - MIN_SCROLL_PORTION)%float
           (scrollDwellStart + scrollPortion scrollDwellStart scrollDwellEnd)%float.

(** The [progress] variable after the three-way branch; [a >= b] on numbers
    is [b <= a]. *)
Definition progressOf (normalized scrollStart scrollEnd : float) : float :=
  if (normalized <=? scrollStart)%float then 0%float
  else if (scrollEnd <=? normalized)%float then 1%float
  else ((normalized - scrollStart) / (scrollEnd - scrollStart))%float.

(** [currentWindowIndex]; [windowCount] is [currentWindows.length]. *)
Definition currentWindowIndex
  (currentLineStartMs currentLineEndMs currentMs scrollDwellStart scrollDwellEnd : float)
  (windowCount : Z) : float :=
  let normalized := normalizedLineProgress currentLineStartMs currentLineEndMs currentMs in
  let scrollStart := scrollDwellStart in
  let scrollEnd := scrollEndOf scrollDwellStart scrollDwellEnd in
  let progress := progressOf normalized scrollStart scrollEnd in
  if (windowCount <=? 1)%Z then 0%float
  else Math_min (numberOfZ (windowCount - 1))
                (Math_floor (progress * numberOfZ (windowCount - 1))%float).

(** The same selection written after the specification, every step in
    doubles. *)
Module ScrollSpec.

Definition clamp (x lo hi : float) : float := Math_min hi (Math_max lo x).

Definition duration (a b : float) : float := Math_max 300 (b - a)%float.

Definition raw (a b c : float) : float := clamp ((c - a) / duration a b)%float 0 1.

Definition scrollEnd (dwellStart dwellEnd : float) : float :=
  let scrollPortion := Math_max 0.1 (1 - dwellStart - dwellEnd)%float in
  Math_min 0.9 (dwellStart + scrollPortion)%float.

Definition mapped (a b c dwellStart dwellEnd : float) : float :=
  let r := raw a b c in
  if (r <=? dwellStart)%float then 0%float
  else if (scrollEnd dwellStart dwellEnd <=? r)%float then 1%float
  else ((r - dwellStart) / (scrollEnd dwellStart dwellEnd - dwellStart))%float.

Definition windowIndex (a b c dwellStart dwellEnd : float) (n : Z) : float :=
  if (n <=? 1)%Z then 0%float
  else clamp (Math_floor (mapped a b c dwellStart dwellEnd * numberOfZ (n - 1))%float)
             0 (numberOfZ (n - 1)).

End ScrollSpec.

(** *** The dwell profile handlers ([App.tsx]) *)

Record ScrollProfile := mkProfile { scrollDwellStart : float; scrollDwellEnd : float }.

Definition handleScrollDwellStartChange (nextValue : float) (st : ScrollProfile)
  : ScrollProfile :=
  let clamped := Math_min 0.9 (Math_max 0 nextValue) in
  let maxEnd := (1 - MIN_SCROLL_PORTION - clamped)%float in
  {| scrollDwellStart := clamped;
     scrollDwellEnd := Math_min (scrollDwellEnd st) (Math_max 0 maxEnd) |}.

Definition handleScrollDwellEndChange (nextValue : float) (st : ScrollProfile)
  : ScrollProfile :=
  let clamped := Math_min 0.9 (Math_max 0 nextValue) in
  let maxStart := (1 - MIN_SCROLL_PORTION - clamped)%float in
  {| scrollDwellStart := Math_min (scrollDwellStart st) (Math_max 0 maxStart);
     scrollDwellEnd := clamped |}.

Inductive DwellUpdate :=
| DwellStartChange (nextValue : float)
| DwellEndChange (nextValue : float).

Definition applyDwellUpdate (st : ScrollProfile) (u : DwellUpdate) : ScrollProfile :=
  match u with
  | DwellStartChange v => handleScrollDwellStartChange v st
  | DwellEndChange v => handleScrollDwellEndChange v st
  end.

Definition applyDwellUpdates (st : ScrollProfile) (us : list DwellUpdate) : ScrollProfile :=
  fold_left applyDwellUpdate us st.

Definition updateValue (u : DwellUpdate) : float :=
  match u with DwellStartChange v | DwellEndChange v => v end.

(** [x] lies in [[0, 0.9]]. *)
Definition inDwellRange (x : float) : Prop :=
  (0 <=? x)%float = true /\ (x <=? 0.9)%float = true.

(** What the mutual clamping keeps: both fractions in [[0, 0.9]], and the one
    that was clamped against the other is at most [1 - MIN_SCROLL_PORTION]
    minus the other, the subtraction being that of doubles. *)
Definition dwellInvariant (st : ScrollProfile) : Prop :=
  inDwellRange (scrollDwellStart st) /\ inDwellRange (scrollDwellEnd st) /\
  ((scrollDwellEnd st <=? 1 - MIN_SCROLL_PORTION - scrollDwellStart st)%float = true \/
   (scrollDwellStart st <=? 1 - MIN_SCROLL_PORTION - scrollDwellEnd st)%float = true).

End Binary64.

(** *** Notions used to reason about doubles *)

(** A key that orders the numbers as [SFcompare] does: the class and sign
    first, then the exponent, then the mantissa; the two zeros share a key. *)
Definition SFkey (x : spec_float) : Z * Z * Z :=
  match x with
  | S754_nan => (0, 0, 0)%Z
  | S754_zero _ => (0, 0, 0)%Z
  | S754_infinity true => (-2, 0, 0)%Z
  | S754_infinity false => (2, 0, 0)%Z
  | S754_finite true m e => (-1, - e, Zneg m)%Z
  | S754_finite false m e => (1, e, Zpos m)%Z
  end.

Definition keyLt (k1 k2 : Z * Z * Z) : Prop :=
  let '(a1, b1, c1) := k1 in
  let '(a2, b2, c2) := k2 in
  (a1 < a2 \/ (a1 = a2 /\ (b1 < b2 \/ (b1 = b2 /\ c1 < c2))))%Z.

Definition keyLe (k1 k2 : Z * Z * Z) : Prop := keyLt k1 k2 \/ k1 = k2.

Definition SFnotNaN (x : spec_float) : Prop := x <> S754_nan.

Definition doubleKey (x : float) : Z * Z * Z := SFkey (Prim2SF x).

(** The sign bit of [x] is [s], or [x] is NaN. *)
Definition SFsigned (s : bool) (x : spec_float) : Prop :=
  match x with
  | S754_nan => True
  | S754_zero s' | S754_infinity s' | S754_finite s' _ _ => s' = s
  end.

Definition SFfiniteOrZero (x : spec_float) : Prop :=
  match x with
  | S754_zero _ | S754_finite _ _ _ => True
  | _ => False
  end.

(** The mantissa [m] of [m * 2^e] written at the exponent [ez <= e]. *)
Definition aligned (m : positive) (e ez : Z) : Z := Zpos (fst (shl_align m e ez)).

(** The sign bit of [x] is clear, or [x] is NaN. *)
Definition posOrNaN (x : float) : Prop := SFsigned false (Prim2SF x).

(** ** Publish throttler (the media-session effect of [App.tsx]) *)

Record BluetoothMetadataPayload := mkPayload {
  title : string;
  artist : string;
  album : string;
  artworkUrl : option string
}.

Definition option_string_eqb (a b : option string) : bool :=
  match a, b with
  | Some x, Some y => (x =? y)
  | None, None => true
  | _, _ => false
  end.

(** Equality of [JSON.stringify] of two payloads: the four fields are written
    in a fixed order, so the signatures agree exactly when the fields do. *)
Definition sameSignature (a b : BluetoothMetadataPayload) : bool :=
  (title a =? title b) && (artist a =? artist b) && (album a =? album b)
  && option_string_eqb (artworkUrl a) (artworkUrl b).

(** Three payloads for the examples. *)
Definition payloadA : BluetoothMetadataPayload := mkPayload "Song" "Artist" "Album" None.
Definition payloadB : BluetoothMetadataPayload := mkPayload " " "first line" "second line" None.
Definition payloadC : BluetoothMetadataPayload := mkPayload "first line" "second line" "third" None.

(** The four refs.  An armed timeout is kept as the clock reading from which
    the host may run its callback. *)
Record ThrottleState := mkThrottle {
  lastMetadataSentAt : Z;
  lastSentMetadataSignature : option BluetoothMetadataPayload;
  pendingMetadata : option BluetoothMetadataPayload;
  metadataFlushTimer : option Z
}.

(** The refs as [useRef] creates them. *)
Definition initialThrottle : ThrottleState :=
  mkThrottle 0 None None None.

Definition isNone {A} (o : option A) : bool :=
  match o with
  | None => true
  | Some _ => false
  end.

(** One write to the display channel: the [Date.now()] of the send and the
    payload. *)
Definition Send : Type := (Z * BluetoothMetadataPayload)%type.

Section Throttler.

Variable metadataRefreshIntervalMs : Z.

(** [publishPayload] at [Date.now() = now]: the write to the channel and
    the two refs it sets. *)
Definition publishPayload (st : ThrottleState) (now : Z)
           (payload : BluetoothMetadataPayload) : ThrottleState * list Send :=
  (mkThrottle now (Some payload) (pendingMetadata st) (metadataFlushTimer st),
   [(now, payload)]).

Definition setPending (st : ThrottleState) (p : option BluetoothMetadataPayload)
  : ThrottleState :=
  mkThrottle (lastMetadataSentAt st) (lastSentMetadataSignature st) p
             (metadataFlushTimer st).

Definition setTimer (st : ThrottleState) (t : option Z) : ThrottleState :=
  mkThrottle (lastMetadataSentAt st) (lastSentMetadataSignature st)
             (pendingMetadata st) t.

(** [payloadSignature === lastSentMetadataSignatureRef.current] *)
Definition isLastSent (st : ThrottleState) (p : BluetoothMetadataPayload) : bool :=
  match lastSentMetadataSignature st with
  | Some sent => sameSignature p sent
  | None => false
  end.

(** The effect body for a track with metadata, run at [Date.now() = now]
    with the composed [nextPayload]. *)
Definition onPayload (st : ThrottleState) (now : Z)
           (nextPayload : BluetoothMetadataPayload) : ThrottleState * list Send :=
  if isLastSent st nextPayload && isNone (pendingMetadata st) then (st, [])
  else
    let elapsedMs := (now - lastMetadataSentAt st)%Z in
    if (metadataRefreshIntervalMs <=? elapsedMs)%Z
    then publishPayload (setPending (setTimer st None) None) now nextPayload
    else
      let st := setPending st (Some nextPayload) in
      match metadataFlushTimer st with
      | Some _ => (st, [])
      | None =>
          let waitMs := Z.max 0 (metadataRefreshIntervalMs - elapsedMs) in
          (setTimer st (Some (now + waitMs)%Z), [])
      end.

(** The callback handed to [setTimeout], run at [Date.now() = now]. *)
Definition onTimer (st : ThrottleState) (now : Z) : ThrottleState * list Send :=
  let st := setTimer st None in
  match pendingMetadata st with
  | None => (st, [])
  | Some pending => publishPayload (setPending st None) now pending
  end.

(** The effect body when [currentMetadata] is null: the timer is cleared and
    the channel reset; nothing goes through [publishPayload]. *)
Definition onNoMetadata (st : ThrottleState) : ThrottleState :=
  mkThrottle (lastMetadataSentAt st) None None None.

Inductive ThrottleEvent :=
| Candidate (now : Z) (nextPayload : BluetoothMetadataPayload)
| TimerFired (now : Z)
| NoMetadata (now : Z).

Definition eventTime (e : ThrottleEvent) : Z :=
  match e with
  | Candidate now _ => now
  | TimerFired now => now
  | NoMetadata now => now
  end.

Definition step (st : ThrottleState) (e : ThrottleEvent) : ThrottleState * list Send :=
  match e with
  | Candidate now p => onPayload st now p
  | TimerFired now => onTimer st now
  | NoMetadata _ => (onNoMetadata st, [])
  end.

(** All sends of a run, oldest first. *)
Fixpoint run (st : ThrottleState) (events : list ThrottleEvent)
  : ThrottleState * list Send :=
  match events with
  | [] => (st, [])
  | e :: rest =>
      let (st1, sent1) := step st e in
      let (st2, sent2) := run st1 rest in
      (st2, (sent1 ++ sent2)%list)
  end.

(** What the host guarantees of a run that starts at clock reading [clock]:
    the clock does not go back, and a timeout callback runs only while its
    timer is armed and not before the delay it was armed with is over. *)
Fixpoint hostRun (clock : Z) (st : ThrottleState) (events : list ThrottleEvent) : bool :=
  match events with
  | [] => true
  | e :: rest =>
      (clock <=? eventTime e)%Z
      && match e with
         | TimerFired now =>
             match metadataFlushTimer st with
             | Some due => (due <=? now)%Z
             | None => false
             end
         | _ => true
         end
      && hostRun (eventTime e) (fst (step st e)) rest
  end.

(** Consecutive clock readings are at least the interval apart. *)
Fixpoint spaced (times : list Z) : Prop :=
  match times with
  | a :: (b :: _) as rest => (metadataRefreshIntervalMs <= b - a)%Z /\ spaced rest
  | _ => True
  end.

(** The refs are consistent at clock reading [clock]: the last send is not
    in the future and an armed timer is due no earlier than one interval
    after it. *)
Definition throttleInvariant (clock : Z) (st : ThrottleState) : Prop :=
  (lastMetadataSentAt st <= clock)%Z /\
  match metadataFlushTimer st with
  | Some due => (lastMetadataSentAt st + metadataRefreshIntervalMs <= due)%Z
  | None => True
  end.

End Throttler.

(** ** Further parts of [lib/lrc.ts] *)

(** No code unit of [s] is [c]. *)
Fixpoint lacksChar (c : ascii) (s : string) : bool :=
  match s with
  | EmptyString => true
  | String d rest => negb (Ascii.eqb d c) && lacksChar c rest
  end.

(** [text] with every CR LF pair replaced by LF. *)
Fixpoint dropCarriageReturns (text : string) : string :=
  match text with
  | EmptyString => EmptyString
  | String c rest =>
      if Ascii.eqb c CR &&
         match rest with String d _ => Ascii.eqb d LF | EmptyString => false end
      then dropCarriageReturns rest
      else String c (dropCarriageReturns rest)
  end.

(** The texts of several tags one after the other. *)
Definition tagsText (ms : list TimestampMatch) : string :=
  join (map tagText ms).

(** ** Shapes of window lists *)

(** No window is followed by an equal one. *)
Fixpoint adjacentDistinct (windows : list string) : Prop :=
  match windows with
  | a :: (b :: _) as rest => a <> b /\ adjacentDistinct rest
  | _ => True
  end.

(** [w] is [piece] without its leading white space, or [piece] itself when
    nothing else is left: how the fitter records a scanned piece. *)
Definition recordedFrom (piece w : string) : Prop :=
  w = orElse (trimStart piece) piece.

(** ** The lyric window and the payload built from it ([App.tsx]) *)

Record LyricWindow := mkLyricWindow {
  previous : string;
  current : string;
  next : string
}.



Section LyricWindowMemo.

Variable splitGraphemes : string -> list string.
Variable measureTextWidth : string -> Q.
Variable lyricWidthLimitPx : Q.


End LyricWindowMemo.

Definition EMPTY_METADATA_PLACEHOLDER : string := " ".

Definition metadataFieldValueOrPlaceholder (value : string) : string :=
  if (0 <? String.length (trim value))%nat then value else EMPTY_METADATA_PLACEHOLDER.

(** [LyricLineRole]: ["previous" | "current" | "next"]. *)
Inductive LyricLineRole := RolePrevious | RoleCurrent | RoleNext.

(** [lyricWindow[role]] *)
Definition windowOfRole (w : LyricWindow) (role : LyricLineRole) : string :=
  match role with
  | RolePrevious => previous w
  | RoleCurrent => current w
  | RoleNext => next w
  end.

(** [Record<MetadataField, LyricLineRole>] *)
Record FieldMapping := mkFieldMapping {
  titleRole : LyricLineRole;
  artistRole : LyricLineRole;
  albumRole : LyricLineRole
}.

Definition DEFAULT_FIELD_MAPPING : FieldMapping :=
  mkFieldMapping RolePrevious RoleCurrent RoleNext.

(** [TrackMetadata] of [lib/metadata.ts]. *)
Record TrackMetadata := mkTrackMetadata {
  trackTitle : string;
  trackArtist : string;
  trackAlbum : string;
  trackArtworkUrl : option string
}.

(** The [nextPayload] the media-session effect composes. *)
Definition composePayload (usesLyricsWindow : bool) (w : LyricWindow)
           (fieldMapping : FieldMapping) (currentMetadata : TrackMetadata)
  : BluetoothMetadataPayload :=
  {| title := metadataFieldValueOrPlaceholder
                (if usesLyricsWindow then windowOfRole w (titleRole fieldMapping)
                 else trackTitle currentMetadata);
     artist := metadataFieldValueOrPlaceholder
                 (if usesLyricsWindow then windowOfRole w (artistRole fieldMapping)
                  else trackArtist currentMetadata);
     album := metadataFieldValueOrPlaceholder
                (if usesLyricsWindow then windowOfRole w (albumRole fieldMapping)
                 else trackAlbum currentMetadata);
     artworkUrl := trackArtworkUrl currentMetadata |}.

(** ** More on the throttler *)

(** A payload is pending exactly while the timer is armed, and the timer is
    due one interval after the last send. *)
Definition pendingArmed (interval : Z) (st : ThrottleState) : Prop :=
  match pendingMetadata st, metadataFlushTimer st with
  | None, None => True
  | Some _, Some due => due = (lastMetadataSentAt st + interval)%Z
  | _, _ => False
  end.

(** The payload of the last candidate of a run, forgotten when the track
    loses its metadata. *)
Definition latestCandidate (events : list ThrottleEvent)
  : option BluetoothMetadataPayload :=
  fold_left (fun latest e =>
               match e with
               | Candidate _ p => Some p
               | TimerFired _ => latest
               | NoMetadata _ => None
               end) events None.

(** The latest candidate is pending, or it is what was sent last. *)
Definition latestHeld (st : ThrottleState) (latest : option BluetoothMetadataPayload)
  : Prop :=
  match latest with
  | None => True
  | Some p =>
      match pendingMetadata st with
      | Some q => q = p
      | None => isLastSent st p = true
      end
  end.

(** ** Track navigation ([playPrevious], [playNext] in [App.tsx]) *)

(** [tracks.findIndex((track) => track.id === currentTrackId)] on the ids of
    the tracks; [currentTrackId] is [None] for null. *)
Fixpoint findIndex (ids : list string) (currentTrackId : option string) : Z :=
  match ids with
  | [] => (-1)%Z
  | id :: rest =>
      if match currentTrackId with Some c => (id =? c) | None => false end
      then 0%Z
      else let i := findIndex rest currentTrackId in
           if (i <? 0)%Z then (-1)%Z else (i + 1)%Z
  end.

Definition prevIndex (trackCount currentTrackIndex : Z) : Z :=
  if (currentTrackIndex <=? 0)%Z then (trackCount - 1)%Z else (currentTrackIndex - 1)%Z.

Definition nextIndex (trackCount currentTrackIndex : Z) : Z :=
  if (trackCount - 1 <=? currentTrackIndex)%Z then 0%Z else (currentTrackIndex + 1)%Z.

(** ** Paths and file names ([App.tsx], [lib/fs.ts], [lib/metadata.ts]) *)

(** [s.split(sep)] for a one-character separator, as a first piece and the
    pieces after it. *)
Fixpoint splitOnFrom (sep : ascii) (s : string) : string * list string :=
  match s with
  | EmptyString => (EmptyString, [])
  | String c rest =>
      let (piece, pieces) := splitOnFrom sep rest in
      if Ascii.eqb c sep then (EmptyString, piece :: pieces)
      else (String c piece, pieces)
  end.

Definition splitOn (sep : ascii) (s : string) : list string :=
  let (piece, pieces) := splitOnFrom sep s in piece :: pieces.

(** [Boolean(s)] *)
Definition truthy (s : string) : bool := negb (isEmpty s).

(** [path.split("/").filter(Boolean)] *)
Definition pathParts (path : string) : list string :=
  filter truthy (splitOn "/" path).

Definition directoryAncestorsFromTrackPath (trackPath : string) : list string :=
  let parts := pathParts trackPath in
  if (length parts <? 2)%nat then []
  else
    let directoryParts := removelast parts in
    map (fun index => String.concat "/" (firstn (index + 1) directoryParts))
        (seq 0 (length directoryParts)).

(** [pathJoin] of [lib/fs.ts]. *)
Definition pathJoin (base segment : string) : string :=
  if isEmpty base then segment else base ++ "/" ++ segment.

(** The [currentPath] [walkDirectory] reaches through the directories named
    [directories], outermost first, starting from the empty parent path. *)
Definition directoryPath (directories : list string) : string :=
  fold_left pathJoin directories "".

(** The [path] (and [id]) [walkDirectory] gives a track in that directory. *)
Definition trackPath (directories : list string) (fileName : string) : string :=
  directoryPath directories ++ "/" ++ fileName.

(** A name that can stand between slashes: not empty and without a slash. *)
Definition isSegment (s : string) : bool := truthy s && lacksChar "/" s.

(** [fallbackFromPath] of [lib/metadata.ts]: the artist and the album;
    [path] is [None] for undefined. *)
Definition fallbackFromPath (path : option string) : string * string :=
  match path with
  | None => ("Unknown artist", "Unknown album")
  | Some p =>
      if isEmpty p then ("Unknown artist", "Unknown album")
      else
        let parts := pathParts p in
        let directories := removelast parts in
        if (2 <=? length directories)%nat
        then (nth (length directories - 2) directories "",
              nth (length directories - 1) directories "")
        else if (length directories =? 1)%nat
        then (nth 0 directories "", "Unknown album")
        else ("Unknown artist", "Unknown album")
  end.

(** [s.lastIndexOf(c)], [-1] when [c] does not occur. *)
Fixpoint lastIndexOf (c : ascii) (s : string) : Z :=
  match s with
  | EmptyString => (-1)%Z
  | String d rest =>
      let i := lastIndexOf c rest in
      if (0 <=? i)%Z then (i + 1)%Z
      else if Ascii.eqb d c then 0%Z else (-1)%Z
  end.

Fixpoint takeChars (n : nat) (s : string) : string :=
  match n, s with
  | S k, String c rest => String c (takeChars k rest)
  | _, _ => EmptyString
  end.

Fixpoint dropChars (n : nat) (s : string) : string :=
  match n, s with
  | S k, String _ rest => dropChars k rest
  | _, _ => s
  end.

(** [s.slice(0, to)] and [s.slice(from)] for indexes that are not negative. *)
Definition sliceTo (to : Z) (s : string) : string := takeChars (Z.to_nat to) s.
Definition sliceFrom (from : Z) (s : string) : string := dropChars (Z.to_nat from) s.

(** [toLowerCase] on the code units below 256: A to Z and the accented capitals
    192 to 222, without the multiplication sign 215, move up by 32. *)
Definition toLowerCaseChar (c : ascii) : ascii :=
  let n := nat_of_ascii c in
  if ((65 <=? n) && (n <=? 90) || (192 <=? n) && (n <=? 222) && negb (n =? 215))%nat
  then ascii_of_nat (n + 32) else c.

Fixpoint toLowerCase (s : string) : string :=
  match s with
  | EmptyString => EmptyString
  | String c rest => String (toLowerCaseChar c) (toLowerCase rest)
  end.

(** [extensionOf] and [baseName] of [lib/fs.ts]. *)
Definition extensionOf (name : string) : string :=
  let dotIndex := lastIndexOf "." name in
  if (dotIndex <? 0)%Z then "" else toLowerCase (sliceFrom (dotIndex + 1) name).

Definition baseName (name : string) : string :=
  let dotIndex := lastIndexOf "." name in
  if (dotIndex <? 0)%Z then name else sliceTo dotIndex name.

(** [fileNameWithoutExtension] of [lib/metadata.ts]. *)
Definition fileNameWithoutExtension (name : string) : string :=
  let lastDot := lastIndexOf "." name in
  if (0 <? lastDot)%Z then sliceTo lastDot name else name.

Fixpoint dropWhile (p : ascii -> bool) (s : string) : string :=
  match s with
  | EmptyString => EmptyString
  | String c rest => if p c then dropWhile p rest else s
  end.

(** The class [[-_.]]. *)
Definition isSeparator (c : ascii) : bool :=
  Ascii.eqb c "-" || Ascii.eqb c "_" || Ascii.eqb c ".".

(** [raw.replace(/^\d+\s*[-_.]?\s*/, "")]: the pattern matches only at the
    start and only when a digit stands there; after the digits every part can
    match nothing, so each takes as much as it can. *)
Definition stripTrackNumber (raw : string) : string :=
  if startsWithDigit raw
  then
    let afterDigits := dropWhile isDigit raw in
    let afterSpace := dropWhile isWhiteSpace afterDigits in
    let afterSeparator :=
      match afterSpace with
      | String c rest => if isSeparator c then rest else afterSpace
      | EmptyString => afterSpace
      end in
    dropWhile isWhiteSpace afterSeparator
  else raw.

(** [titleFromFileName] of [lib/metadata.ts]. *)
Definition titleFromFileName (name : string) : string :=
  let raw := fileNameWithoutExtension name in
  orElse (trim (stripTrackNumber raw)) raw.

(* ===================================================================== *)
(** * Part II: properties                                                 *)
(* ===================================================================== *)

(** ** Strings *)

Lemma append_nil_r (s : string) : s ++ "" = s.
Proof. induction s as [|c s IH]; simpl; [reflexivity | now rewrite IH]. Qed.

Lemma append_assoc (a b c : string) : (a ++ b) ++ c = a ++ (b ++ c).
Proof. induction a as [|x a IH]; simpl; [reflexivity | now rewrite IH]. Qed.

Lemma isEmpty_true (s : string) : isEmpty s = true <-> s = "".
Proof. destruct s; simpl; split; congruence. Qed.

Lemma isEmpty_false (s : string) : isEmpty s = false <-> s <> "".
Proof. destruct s; simpl; split; congruence. Qed.

Lemma occursIn_refl (g : string) : occursIn g g.
Proof. exists "", "". simpl. now rewrite append_nil_r. Qed.

Lemma occursIn_append_l (g a b : string) : occursIn g a -> occursIn g (a ++ b).
Proof.
  intros (pre & post & ->). exists pre, (post ++ b).
  now rewrite !append_assoc.
Qed.

Lemma occursIn_append_r (g a b : string) : occursIn g b -> occursIn g (a ++ b).
Proof.
  intros (pre & post & ->). exists (a ++ pre), post.
  now rewrite !append_assoc.
Qed.

Lemma occursIn_join (g : string) (pieces : list string) :
  In g pieces -> occursIn g (join pieces).
Proof.
  induction pieces as [|p ps IH]; simpl; [tauto|].
  intros [->|Hin].
  - apply occursIn_append_l, occursIn_refl.
  - apply occursIn_append_r, IH, Hin.
Qed.

Lemma trimStart_visible (s : string) :
  startsVisible s = true -> trimStart s = s.
Proof.
  destruct s as [|c s]; simpl; [discriminate|].
  now destruct (isWhiteSpace c).
Qed.

Lemma trimStart_cases (s : string) :
  trimStart s = "" \/ startsVisible (trimStart s) = true.
Proof.
  induction s as [|c s IH]; simpl; [now left|].
  destruct (isWhiteSpace c) eqn:E; [exact IH|].
  right. simpl. now rewrite E.
Qed.

Lemma hasVisible_trimStart (s : string) : hasVisible (trimStart s) = hasVisible s.
Proof.
  induction s as [|c s IH]; simpl; [reflexivity|].
  destruct (isWhiteSpace c) eqn:E; simpl; [exact IH | now rewrite E].
Qed.

Lemma startsVisible_hasVisible (s : string) :
  startsVisible s = true -> hasVisible s = true.
Proof. destruct s; simpl; [discriminate|]. intros ->. reflexivity. Qed.

Lemma trimEnd_empty (s : string) : trimEnd s = "" <-> hasVisible s = false.
Proof.
  induction s as [|c s IH]; simpl; [tauto|].
  destruct (trimEnd s) eqn:E.
  - destruct (isWhiteSpace c); simpl.
    + split; intros _; [now apply IH | reflexivity].
    + split; discriminate.
  - split; [discriminate|].
    intros H. apply orb_false_iff in H as [_ H].
    apply IH in H. discriminate.
Qed.

Lemma trim_empty (s : string) : isEmpty (trim s) = true <-> hasVisible s = false.
Proof.
  unfold trim. rewrite isEmpty_true, trimEnd_empty.
  now rewrite hasVisible_trimStart.
Qed.

Lemma trimStart_empty (s : string) : trimStart s = "" <-> hasVisible s = false.
Proof.
  rewrite <- (hasVisible_trimStart s).
  destruct (trimStart_cases s) as [E|E].
  - rewrite E. simpl. tauto.
  - apply startsVisible_hasVisible in E as E'. rewrite E'.
    split; [|discriminate]. intros H. rewrite H in E. discriminate.
Qed.

Lemma occursIn_hasVisible (g w : string) :
  startsVisible g = true -> occursIn g w -> hasVisible w = true.
Proof.
  intros Hg (pre & post & ->).
  induction pre as [|c pre IH]; simpl.
  - destruct g as [|c g]; simpl in *; [discriminate|]. now rewrite Hg.
  - rewrite IH. apply orb_true_r.
Qed.

(** Trimming the start of a window keeps every piece that starts with a
    visible character. *)
Lemma occursIn_trimStart (g w : string) :
  startsVisible g = true -> occursIn g w -> occursIn g (trimStart w).
Proof.
  intros Hg (pre & post & ->).
  induction pre as [|c pre IH]; simpl.
  - rewrite trimStart_visible.
    + exists "", post. reflexivity.
    + destruct g; simpl in *; [discriminate | exact Hg].
  - destruct (isWhiteSpace c); [exact IH|].
    exists (String c pre), post. reflexivity.
Qed.

(** ** Text fitter *)

Lemma arrayFrom_join (text : string) : join (arrayFrom text) = text.
Proof. induction text as [|c t IH]; simpl; [reflexivity | now rewrite IH]. Qed.

Lemma arrayFrom_nonempty (text g : string) : In g (arrayFrom text) -> g <> "".
Proof.
  induction text as [|c t IH]; simpl; [tauto|].
  intros [<-|H]; [discriminate | now apply IH].
Qed.

#[export] Instance arrayFrom_lawful : LawfulSegmenter arrayFrom :=
  {| segments_join := arrayFrom_join; segments_nonempty := arrayFrom_nonempty |}.

Lemma pushDistinct_In (windows : list string) (w : string) :
  In w (pushDistinct windows w).
Proof.
  unfold pushDistinct, lastWindow.
  destruct (rev windows) as [|l ls] eqn:E.
  - apply in_or_app. right. now left.
  - destruct (String.eqb_spec l w) as [->|_].
    + apply in_rev. rewrite E. now left.
    + apply in_or_app. right. now left.
Qed.

Lemma pushDistinct_incl (windows : list string) (w : string) :
  incl windows (pushDistinct windows w).
Proof.
  unfold pushDistinct. intros x Hx.
  destruct (lastWindow windows) as [l|]; [destruct (l =? w)|];
    auto using in_or_app.
Qed.

Lemma pushDistinct_subset (windows : list string) (w x : string) :
  In x (pushDistinct windows w) -> In x windows \/ x = w.
Proof.
  unfold pushDistinct.
  destruct (lastWindow windows) as [l|]; [destruct (l =? w)|]; auto;
    intros H; apply in_app_or in H as [H|[H|[]]]; auto.
Qed.

Section FitterFacts.

Variable splitGraphemes : string -> list string.
Variable measureWidth : string -> Q.
Variable maxWidthPx : Q.

(** The inner loop leaves [candidate] extended by a prefix of the remaining
    graphemes, and reports the line end only when that prefix is all of
    them. *)
Lemma growCandidate_prefix (rest : list string) (candidate : string) (reached : bool) :
  exists k, (k <= length rest)%nat /\
    fst (growCandidate measureWidth maxWidthPx candidate reached rest)
      = candidate ++ join (firstn k rest) /\
    (snd (growCandidate measureWidth maxWidthPx candidate reached rest) = true ->
     reached = true \/ k = length rest).
Proof.
  revert candidate reached.
  induction rest as [|g rest IH]; intros candidate reached; simpl.
  - exists 0%nat. simpl. rewrite append_nil_r. auto.
  - destruct (fits measureWidth maxWidthPx (candidate ++ g)).
    + destruct (IH (candidate ++ g) (match rest with [] => true | _ => false end))
        as (k & Hk & Hfst & Hsnd).
      exists (S k). simpl. rewrite Hfst, append_assoc.
      repeat split; [lia|].
      intros H. right. destruct (Hsnd H) as [Hr|Hr]; [|lia].
      destruct rest; [simpl in *; lia | discriminate].
    + exists 0%nat. simpl. rewrite append_nil_r.
      repeat split; [lia | auto].
Qed.

Lemma finalWindowOf_covers (g : string) (pieces : list string) (h : string) :
  In h pieces ->
  startsVisible h = true ->
  occursIn h (finalWindowOf g (join pieces)).
Proof.
  intros Hin Hvis. unfold finalWindowOf, orElse.
  apply occursIn_join in Hin.
  assert (Hne : isEmpty (join pieces) = false).
  { apply (occursIn_hasVisible _ _ Hvis) in Hin.
    destruct (join pieces); [discriminate | reflexivity]. }
  rewrite Hne.
  destruct (isEmpty (trimStart _)); [exact Hin|].
  now apply occursIn_trimStart.
Qed.

Lemma finalWindowOf_alone (g : string) :
  startsVisible g = true -> finalWindowOf g "" = g.
Proof.
  intros Hvis. unfold finalWindowOf, orElse. simpl.
  rewrite (trimStart_visible _ Hvis).
  destruct g; [discriminate | reflexivity].
Qed.

Lemma finalWindowOf_nonempty (g candidate : string) :
  g <> "" -> finalWindowOf g candidate <> "".
Proof.
  intros Hg. unfold finalWindowOf, orElse.
  set (c := if isEmpty candidate then g else candidate).
  assert (Hc : c <> "").
  { subst c. destruct (isEmpty candidate) eqn:E; [exact Hg|].
    now apply isEmpty_false. }
  destruct (isEmpty (trimStart c)) eqn:E; [exact Hc | now apply isEmpty_false].
Qed.

(** The outer loop only adds windows, and every grapheme it walks over that
    starts with a visible character ends up inside one of them. *)
Lemma scanWindows_covers (rest : list string) (windows : list string) :
  incl windows (scanWindows measureWidth maxWidthPx windows rest) /\
  forall h, In h rest -> startsVisible h = true ->
    exists w, In w (scanWindows measureWidth maxWidthPx windows rest) /\ occursIn h w.
Proof.
  revert windows.
  induction rest as [|g rest IH]; intros windows.
  - split; [apply incl_refl | intros h []].
  - cbn [scanWindows].
    destruct (growCandidate_prefix (g :: rest) "" false) as (k & Hk & Hfst & Hsnd).
    destruct (growCandidate measureWidth maxWidthPx "" false (g :: rest))
      as [candidate reached] eqn:Egrow.
    cbn [fst snd] in Hfst, Hsnd. simpl append in Hfst. subst candidate.
    set (fw := finalWindowOf g (join (firstn k (g :: rest)))).
    assert (Hg : startsVisible g = true -> occursIn g fw).
    { intros Hvis. subst fw. destruct k as [|k].
      - simpl. rewrite finalWindowOf_alone by exact Hvis. apply occursIn_refl.
      - apply finalWindowOf_covers; [now left | exact Hvis]. }
    destruct reached.
    + split; [apply pushDistinct_incl|].
      intros h Hin Hvis. exists fw. split; [apply pushDistinct_In|].
      destruct (Hsnd eq_refl) as [Hr|Hr]; [discriminate|].
      subst fw. rewrite Hr, firstn_all.
      now apply finalWindowOf_covers.
    + destruct (IH (pushDistinct windows fw)) as [Hincl Hcov].
      split.
      * intros x Hx. apply Hincl, pushDistinct_incl, Hx.
      * intros h [<-|Hin] Hvis.
        -- exists fw. split; [apply Hincl, pushDistinct_In | now apply Hg].
        -- now apply Hcov.
Qed.

Lemma scanWindows_nonempty (rest : list string) (windows : list string) :
  Forall (fun g => g <> "") rest ->
  Forall (fun w => w <> "") windows ->
  Forall (fun w => w <> "") (scanWindows measureWidth maxWidthPx windows rest).
Proof.
  revert windows.
  induction rest as [|g rest IH]; intros windows Hrest Hwin; [exact Hwin|].
  cbn [scanWindows].
  destruct (growCandidate measureWidth maxWidthPx "" false (g :: rest))
    as [candidate reached].
  inversion Hrest as [|? ? Hg Hrest']; subst.
  assert (Hpush : Forall (fun w => w <> "")
                    (pushDistinct windows (finalWindowOf g candidate))).
  { apply Forall_forall. intros x Hx.
    apply pushDistinct_subset in Hx as [Hx|Hx].
    - revert x Hx. now apply Forall_forall.
    - subst x. now apply finalWindowOf_nonempty. }
  destruct reached; [exact Hpush | now apply IH].
Qed.

End FitterFacts.

Lemma buildFittingWindows_not_nil splitGraphemes measureWidth maxWidthPx text :
  buildFittingWindows splitGraphemes measureWidth maxWidthPx text <> [].
Proof.
  unfold buildFittingWindows.
  destruct (isEmpty (trim text)); [discriminate|].
  destruct (fits measureWidth maxWidthPx text); [discriminate|].
  destruct (scanWindows _ _ _ _); discriminate.
Qed.

(** C1 (as amended).  The fitter returns at least one window, and every
    grapheme of the text that does not begin with white space occurs in one of
    the returned windows.  Graphemes that begin with white space can be lost:
    [trimStart] removes them from the front of a window. *)
Theorem fitter_covers_visible_graphemes
  (splitGraphemes : string -> list string) (measureWidth : string -> Q)
  (maxWidthPx : Q) (text : string) :
  LawfulSegmenter splitGraphemes ->
  buildFittingWindows splitGraphemes measureWidth maxWidthPx text <> [] /\
  forall g, In g (splitGraphemes text) -> startsVisible g = true ->
    exists w, In w (buildFittingWindows splitGraphemes measureWidth maxWidthPx text)
              /\ occursIn g w.
Proof.
  intros Hseg. split; [apply buildFittingWindows_not_nil|].
  intros g Hin Hvis.
  assert (Htext : occursIn g text).
  { rewrite <- (segments_join text). now apply occursIn_join. }
  unfold buildFittingWindows.
  destruct (isEmpty (trim text)) eqn:Etrim.
  { apply trim_empty in Etrim.
    rewrite (occursIn_hasVisible _ _ Hvis Htext) in Etrim. discriminate. }
  destruct (fits measureWidth maxWidthPx text).
  { exists (trimStart text). split; [now left | now apply occursIn_trimStart]. }
  destruct (scanWindows_covers measureWidth maxWidthPx (splitGraphemes text) [])
    as [_ Hcov].
  destruct (Hcov g Hin Hvis) as (w & Hw & Hocc).
  exists w. split; [|exact Hocc].
  destruct (scanWindows measureWidth maxWidthPx [] (splitGraphemes text));
    [destruct Hw | exact Hw].
Qed.

Lemma fitter_covers_visible_graphemes_witness :
  LawfulSegmenter arrayFrom /\
  (buildFittingWindows arrayFrom fallbackMeasureWidth (72 # 1) "The quick brown fox" <> [] /\
   forall g, In g (arrayFrom "The quick brown fox") -> startsVisible g = true ->
     exists w, In w (buildFittingWindows arrayFrom fallbackMeasureWidth (72 # 1)
                       "The quick brown fox")
               /\ occursIn g w).
Proof.
  split; [exact arrayFrom_lawful|].
  apply (fitter_covers_visible_graphemes arrayFrom fallbackMeasureWidth (72 # 1)
           "The quick brown fox").
  exact arrayFrom_lawful.
Defined.

(** C1 as stated fails: of [" a"] only the window ["a"] is returned, and the
    grapheme [" "] occurs in no window. *)
Lemma fitter_loses_leading_space :
  buildFittingWindows arrayFrom fallbackMeasureWidth (72 # 1) " a" = ["a"] /\
  In " " (arrayFrom " a") /\
  ~ (forall g, In g (arrayFrom " a") ->
       exists w, In w (buildFittingWindows arrayFrom fallbackMeasureWidth (72 # 1) " a")
                 /\ occursIn g w).
Proof.
  split; [reflexivity|]. split; [now left|].
  intros H. destruct (H " " (or_introl eq_refl)) as (w & Hw & pre & post & E).
  destruct Hw as [<-|[]].
  destruct pre as [|c [|d pre]]; simpl in E; discriminate.
Qed.

(** C9.  When the text without its leading white space fits the width, the
    fitter returns exactly that one window. *)
Theorem fitter_single_window_when_fits
  (splitGraphemes : string -> list string) (measureWidth : string -> Q)
  (maxWidthPx : Q) (text : string) :
  (measureWidth (trimStart text) <= maxWidthPx)%Q ->
  buildFittingWindows splitGraphemes measureWidth maxWidthPx text = [trimStart text].
Proof.
  intros Hfit. unfold buildFittingWindows.
  destruct (isEmpty (trim text)) eqn:Etrim.
  - apply trim_empty, trimStart_empty in Etrim. now rewrite Etrim.
  - unfold fits. apply Qle_bool_iff in Hfit. now rewrite Hfit.
Qed.

Lemma fitter_single_window_when_fits_witness :
  (fallbackMeasureWidth (trimStart "  Hello") <= 72 # 1)%Q /\
  buildFittingWindows arrayFrom fallbackMeasureWidth (72 # 1) "  Hello" = ["Hello"].
Proof.
  assert (H : (fallbackMeasureWidth (trimStart "  Hello") <= 72 # 1)%Q)
    by (vm_compute; discriminate).
  split; [exact H|].
  exact (fitter_single_window_when_fits arrayFrom fallbackMeasureWidth (72 # 1)
           "  Hello" H).
Defined.

(** C10.  For a text with at least one character that is not white space no
    returned window is the empty string; a scanned window that trimming would
    empty is recorded untrimmed. *)
Theorem fitter_windows_nonempty
  (splitGraphemes : string -> list string) (measureWidth : string -> Q)
  (maxWidthPx : Q) (text : string) :
  LawfulSegmenter splitGraphemes ->
  hasVisible text = true ->
  Forall (fun w => w <> "")
         (buildFittingWindows splitGraphemes measureWidth maxWidthPx text) /\
  forall g candidate,
    let scanned := if isEmpty candidate then g else candidate in
    trimStart scanned = "" -> finalWindowOf g candidate = scanned.
Proof.
  intros Hseg Hvis. split.
  - assert (Htext : text <> "") by (intros ->; discriminate).
    unfold buildFittingWindows.
    destruct (isEmpty (trim text)) eqn:Etrim.
    { apply trim_empty in Etrim. congruence. }
    destruct (fits measureWidth maxWidthPx text).
    { constructor; [|constructor]. intros E. apply trimStart_empty in E. congruence. }
    pose proof (scanWindows_nonempty measureWidth maxWidthPx (splitGraphemes text) []) as H.
    destruct (scanWindows measureWidth maxWidthPx [] (splitGraphemes text)).
    + constructor; [exact Htext | constructor].
    + apply H; [|constructor].
      apply Forall_forall. intros g. apply segments_nonempty.
  - intros g candidate scanned E. unfold finalWindowOf, orElse.
    fold scanned. now rewrite E.
Qed.

Lemma fitter_windows_nonempty_witness :
  LawfulSegmenter arrayFrom /\ hasVisible " ab" = true /\
  buildFittingWindows arrayFrom fallbackMeasureWidth (4 # 1) " ab" = [" "; "a"; "b"] /\
  Forall (fun w => w <> "")
         (buildFittingWindows arrayFrom fallbackMeasureWidth (4 # 1) " ab").
Proof.
  split; [exact arrayFrom_lawful|]. split; [reflexivity|]. split; [reflexivity|].
  exact (proj1 (fitter_windows_nonempty arrayFrom fallbackMeasureWidth (4 # 1) " ab"
                  arrayFrom_lawful eq_refl)).
Defined.

(** ** Active-line resolver *)

Lemma lineAt_Some (lines : list LyricLine) (i : Z) (l : LyricLine) :
  lineAt lines i = Some l ->
  (0 <= i < Z.of_nat (length lines))%Z /\ nth_error lines (Z.to_nat i) = Some l.
Proof.
  unfold lineAt. destruct (Z.ltb_spec i 0) as [Hneg|Hpos]; [discriminate|].
  intros Hnth. split; [|exact Hnth].
  assert (Z.to_nat i < length lines)%nat by (apply nth_error_Some; congruence).
  lia.
Qed.

Lemma lineAt_in_range (lines : list LyricLine) (i : Z) :
  (0 <= i < Z.of_nat (length lines))%Z -> exists l, lineAt lines i = Some l.
Proof.
  intros Hi. unfold lineAt. destruct (Z.ltb_spec i 0); [lia|].
  destruct (nth_error lines (Z.to_nat i)) eqn:E; [eauto|].
  apply nth_error_None in E. lia.
Qed.

Lemma lineAt_In (lines : list LyricLine) (i : Z) (l : LyricLine) :
  lineAt lines i = Some l -> In l lines.
Proof. intros H. apply lineAt_Some in H as [_ H]. eapply nth_error_In, H. Qed.

Lemma In_lineAt (lines : list LyricLine) (l : LyricLine) :
  In l lines -> exists i, lineAt lines i = Some l.
Proof.
  intros H. apply In_nth_error in H as [k Hk]. exists (Z.of_nat k).
  unfold lineAt. destruct (Z.ltb_spec (Z.of_nat k) 0); [lia|].
  now rewrite Nat2Z.id.
Qed.

Lemma ascending_lineAt (lines : list LyricLine) :
  ascendingByTime lines ->
  forall i j a b, lineAt lines i = Some a -> lineAt lines j = Some b ->
    (i <= j)%Z -> (timeMs a <= timeMs b)%Z.
Proof.
  intros Hs. apply Sorted_StronglySorted in Hs; [|intros x y z; lia].
  intros i j a b Ha Hb Hij.
  apply lineAt_Some in Ha as [Hi Ha]. apply lineAt_Some in Hb as [Hj Hb].
  assert (Hn : (Z.to_nat i <= Z.to_nat j)%nat) by lia.
  clear Hi Hj Hij. revert Ha Hb Hn.
  generalize (Z.to_nat i) (Z.to_nat j). clear i j.
  induction Hs as [|x l Hs IH Hall]; intros i j Ha Hb Hij.
  - destruct i; discriminate.
  - destruct i as [|i], j as [|j]; simpl in *; try lia.
    + injection Ha as <-. injection Hb as <-. lia.
    + injection Ha as <-. apply nth_error_In in Hb.
      rewrite Forall_forall in Hall. now apply Hall.
    + apply (IH i j); auto. lia.
Qed.

Lemma startedBy_mono (t : Q) (a b : LyricLine) :
  (timeMs a <= timeMs b)%Z -> startedBy t b -> startedBy t a.
Proof.
  unfold startedBy. intros Hab Hb.
  apply Qle_trans with (inject_Z (timeMs b)); [|exact Hb].
  now rewrite <- Zle_Qle.
Qed.

(** The loop, started in a state where everything left of [lo] has started
    and nothing right of [hi] has, ends on the last line that has started. *)
Lemma searchLoop_spec (lines : list LyricLine) (currentMs : Q) (lo hi answer : Z) :
  ascendingByTime lines ->
  (0 <= lo)%Z -> (hi < Z.of_nat (length lines))%Z -> (lo <= hi + 1)%Z ->
  answer = (lo - 1)%Z ->
  (forall i l, lineAt lines i = Some l -> (i < lo)%Z -> startedBy currentMs l) ->
  (forall i l, lineAt lines i = Some l -> (hi < i)%Z -> ~ startedBy currentMs l) ->
  exists r, searchLoop lines currentMs lo hi answer = Some r /\
    (-1 <= r < Z.of_nat (length lines))%Z /\
    (forall i l, lineAt lines i = Some l -> (i <= r)%Z -> startedBy currentMs l) /\
    (forall i l, lineAt lines i = Some l -> (r < i)%Z -> ~ startedBy currentMs l).
Proof.
  intros Hsorted.
  funelim (searchLoop lines currentMs lo hi answer);
    intros Hlo Hhi Hlohi Hans Hleft Hright.
  - (* the loop is over *)
    match goal with H : (_ <=? _)%Z = false |- _ =>
      pose proof (proj1 (Z.leb_gt _ _) H) as Hgt end.
    exists answer. split; [reflexivity|]. subst answer.
    repeat split; try lia.
    + intros i l Hl Hi. apply (Hleft i l Hl). lia.
    + intros i l Hl Hi. apply (Hright i l Hl). lia.
  - (* lines[mid] is undefined: impossible inside the bounds *)
    exfalso. pose proof (proj1 (Z.leb_le _ _) Hle) as Hle'.
    assert (Hmid : (lo <= (lo + hi) / 2 <= hi)%Z)
      by (split; [apply Z.div_le_lower_bound | apply Z.div_le_upper_bound]; lia).
    destruct (lineAt_in_range lines ((lo + hi) / 2)) as [l Hl]; [lia|].
    congruence.
  - (* lines[mid].timeMs <= currentMs *)
    pose proof (proj1 (Z.leb_le _ _) Hle) as Hle'.
    assert (Hmid : (lo <= (lo + hi) / 2 <= hi)%Z)
      by (split; [apply Z.div_le_lower_bound | apply Z.div_le_upper_bound]; lia).
    match goal with IH : _ -> _ -> _ -> _ -> _ -> _ -> _ -> exists _, _ |- _ =>
      apply IH; clear IH end; try lia; auto.
    intros i l Hl Hi.
    match goal with H : Qle_bool _ _ = true |- _ => apply Qle_bool_iff in H;
      apply (startedBy_mono currentMs l line); [|exact H] end.
    match goal with H : lineAt _ _ = Some line |- _ =>
      apply (ascending_lineAt lines Hsorted i _ l line Hl H) end. lia.
  - (* lines[mid].timeMs > currentMs *)
    pose proof (proj1 (Z.leb_le _ _) Hle) as Hle'.
    assert (Hmid : (lo <= (lo + hi) / 2 <= hi)%Z)
      by (split; [apply Z.div_le_lower_bound | apply Z.div_le_upper_bound]; lia).
    match goal with IH : _ -> _ -> _ -> _ -> _ -> _ -> _ -> exists _, _ |- _ =>
      apply IH; clear IH end; try lia; auto.
    intros i l Hl Hi Hstarted.
    match goal with H : Qle_bool _ _ = false |- _ =>
      assert (Hn : ~ startedBy currentMs line)
        by (unfold startedBy; rewrite <- Qle_bool_iff; congruence) end.
    apply Hn. apply (startedBy_mono currentMs line l); [|exact Hstarted].
    match goal with H : lineAt _ _ = Some line |- _ =>
      apply (ascending_lineAt lines Hsorted _ i line l H Hl) end. lia.
Qed.

(** C2.  On a timeline in ascending order of [timeMs] the resolver returns
    (without raising) [-1] when no line has started by [currentMs], in
    particular on the empty timeline, and otherwise the greatest index whose
    line has started; a line whose [timeMs] equals [currentMs] has started, so
    at an exact boundary the line of that time is the one selected. *)
Theorem activeLyricIndex_greatest_started (lines : list LyricLine) (currentMs : Q) :
  ascendingByTime lines ->
  exists r, activeLyricIndex lines currentMs = Some r /\
    (lines = [] -> r = (-1)%Z) /\
    ((forall l, In l lines -> ~ startedBy currentMs l) -> r = (-1)%Z) /\
    ((exists l, In l lines /\ startedBy currentMs l) ->
       (exists l, lineAt lines r = Some l /\ startedBy currentMs l) /\
       (forall i l, lineAt lines i = Some l -> startedBy currentMs l -> (i <= r)%Z)) /\
    (forall i l, lineAt lines i = Some l -> (inject_Z (timeMs l) == currentMs)%Q ->
       (i <= r)%Z /\
       exists l', lineAt lines r = Some l' /\ (inject_Z (timeMs l') == currentMs)%Q).
Proof.
  intros Hsorted.
  assert (Hloop : exists r, activeLyricIndex lines currentMs = Some r /\
    (-1 <= r < Z.of_nat (length lines))%Z /\
    (forall i l, lineAt lines i = Some l -> (i <= r)%Z -> startedBy currentMs l) /\
    (forall i l, lineAt lines i = Some l -> (r < i)%Z -> ~ startedBy currentMs l)).
  { unfold activeLyricIndex. destruct lines as [|l0 rest] eqn:E.
    - exists (-1)%Z. split; [reflexivity|]. simpl. repeat split; try lia.
      + intros i l H. apply lineAt_In in H. destruct H.
      + intros i l H. apply lineAt_In in H. destruct H.
    - rewrite <- E in *. apply searchLoop_spec; auto; try lia.
      + intros i l H Hi. apply lineAt_Some in H. lia.
      + intros i l H Hi. apply lineAt_Some in H. lia. }
  destruct Hloop as (r & Hr & Hrange & Hbelow & Habove).
  assert (Hlast : (exists l, In l lines /\ startedBy currentMs l) ->
       (exists l, lineAt lines r = Some l /\ startedBy currentMs l) /\
       (forall i l, lineAt lines i = Some l -> startedBy currentMs l -> (i <= r)%Z)).
  { intros (l & Hin & Hl).
    assert (Hmax : forall i l, lineAt lines i = Some l -> startedBy currentMs l -> (i <= r)%Z).
    { intros i x Hx Hs. destruct (Z.le_gt_cases i r) as [Hle|Hgt]; [exact Hle|].
      exfalso. apply (Habove i x Hx); [lia | exact Hs]. }
    split; [|exact Hmax].
    destruct (In_lineAt _ _ Hin) as [i Hi].
    pose proof (Hmax i l Hi Hl) as Hir.
    apply lineAt_Some in Hi as Hi'.
    destruct (lineAt_in_range lines r) as [x Hx]; [lia|].
    exists x. split; [exact Hx|]. apply (Hbelow r x Hx). lia. }
  exists r. split; [exact Hr|].
  split; [intros ->; simpl in Hrange; lia|].
  split.
  { intros Hnone. destruct (Z.eq_dec r (-1)) as [E|E]; [exact E|].
    exfalso. destruct (lineAt_in_range lines r) as [x Hx]; [lia|].
    apply (Hnone x (lineAt_In _ _ _ Hx)). apply (Hbelow r x Hx). lia. }
  split; [exact Hlast|].
  intros i l Hl Heq.
  assert (Hstarted : startedBy currentMs l)
    by (unfold startedBy; rewrite Heq; apply Qle_refl).
  destruct (Hlast (ex_intro _ l (conj (lineAt_In _ _ _ Hl) Hstarted)))
    as [(x & Hx & Hsx) Hmax].
  pose proof (Hmax i l Hl Hstarted) as Hir.
  split; [exact Hir|].
  exists x. split; [exact Hx|].
  apply Qle_antisym; [exact Hsx|].
  rewrite <- Heq. rewrite <- Zle_Qle.
  exact (ascending_lineAt lines Hsorted i r l x Hl Hx Hir).
Qed.

Lemma activeLyricIndex_greatest_started_witness :
  let lines := [mkLyricLine 12500 "Hello"; mkLyricLine 15000 "World"] in
  ascendingByTime lines /\
  activeLyricIndex lines (13000 # 1) = Some 0%Z /\
  activeLyricIndex lines (11000 # 1) = Some (-1)%Z /\
  activeLyricIndex lines (15000 # 1) = Some 1%Z /\
  exists r, activeLyricIndex lines (15000 # 1) = Some r /\
    forall i l, lineAt lines i = Some l -> startedBy (15000 # 1) l -> (i <= r)%Z.
Proof.
  intros lines.
  assert (Hs : ascendingByTime lines).
  { repeat constructor. simpl. lia. }
  split; [exact Hs|]. repeat (split; [reflexivity|]).
  destruct (activeLyricIndex_greatest_started lines (15000 # 1) Hs)
    as (r & Hr & _ & _ & Hlast & _).
  exists r. split; [exact Hr|].
  apply Hlast. exists (mkLyricLine 12500 "Hello").
  split; [now left | unfold startedBy; simpl; vm_compute; discriminate].
Defined.

(** ** Timeline parser *)

Lemma length_append (a b : string) :
  String.length (a ++ b) = (String.length a + String.length b)%nat.
Proof. induction a as [|c a IH]; simpl; [reflexivity | now rewrite IH]. Qed.

Lemma takeDigits_spec (max : nat) (s ds after : string) :
  takeDigits max s = (ds, after) ->
  s = ds ++ after /\ allDigits ds = true /\ (String.length ds <= max)%nat.
Proof.
  revert s ds after. induction max as [|k IH]; intros s ds after.
  - destruct s; simpl; intros [= <- <-]; auto.
  - destruct s as [|c rest]; simpl.
    + intros [= <- <-]. simpl. repeat split; lia.
    + destruct (isDigit c) eqn:Ec.
      * destruct (takeDigits k rest) as [ds' after'] eqn:E.
        intros [= <- <-]. destruct (IH _ _ _ E) as (-> & Hd & Hl).
        simpl. rewrite Ec, Hd. repeat split; lia.
      * intros [= <- <-]. simpl. repeat split; lia.
Qed.

Lemma takeDigits_complete (max : nat) (ds after : string) :
  allDigits ds = true -> (String.length ds <= max)%nat ->
  startsWithDigit after = false ->
  takeDigits max (ds ++ after) = (ds, after).
Proof.
  revert ds. induction max as [|k IH]; intros ds Hd Hl Hafter.
  - destruct ds; simpl in *; [|lia]. now destruct after.
  - destruct ds as [|c ds]; simpl in *.
    + destruct after as [|c rest]; [reflexivity|].
      simpl in Hafter. now rewrite Hafter.
    + apply andb_true_iff in Hd as [Hc Hd]. rewrite Hc.
      rewrite IH; auto. lia.
Qed.

(** The matcher accepts exactly the texts that begin with a well-formed
    tag. *)
Lemma matchTimestamp_sound (s : string) (m : TimestampMatch) (after : string) :
  matchTimestamp s = Some (m, after) ->
  wellFormedTag m /\ s = tagText m ++ after.
Proof.
  unfold matchTimestamp, wellFormedTag, tagText.
  destruct (expectChar "[" s) as [s1|] eqn:E1; [|discriminate].
  apply expectChar_Some in E1. subst s.
  destruct (takeDigits 2 s1) as [mm s2] eqn:T1.
  apply takeDigits_spec in T1 as (-> & Hmm & Lmm).
  destruct (isEmpty mm) eqn:Emm; [discriminate|].
  destruct (expectChar ":" s2) as [s3|] eqn:E2; [|discriminate].
  apply expectChar_Some in E2. subst s2.
  destruct (takeDigits 2 s3) as [ss s4] eqn:T2.
  apply takeDigits_spec in T2 as (-> & Hss & Lss).
  destruct (Nat.eqb_spec (String.length ss) 2) as [Lss2|]; [|discriminate].
  assert (Lmm1 : (1 <= String.length mm)%nat) by (destruct mm; [discriminate | simpl; lia]).
  destruct (expectChar "." s4) as [s5|] eqn:E3.
  - apply expectChar_Some in E3. subst s4.
    destruct (takeDigits 3 s5) as [fff s6] eqn:T3.
    apply takeDigits_spec in T3 as (-> & Hf & Lf).
    destruct (isEmpty fff) eqn:Ef; [discriminate|].
    destruct (expectChar "]" s6) as [after'|] eqn:E4; [|discriminate].
    apply expectChar_Some in E4. subst s6.
    intros [= <- <-]. simpl.
    assert (1 <= String.length fff)%nat by (destruct fff; [discriminate | simpl; lia]).
    repeat split; auto.
    repeat (progress (rewrite ?append_assoc; simpl)). reflexivity.
  - destruct (expectChar "]" s4) as [after'|] eqn:E4; [|discriminate].
    apply expectChar_Some in E4. subst s4.
    intros [= <- <-]. simpl.
    repeat split; auto.
    repeat (progress (rewrite ?append_assoc; simpl)). reflexivity.
Qed.

Lemma tagText_append (m : TimestampMatch) (after : string) :
  tagText m ++ after =
  String "[" (minutesGroup m ++ String ":" (secondsGroup m ++
    match fractionGroup m with
    | Some f => String "." (f ++ String "]" after)
    | None => String "]" after
    end)).
Proof.
  unfold tagText. destruct (fractionGroup m);
    repeat (progress (rewrite ?append_assoc; simpl)); reflexivity.
Qed.

Lemma matchTimestamp_complete (m : TimestampMatch) (after : string) :
  wellFormedTag m -> matchTimestamp (tagText m ++ after) = Some (m, after).
Proof.
  rewrite tagText_append. destruct m as [mm ss frac].
  unfold wellFormedTag. cbn [minutesGroup secondsGroup fractionGroup].
  intros (Hmm & Lmm & Hss & Lss & Hfrac).
  assert (Emm : isEmpty mm = false) by (destruct mm; [simpl in Lmm; lia | reflexivity]).
  unfold matchTimestamp. cbn [expectChar]. rewrite Ascii.eqb_refl.
  rewrite takeDigits_complete by (auto; lia).
  rewrite Emm. cbn [expectChar]. rewrite Ascii.eqb_refl.
  destruct frac as [fff|].
  - destruct Hfrac as [Hf Lf].
    assert (Ef : isEmpty fff = false) by (destruct fff; [simpl in Lf; lia | reflexivity]).
    rewrite takeDigits_complete by (auto; lia).
    rewrite Lss. cbn [Nat.eqb expectChar]. rewrite Ascii.eqb_refl.
    rewrite takeDigits_complete by (auto; lia).
    rewrite Ef. cbn [expectChar]. rewrite Ascii.eqb_refl. reflexivity.
  - rewrite takeDigits_complete by (auto; lia).
    rewrite Lss. cbn [Nat.eqb expectChar].
    change (Ascii.eqb "]" ".") with false. cbv iota.
    rewrite Ascii.eqb_refl. reflexivity.
Qed.

(** Every match the loop collects is a well-formed tag standing in the
    line. *)
Lemma execAll_sound (line : string) (m : TimestampMatch) :
  In m (execAll line) ->
  wellFormedTag m /\ exists pre post, line = pre ++ tagText m ++ post.
Proof.
  funelim (execAll line); clear Heqcall.
  - intros [].
  - match goal with H : matchTimestamp _ = Some _ |- _ =>
      destruct (matchTimestamp_sound _ _ _ H) as [Hwf Htext] end.
    intros [<-|Hin].
    + split; [exact Hwf|]. exists "", after. exact Htext.
    + match goal with IH : forall _, In _ _ -> _ |- _ =>
        destruct (IH _ Hin) as (Hwf' & pre & post & Hafter) end.
      split; [exact Hwf'|].
      exists (tagText m ++ pre), post.
      rewrite Htext, Hafter. now rewrite !append_assoc.
  - intros Hin.
    match goal with IH : forall _, In _ _ -> _ |- _ =>
      destruct (IH _ Hin) as (Hwf & pre & post & ->) end.
    split; [exact Hwf|]. exists (String c pre), post. reflexivity.
Qed.

Lemma occursIn_nil (w : string) : occursIn "" w.
Proof. exists "", w. reflexivity. Qed.

Lemma occursIn_cons (g : string) (c : ascii) (w : string) :
  occursIn g w -> occursIn g (String c w).
Proof. intros (pre & post & ->). exists (String c pre), post. reflexivity. Qed.

Lemma occursIn_trans (a b c : string) : occursIn a b -> occursIn b c -> occursIn a c.
Proof.
  intros (p1 & q1 & ->) (p2 & q2 & ->).
  exists (p2 ++ p1), (q1 ++ q2). now rewrite !append_assoc.
Qed.

(** The first line is a prefix of the text, the others stand inside it. *)
Lemma splitLinesFrom_occurs (text : string) :
  (exists post, text = fst (splitLinesFrom text) ++ post) /\
  forall l, In l (snd (splitLinesFrom text)) -> occursIn l text.
Proof.
  induction text as [|c rest [[post Hpre] Hin]].
  - split; [exists ""; reflexivity | intros l []].
  - cbn [splitLinesFrom].
    destruct (Ascii.eqb c LF).
    { destruct (splitLinesFrom rest) as [line lines]. simpl in *.
      split; [exists (String c rest); reflexivity|].
      intros l [<-|Hl]; apply occursIn_cons; [exists "", post; exact Hpre | auto]. }
    destruct (Ascii.eqb c CR && _) eqn:Ecr.
    { apply andb_true_iff in Ecr as [_ Hlf].
      destruct rest as [|d rest']; [discriminate|].
      cbn [splitLinesFrom] in *. rewrite Hlf in *.
      destruct (splitLinesFrom rest') as [line lines]. simpl in *.
      split; [exists (String c (String d rest')); reflexivity|].
      intros l Hl. apply occursIn_cons; auto. }
    destruct (splitLinesFrom rest) as [line lines]. simpl in *.
    split; [exists post; now rewrite <- Hpre |].
    intros l Hl. apply occursIn_cons; auto.
Qed.

Lemma splitLines_occurs (text line : string) :
  In line (splitLines text) -> occursIn line text.
Proof.
  unfold splitLines. destruct (splitLinesFrom_occurs text) as [[post Hpre] Hin].
  destruct (splitLinesFrom text) as [l ls]. simpl in *.
  intros [<-|H]; [exists "", post; exact Hpre | now apply Hin].
Qed.

Lemma byTime_le (a b : LyricLine) :
  (byTime a b <=? 0)%Z = true <-> (timeMs a <= timeMs b)%Z.
Proof. unfold byTime. rewrite Z.leb_le. lia. Qed.

Lemma insertSorted_perm (x : LyricLine) (l : list LyricLine) :
  Permutation (x :: l) (insertSorted byTime x l).
Proof.
  induction l as [|y l IH]; simpl; [reflexivity|].
  destruct (byTime x y <=? 0)%Z; [reflexivity|].
  rewrite perm_swap. now constructor.
Qed.

Lemma sort_perm (l : list LyricLine) : Permutation l (sort byTime l).
Proof.
  induction l as [|x l IH]; simpl; [constructor|].
  rewrite <- insertSorted_perm. now constructor.
Qed.

Lemma insertSorted_ascending (x : LyricLine) (l : list LyricLine) :
  ascendingByTime l -> ascendingByTime (insertSorted byTime x l).
Proof.
  unfold ascendingByTime.
  induction l as [|y l IH]; intros Hs; simpl.
  - repeat constructor.
  - destruct (byTime x y <=? 0)%Z eqn:E.
    + apply byTime_le in E. constructor; [exact Hs | now constructor].
    + assert (Hyx : (timeMs y <= timeMs x)%Z).
      { destruct (Z.le_gt_cases (timeMs x) (timeMs y)) as [H|H]; [|lia].
        apply byTime_le in H. congruence. }
      inversion Hs as [|? ? Hl Hhd]; subst.
      constructor; [now apply IH|].
      destruct l as [|z l]; simpl; [now constructor|].
      destruct (byTime x z <=? 0)%Z; constructor; [exact Hyx|].
      now inversion Hhd.
Qed.

Lemma sort_ascending (l : list LyricLine) : ascendingByTime (sort byTime l).
Proof.
  induction l as [|x l IH]; simpl; [constructor|].
  now apply insertSorted_ascending.
Qed.

(** Insertion puts a line in front of the first line that is not earlier, so
    behind no line of its own time. *)
Lemma insertSorted_atTime (t : Z) (x : LyricLine) (l : list LyricLine) :
  filter (atTime t) (insertSorted byTime x l) = filter (atTime t) (x :: l).
Proof.
  induction l as [|y l IH]; simpl; [reflexivity|].
  destruct (byTime x y <=? 0)%Z eqn:E; [reflexivity|].
  simpl in *. rewrite IH.
  unfold atTime.
  destruct (Z.eqb_spec (timeMs y) t) as [Hy|Hy];
    destruct (Z.eqb_spec (timeMs x) t) as [Hx|Hx]; try reflexivity.
  exfalso. assert (H : (timeMs x <= timeMs y)%Z) by lia.
  apply byTime_le in H. congruence.
Qed.

Lemma sort_atTime (t : Z) (l : list LyricLine) :
  filter (atTime t) (sort byTime l) = filter (atTime t) l.
Proof.
  induction l as [|x l IH]; simpl; [reflexivity|].
  rewrite insertSorted_atTime. simpl. now rewrite IH.
Qed.

(** There is only one stable sorted rearrangement: whatever algorithm the
    host uses for [sort], it returns the list [sort byTime] computes. *)
Lemma ascending_head_least (x : LyricLine) (l : list LyricLine) :
  ascendingByTime (x :: l) -> forall y, In y l -> (timeMs x <= timeMs y)%Z.
Proof.
  intros Hs. apply Sorted_StronglySorted in Hs; [|intros a b c; lia].
  inversion Hs as [|? ? _ Hall]; subst.
  now apply Forall_forall.
Qed.

Lemma stable_sort_unique (l1 l2 : list LyricLine) :
  ascendingByTime l1 -> ascendingByTime l2 ->
  (forall t, filter (atTime t) l1 = filter (atTime t) l2) ->
  l1 = l2.
Proof.
  revert l2. induction l1 as [|x l1 IH]; intros l2 H1 H2 Hf.
  - destruct l2 as [|y l2]; [reflexivity|].
    specialize (Hf (timeMs y)). simpl in Hf. unfold atTime in Hf.
    rewrite Z.eqb_refl in Hf. discriminate.
  - destruct l2 as [|y l2].
    { specialize (Hf (timeMs x)). simpl in Hf. unfold atTime in Hf.
      rewrite Z.eqb_refl in Hf. discriminate. }
    assert (Hxy : (timeMs y <= timeMs x)%Z).
    { assert (Hin : In x (filter (atTime (timeMs x)) (y :: l2))).
      { rewrite <- Hf. simpl. unfold atTime at 1. rewrite Z.eqb_refl. now left. }
      apply filter_In in Hin as [[<-|Hin] _]; [lia|].
      now apply (ascending_head_least y l2). }
    assert (Hyx : (timeMs x <= timeMs y)%Z).
    { assert (Hin : In y (filter (atTime (timeMs y)) (x :: l1))).
      { rewrite Hf. simpl. unfold atTime at 1. rewrite Z.eqb_refl. now left. }
      apply filter_In in Hin as [[<-|Hin] _]; [lia|].
      now apply (ascending_head_least x l1). }
    assert (Heq : x = y).
    { specialize (Hf (timeMs x)). simpl in Hf. unfold atTime in Hf.
      rewrite Z.eqb_refl in Hf.
      replace (timeMs y =? timeMs x)%Z with true in Hf
        by (symmetry; apply Z.eqb_eq; lia).
      now injection Hf. }
    subst y. f_equal.
    apply IH.
    + now apply Sorted_inv in H1.
    + now apply Sorted_inv in H2.
    + intros t. specialize (Hf t). simpl in Hf.
      destruct (atTime t x); [now injection Hf | exact Hf].
Qed.

(** C5.  The parsed timeline is in ascending order of [timeMs]: every entry is
    at most the next one.  It holds exactly the emitted entries, and the
    entries of one [timeMs] keep the order in which they were emitted; no
    other arrangement of the emitted entries has these properties. *)
Theorem parseLrc_sorted_stable (text : string) :
  ascendingByTime (parseLrc text) /\
  (forall i a b, lineAt (parseLrc text) i = Some a ->
                 lineAt (parseLrc text) (i + 1) = Some b ->
                 (timeMs a <= timeMs b)%Z) /\
  Permutation (emitted text) (parseLrc text) /\
  (forall t, filter (atTime t) (parseLrc text) = filter (atTime t) (emitted text)) /\
  (forall timeline,
     ascendingByTime timeline ->
     (forall t, filter (atTime t) timeline = filter (atTime t) (emitted text)) ->
     timeline = parseLrc text).
Proof.
  unfold parseLrc. split; [apply sort_ascending|].
  split.
  { intros i a b Ha Hb.
    apply (ascending_lineAt _ (sort_ascending (emitted text)) i (i + 1) a b Ha Hb). lia. }
  split; [apply sort_perm|].
  split; [intros t; apply sort_atTime|].
  intros timeline Hasc Hstable.
  apply stable_sort_unique; [exact Hasc | apply sort_ascending|].
  intros t. rewrite sort_atTime. apply Hstable.
Qed.

Example parseLrc_example :
  parseLrc "[00:12.50]Hello
[00:15.00]World" = [mkLyricLine 12500 "Hello"; mkLyricLine 15000 "World"].
Proof. vm_compute. reflexivity. Qed.

Example parseLrc_ties :
  parseLrc "[00:20][00:05]chorus
[00:05]verse
[00:20]end"
  = [mkLyricLine 5000 "chorus"; mkLyricLine 5000 "verse";
     mkLyricLine 20000 "chorus"; mkLyricLine 20000 "end"].
Proof. vm_compute. reflexivity. Qed.

Lemma lineEntries_from_match (line : string) (e : LyricLine) :
  In e (lineEntries line) ->
  exists m, In m (execAll line) /\ timeMs e = parseTimestampMs m.
Proof.
  unfold lineEntries.
  destruct (map parseTimestampMs (execAll line)) as [|t ts] eqn:E; [intros []|].
  rewrite <- E. clear E. rewrite map_map. intros H.
  apply in_map_iff in H as (m & <- & Hm). exists m. split; [exact Hm | reflexivity].
Qed.

(** C6 (as amended).  A fragment that is not of the form: opening bracket, one
    or two digits, colon, two digits, optionally a dot and one to three digits,
    closing bracket, is not matched, and yields no entry: every entry of the
    parsed timeline comes from a fragment of that form standing in the text,
    and a line without such a fragment yields nothing.  The digits are not
    range-checked.  ([parseLrc] is a total function: no input makes it fail.) *)
Theorem parseLrc_entries_from_wellformed_tags :
  (forall s, (forall m after, wellFormedTag m -> s <> tagText m ++ after) ->
             matchTimestamp s = None) /\
  (forall line, (forall m, wellFormedTag m -> ~ occursIn (tagText m) line) ->
                lineEntries line = []) /\
  (forall text e, In e (parseLrc text) ->
     exists m, wellFormedTag m /\ occursIn (tagText m) text /\
               timeMs e = parseTimestampMs m).
Proof.
  split; [|split].
  - intros s Hno. destruct (matchTimestamp s) as [[m after]|] eqn:E; [|reflexivity].
    apply matchTimestamp_sound in E as [Hwf Hs]. destruct (Hno m after Hwf Hs).
  - intros line Hno. unfold lineEntries.
    destruct (execAll line) as [|m ms] eqn:E; [reflexivity|].
    destruct (execAll_sound line m) as (Hwf & pre & post & Hline).
    { rewrite E. now left. }
    destruct (Hno m Hwf). now exists pre, post.
  - intros text e He.
    apply (Permutation_in e (Permutation_sym (sort_perm (emitted text)))) in He.
    apply in_flat_map in He as (line & Hline & He).
    apply lineEntries_from_match in He as (m & Hm & Htime).
    apply execAll_sound in Hm as (Hwf & pre & post & Hocc).
    exists m. split; [exact Hwf|]. split; [|exact Htime].
    apply occursIn_trans with line; [now exists pre, post | now apply splitLines_occurs].
Qed.

Lemma parseLrc_entries_from_wellformed_tags_witness :
  lineEntries "[ab:cd] la [1:2] la [123:45] [00:00.1234]" = [] /\
  exists m, wellFormedTag m /\ occursIn (tagText m) "[01:02.5]la" /\
            timeMs (mkLyricLine 62500 "la") = parseTimestampMs m.
Proof.
  split; [reflexivity|].
  apply (proj2 (proj2 parseLrc_entries_from_wellformed_tags) "[01:02.5]la").
  now left.
Defined.

(** C6 as stated fails for out-of-range fields: [99] is no count of seconds
    within a minute, yet the tag is matched and yields an entry. *)
Lemma parseLrc_accepts_seconds_out_of_range :
  (59 < Number "99")%Z /\
  matchTimestamp "[00:99]la" = Some (mkMatch "00" "99" None, "la") /\
  parseLrc "[00:99]la" = [mkLyricLine 99000 "la"].
Proof. repeat split. Qed.

(** ** Scroll progress calculator *)



(** ** Doubles: the order of the numbers *)

Lemma compare_cont_Eq (m1 m2 : positive) :
  Pos.compare_cont Eq m1 m2 = (Zpos m1 ?= Zpos m2)%Z.
Proof. reflexivity. Qed.

Ltac key_cases :=
  split;
  [ let Hc := fresh "Hc" in
    intros Hc; try discriminate Hc; repeat split; try discriminate; lia
  | let H1 := fresh "Hn" in let H2 := fresh "Hn" in let H3 := fresh "Hk" in
    intros (H1 & H2 & H3); try congruence; try reflexivity; exfalso; lia ].

Lemma SFcompare_Lt (x y : spec_float) :
  SFcompare x y = Some Lt <-> (SFnotNaN x /\ SFnotNaN y /\ keyLt (SFkey x) (SFkey y)).
Proof.
  unfold SFnotNaN.
  destruct x as [sx|sx| |sx mx ex], y as [sy|sy| |sy my ey];
    try destruct sx; try destruct sy; cbn -[Z.compare Z.lt];
    try key_cases.
  - rewrite compare_cont_Eq.
    destruct (Z.compare_spec ex ey), (Z.compare_spec (Zpos mx) (Zpos my)); cbn;
      key_cases.
  - rewrite compare_cont_Eq.
    destruct (Z.compare_spec ex ey), (Z.compare_spec (Zpos mx) (Zpos my)); cbn;
      key_cases.
Qed.

Lemma SFcompare_Eq (x y : spec_float) :
  SFcompare x y = Some Eq <-> (SFnotNaN x /\ SFnotNaN y /\ SFkey x = SFkey y).
Proof.
  unfold SFnotNaN.
  destruct x as [sx|sx| |sx mx ex], y as [sy|sy| |sy my ey];
    try destruct sx; try destruct sy; cbn -[Z.compare Z.lt];
    try (split; [ intros Hc; try discriminate Hc; repeat split; discriminate || reflexivity
                | intros (H1 & H2 & H3); try congruence; try reflexivity; discriminate H3 ]).
  - rewrite compare_cont_Eq.
    destruct (Z.compare_spec ex ey), (Z.compare_spec (Zpos mx) (Zpos my)); cbn;
      (split; [ intros Hc; try discriminate Hc; repeat split; try discriminate; congruence
              | intros (H1 & H2 & H3); try reflexivity; exfalso; injection H3; intros; lia ]).
  - rewrite compare_cont_Eq.
    destruct (Z.compare_spec ex ey), (Z.compare_spec (Zpos mx) (Zpos my)); cbn;
      (split; [ intros Hc; try discriminate Hc; repeat split; try discriminate; congruence
              | intros (H1 & H2 & H3); try reflexivity; exfalso; injection H3; intros; lia ]).
Qed.

Lemma SFleb_key (x y : spec_float) :
  SFleb x y = true <-> (SFnotNaN x /\ SFnotNaN y /\ keyLe (SFkey x) (SFkey y)).
Proof.
  unfold SFleb, keyLe.
  pose proof (SFcompare_Lt x y) as HL. pose proof (SFcompare_Eq x y) as HE.
  destruct (SFcompare x y) as [[| |]|]; split; intros H; try reflexivity; try discriminate H.
  - destruct (proj1 HE eq_refl) as (A & B & C). auto.
  - destruct (proj1 HL eq_refl) as (A & B & C). auto.
  - destruct H as (A & B & [C|C]).
    + assert (D : Some Gt = Some Lt) by (apply HL; auto). discriminate D.
    + assert (D : Some Gt = Some Eq) by (apply HE; auto). discriminate D.
  - destruct H as (A & B & [C|C]).
    + assert (D : @None comparison = Some Lt) by (apply HL; auto). discriminate D.
    + assert (D : @None comparison = Some Eq) by (apply HE; auto). discriminate D.
Qed.

Lemma SFltb_key (x y : spec_float) :
  SFltb x y = true <-> (SFnotNaN x /\ SFnotNaN y /\ keyLt (SFkey x) (SFkey y)).
Proof.
  unfold SFltb. pose proof (SFcompare_Lt x y) as [H1 H2].
  destruct (SFcompare x y) as [[| |]|]; split; intros H; try reflexivity;
    try discriminate H; auto; apply H2 in H; discriminate H.
Qed.

Lemma keyLt_trans (a b c : Z * Z * Z) : keyLt a b -> keyLt b c -> keyLt a c.
Proof.
  destruct a as [[a1 a2] a3], b as [[b1 b2] b3], c as [[c1 c2] c3]. unfold keyLt. lia.
Qed.

Lemma keyLe_trans (a b c : Z * Z * Z) : keyLe a b -> keyLe b c -> keyLe a c.
Proof.
  unfold keyLe. intros [H1|H1] [H2|H2]; subst; auto.
  left. eapply keyLt_trans; eauto.
Qed.

Lemma keyLt_irrefl (a b : Z * Z * Z) : keyLt a b -> keyLe b a -> False.
Proof.
  destruct a as [[a1 a2] a3], b as [[b1 b2] b3]. unfold keyLe, keyLt.
  intros H [H'|H']; [lia | injection H'; intros; lia].
Qed.

Lemma keyLt_total (a b : Z * Z * Z) : keyLt a b \/ keyLe b a.
Proof.
  destruct a as [[a1 a2] a3], b as [[b1 b2] b3]. unfold keyLe, keyLt.
  destruct (Z.lt_trichotomy a1 b1) as [H|[H|H]]; [lia| |lia].
  destruct (Z.lt_trichotomy a2 b2) as [H2|[H2|H2]]; [lia| |lia].
  destruct (Z.lt_trichotomy a3 b3) as [H3|[H3|H3]]; [lia| |lia].
  right. right. congruence.
Qed.

Lemma SFcompare_refl (x : spec_float) : SFnotNaN x -> SFcompare x x = Some Eq.
Proof. intros H. apply SFcompare_Eq. auto. Qed.

Lemma isNaN_true (x : float) : Binary64.isNaN x = true <-> Prim2SF x = S754_nan.
Proof.
  unfold Binary64.isNaN. rewrite FloatAxioms.eqb_spec. unfold SFeqb. split.
  - intros H. destruct (Prim2SF x) eqn:E; try reflexivity;
      rewrite SFcompare_refl in H by discriminate; discriminate H.
  - intros ->. reflexivity.
Qed.

Lemma isNaN_false (x : float) : Binary64.isNaN x = false <-> SFnotNaN (Prim2SF x).
Proof.
  unfold SFnotNaN. pose proof (isNaN_true x) as [H1 H2].
  destruct (Binary64.isNaN x); split; intros H; try congruence.
  - exfalso. apply H. auto.
  - intros E. apply H2 in E. discriminate E.
Qed.

Lemma isNaN_eq (x : float) : Binary64.isNaN x = true -> x = nan.
Proof. intros H. apply Prim2SF_inj. rewrite (proj1 (isNaN_true x) H). reflexivity. Qed.

Lemma double_leb_true (x y : float) :
  (x <=? y)%float = true <->
  (Binary64.isNaN x = false /\ Binary64.isNaN y = false /\ keyLe (doubleKey x) (doubleKey y)).
Proof.
  rewrite FloatAxioms.leb_spec. unfold doubleKey.
  pose proof (SFleb_key (Prim2SF x) (Prim2SF y)) as [H1 H2].
  pose proof (isNaN_false x) as [A1 A2]. pose proof (isNaN_false y) as [B1 B2].
  split; [intros H; apply H1 in H | intros H; apply H2]; tauto.
Qed.

Lemma double_ltb_true (x y : float) :
  (x <? y)%float = true <->
  (Binary64.isNaN x = false /\ Binary64.isNaN y = false /\ keyLt (doubleKey x) (doubleKey y)).
Proof.
  rewrite FloatAxioms.ltb_spec. unfold doubleKey.
  pose proof (SFltb_key (Prim2SF x) (Prim2SF y)) as [H1 H2].
  pose proof (isNaN_false x) as [A1 A2]. pose proof (isNaN_false y) as [B1 B2].
  split; [intros H; apply H1 in H | intros H; apply H2]; tauto.
Qed.

Lemma double_leb_false (x y : float) :
  (x <=? y)%float = false <->
  (Binary64.isNaN x = true \/ Binary64.isNaN y = true \/ keyLt (doubleKey y) (doubleKey x)).
Proof.
  split.
  - intros H. destruct (Binary64.isNaN x) eqn:Ex; [auto|]. destruct (Binary64.isNaN y) eqn:Ey; [auto|].
    right; right. destruct (keyLt_total (doubleKey y) (doubleKey x)) as [Hk|Hk]; [exact Hk|].
    assert (T : (x <=? y)%float = true) by (apply double_leb_true; auto). congruence.
  - intros H. destruct (x <=? y)%float eqn:E; [|reflexivity].
    apply double_leb_true in E as (A & B & C).
    destruct H as [H|[H|H]]; try congruence.
    exfalso. eapply keyLt_irrefl; eauto.
Qed.

Lemma double_ltb_false (x y : float) :
  (x <? y)%float = false <->
  (Binary64.isNaN x = true \/ Binary64.isNaN y = true \/ keyLe (doubleKey y) (doubleKey x)).
Proof.
  split.
  - intros H. destruct (Binary64.isNaN x) eqn:Ex; [auto|]. destruct (Binary64.isNaN y) eqn:Ey; [auto|].
    right; right. destruct (keyLt_total (doubleKey x) (doubleKey y)) as [Hk|Hk]; [|exact Hk].
    assert (T : (x <? y)%float = true) by (apply double_ltb_true; auto). congruence.
  - intros H. destruct (x <? y)%float eqn:E; [|reflexivity].
    apply double_ltb_true in E as (A & B & C).
    destruct H as [H|[H|H]]; try congruence.
    exfalso. eapply keyLt_irrefl; eauto.
Qed.

Lemma double_leb_trans (x y z : float) :
  (x <=? y)%float = true -> (y <=? z)%float = true -> (x <=? z)%float = true.
Proof.
  intros H1 H2. apply double_leb_true in H1 as (A & B & C). apply double_leb_true in H2 as (D & E & F).
  apply double_leb_true. repeat split; auto. eapply keyLe_trans; eauto.
Qed.

Lemma double_leb_refl (x : float) : Binary64.isNaN x = false -> (x <=? x)%float = true.
Proof. intros H. apply double_leb_true. repeat split; auto. now right. Qed.

(** ** Doubles: rounding keeps the sign *)

Lemma binary_round_aux_signed (s : bool) (m e : Z) (l : location) :
  SFsigned s (binary_round_aux prec emax s m e l).
Proof.
  unfold binary_round_aux.
  destruct (shr_fexp prec emax m e l) as [mrs' e'].
  destruct (shr_fexp prec emax _ e' loc_Exact) as [mrs'' e''].
  destruct (shr_m mrs''); [reflexivity | | exact I].
  destruct (e'' <=? emax - prec)%Z; reflexivity.
Qed.

Lemma iter_pos_invariant {A : Type} (f : A -> A) (P : A -> Prop) :
  (forall x, P x -> P (f x)) -> forall p x, P x -> P (SpecFloat.iter_pos f p x).
Proof.
  intros Hf. induction p as [p IH|p IH|]; intros x Hx; cbn [SpecFloat.iter_pos]; auto.
Qed.

Lemma shr_1_nonneg (mrs : shr_record) : (0 <= shr_m mrs)%Z -> (0 <= shr_m (shr_1 mrs))%Z.
Proof.
  destruct mrs as [m r s]. destruct m as [|[p|p|]|[p|p|]]; cbn; lia.
Qed.

Lemma shr_fexp_nonneg (m e : Z) (l : location) :
  (0 <= m)%Z -> (0 <= shr_m (fst (shr_fexp prec emax m e l)))%Z.
Proof.
  intros Hm. unfold shr_fexp, shr.
  assert (H0 : (0 <= shr_m (shr_record_of_loc m l))%Z) by (destruct l as [|[| |]]; exact Hm).
  destruct (fexp prec emax (Zdigits2 m + e) - e)%Z; cbn [fst]; try exact H0.
  apply (iter_pos_invariant shr_1 (fun r => (0 <= shr_m r)%Z) shr_1_nonneg), H0.
Qed.

Lemma round_nearest_even_nonneg (m : Z) (l : location) :
  (0 <= m)%Z -> (0 <= round_nearest_even m l)%Z.
Proof.
  intros Hm. destruct l as [|[| |]]; cbn; try lia. destruct (Z.even m); lia.
Qed.

Lemma binary_round_aux_notNaN (s : bool) (m e : Z) (l : location) :
  (0 <= m)%Z -> binary_round_aux prec emax s m e l <> S754_nan.
Proof.
  intros Hm. unfold binary_round_aux.
  pose proof (shr_fexp_nonneg m e l Hm) as H1.
  destruct (shr_fexp prec emax m e l) as [mrs' e']. cbn [fst] in H1.
  pose proof (shr_fexp_nonneg _ e' loc_Exact
                (round_nearest_even_nonneg _ (loc_of_shr_record mrs') H1)) as H2.
  destruct (shr_fexp prec emax _ e' loc_Exact) as [mrs'' e'']. cbn [fst] in H2.
  destruct (shr_m mrs''); [discriminate | | lia].
  destruct (e'' <=? emax - prec)%Z; discriminate.
Qed.

Lemma binary_round_signed (s : bool) (m : positive) (e : Z) :
  SFsigned s (binary_round prec emax s m e) /\ binary_round prec emax s m e <> S754_nan.
Proof.
  unfold binary_round. destruct (shl_align m e _) as [mz ez]. split.
  - apply binary_round_aux_signed.
  - apply binary_round_aux_notNaN. lia.
Qed.

(** The value of a non-negative integer is rounded to a non-negative float. *)
Lemma binary_normalize_nonneg (z e : Z) :
  (0 <= z)%Z ->
  SFsigned false (binary_normalize prec emax z e false) /\
  binary_normalize prec emax z e false <> S754_nan.
Proof.
  intros Hz. destruct z as [|p|p]; cbn [binary_normalize]; [| |lia].
  - split; [reflexivity | discriminate].
  - apply binary_round_signed.
Qed.

(** ** Doubles: canonical mantissas *)

Lemma digits2_pos_bounds (m : positive) :
  (2 ^ (Zpos (digits2_pos m) - 1) <= Zpos m < 2 ^ Zpos (digits2_pos m))%Z.
Proof.
  induction m as [m IH|m IH|]; cbn [digits2_pos].
  - rewrite Pos2Z.inj_succ.
    replace (Z.succ (Zpos (digits2_pos m)) - 1)%Z with (Z.succ (Zpos (digits2_pos m) - 1))%Z by lia.
    rewrite !Z.pow_succ_r by lia. lia.
  - rewrite Pos2Z.inj_succ.
    replace (Z.succ (Zpos (digits2_pos m)) - 1)%Z with (Z.succ (Zpos (digits2_pos m) - 1))%Z by lia.
    rewrite !Z.pow_succ_r by lia. lia.
  - cbn. lia.
Qed.

Lemma bounded_canonical (m : positive) (e : Z) :
  bounded prec emax m e = true ->
  (Zpos m < 2 ^ 53 /\ -1074 <= e /\ (-1074 < e -> 2 ^ 52 <= Zpos m))%Z.
Proof.
  unfold bounded, canonical_mantissa, fexp, SpecFloat.emin, prec, emax.
  intros H. apply andb_true_iff in H as [H _]. apply Z.eqb_eq in H.
  pose proof (digits2_pos_bounds m) as [Hlo Hhi].
  set (d := Zpos (digits2_pos m)) in *.
  assert (Hd : (d <= 53)%Z) by lia.
  split; [|split].
  - apply Z.lt_le_trans with (2 ^ d)%Z; [exact Hhi|]. apply Z.pow_le_mono_r; lia.
  - lia.
  - intros He. assert (d = 53)%Z by lia. subst d. rewrite H0 in Hlo. exact Hlo.
Qed.

Lemma iter_xO (m d : positive) : Zpos (Pos.iter xO m d) = (Zpos m * 2 ^ Zpos d)%Z.
Proof.
  induction d as [|d IH] using Pos.peano_ind.
  - cbn. lia.
  - rewrite Pos.iter_succ, Pos2Z.inj_succ, Z.pow_succ_r by lia.
    rewrite Pos2Z.inj_xO, IH. lia.
Qed.

Lemma aligned_value (m : positive) (e ez : Z) :
  (ez <= e)%Z -> aligned m e ez = (Zpos m * 2 ^ (e - ez))%Z.
Proof.
  intros H. unfold aligned, shl_align.
  destruct (ez - e)%Z as [|p|p] eqn:E; cbn [fst].
  - replace (e - ez)%Z with 0%Z by lia. lia.
  - lia.
  - rewrite iter_xO. replace (e - ez)%Z with (Zpos p) by lia. reflexivity.
Qed.

Lemma aligned_order (m1 : positive) (e1 : Z) (m2 : positive) (e2 : Z) :
  bounded prec emax m1 e1 = true -> bounded prec emax m2 e2 = true ->
  (e1 < e2 \/ (e1 = e2 /\ Zpos m1 < Zpos m2))%Z ->
  (aligned m1 e1 (Z.min e1 e2) < aligned m2 e2 (Z.min e1 e2))%Z.
Proof.
  intros B1 B2 H.
  apply bounded_canonical in B1 as (H1 & L1 & _).
  apply bounded_canonical in B2 as (_ & _ & N2).
  rewrite !aligned_value by lia.
  destruct H as [H|[-> H]].
  - rewrite Z.min_l by lia. replace (e1 - e1)%Z with 0%Z by lia.
    assert (P : (2 ^ 1 <= 2 ^ (e2 - e1))%Z) by (apply Z.pow_le_mono_r; lia).
    change (2 ^ 1)%Z with 2%Z in P.
    specialize (N2 ltac:(lia)).
    change (2 ^ 53)%Z with (2 * 2 ^ 52)%Z in H1.
    set (q := (2 ^ (e2 - e1))%Z) in *. clearbody q.
    set (h := (2 ^ 52)%Z) in *. clearbody h. nia.
  - rewrite Z.min_id. replace (e2 - e2)%Z with 0%Z by lia. lia.
Qed.

(** ** Doubles: the sign of a difference *)

Lemma SFsub_finite (sx : bool) (mx : positive) (ex : Z) (sy : bool) (my : positive) (ey : Z) :
  SF64sub (S754_finite sx mx ex) (S754_finite sy my ey)
  = binary_normalize prec emax
      (cond_Zopp sx (aligned mx ex (Z.min ex ey)) - cond_Zopp sy (aligned my ey (Z.min ex ey)))
      (Z.min ex ey) false.
Proof. reflexivity. Qed.

Lemma aligned_pos (m : positive) (e ez : Z) : (0 < aligned m e ez)%Z.
Proof. unfold aligned. lia. Qed.

Lemma finite_difference (sx : bool) (mx : positive) (ex : Z) (sy : bool) (my : positive) (ey : Z) :
  bounded prec emax mx ex = true -> bounded prec emax my ey = true ->
  keyLe (SFkey (S754_finite sy my ey)) (SFkey (S754_finite sx mx ex)) ->
  (0 <= cond_Zopp sx (aligned mx ex (Z.min ex ey)) - cond_Zopp sy (aligned my ey (Z.min ex ey)))%Z.
Proof.
  intros Bx By H.
  pose proof (aligned_pos mx ex (Z.min ex ey)) as Px.
  pose proof (aligned_pos my ey (Z.min ex ey)) as Py.
  destruct sx, sy; cbn [cond_Zopp SFkey] in *.
  - (* both negative *)
    assert (A : (aligned mx ex (Z.min ex ey) <= aligned my ey (Z.min ex ey))%Z).
    { destruct H as [H|H].
      - unfold keyLt in H.
        pose proof (aligned_order mx ex my ey Bx By ltac:(lia)). lia.
      - inversion H. assert (ey = ex) by lia. subst. lia. }
    lia.
  - (* x negative, y positive *)
    exfalso. destruct H as [H|H]; [unfold keyLt in H; lia | discriminate H].
  - lia.
  - (* both positive *)
    assert (A : (aligned my ey (Z.min ex ey) <= aligned mx ex (Z.min ex ey))%Z).
    { destruct H as [H|H].
      - unfold keyLt in H.
        pose proof (aligned_order my ey mx ex By Bx ltac:(lia)) as A.
        rewrite Z.min_comm in A. lia.
      - inversion H. subst. lia. }
    lia.
Qed.

Lemma SFsigned_leb (r : spec_float) :
  SFsigned false r -> r <> S754_nan -> SFleb (S754_zero false) r = true.
Proof. destruct r as [s|s| |s m e]; cbn; intros H N; subst; congruence. Qed.

(** The difference of two finite numbers [y <= x] is a number that is not
    negative. *)
Lemma SFsub_nonneg (x y : spec_float) :
  valid_binary x = true -> valid_binary y = true ->
  SFfiniteOrZero x -> SFfiniteOrZero y ->
  keyLe (SFkey y) (SFkey x) ->
  SFleb (S754_zero false) (SF64sub x y) = true.
Proof.
  intros Vx Vy Fx Fy H.
  destruct x as [sx|sx| |sx mx ex], y as [sy|sy| |sy my ey]; try contradiction.
  - destruct sx, sy; reflexivity.
  - destruct sy; [reflexivity|].
    exfalso. destruct H as [H|H]; cbn in H; [lia | discriminate H].
  - destruct sx; [|reflexivity].
    exfalso. destruct H as [H|H]; cbn in H; [lia | discriminate H].
  - rewrite SFsub_finite.
    pose proof (finite_difference sx mx ex sy my ey Vx Vy H) as D.
    destruct (binary_normalize_nonneg _ (Z.min ex ey) D) as [S N].
    apply SFsigned_leb; assumption.
Qed.

(** The difference [x - y] for [x > y] has the sign bit clear (or is NaN, for
    two infinities). *)
Lemma SFsub_positive (x y : spec_float) :
  valid_binary x = true -> valid_binary y = true ->
  x <> S754_nan -> y <> S754_nan ->
  keyLt (SFkey y) (SFkey x) ->
  SFsigned false (SF64sub x y).
Proof.
  intros Vx Vy Nx Ny H.
  destruct x as [sx|sx| |sx mx ex], y as [sy|sy| |sy my ey]; try congruence;
    try (destruct sx); try (destruct sy); cbn in H; try lia; try reflexivity; try exact I.
  all: rewrite SFsub_finite;
    apply binary_normalize_nonneg, finite_difference; try assumption; left; exact H.
Qed.

(** ** Doubles: operations on numbers that are not negative *)

Lemma posOrNaN_nan : posOrNaN nan.
Proof. exact I. Qed.

Lemma double_sub_nan_l (x y : float) : Binary64.isNaN x = true -> (x - y)%float = nan.
Proof.
  intros H. apply Prim2SF_inj. rewrite FloatAxioms.sub_spec, (proj1 (isNaN_true x) H).
  destruct (Prim2SF y); reflexivity.
Qed.

Lemma double_sub_nan_r (x y : float) : Binary64.isNaN y = true -> (x - y)%float = nan.
Proof.
  intros H. apply Prim2SF_inj. rewrite FloatAxioms.sub_spec, (proj1 (isNaN_true y) H).
  destruct (Prim2SF x); reflexivity.
Qed.

Lemma double_div_nan_l (x y : float) : x = nan -> (x / y)%float = nan.
Proof.
  intros ->. apply Prim2SF_inj. rewrite FloatAxioms.div_spec.
  change (Prim2SF nan) with S754_nan. destruct (Prim2SF y); reflexivity.
Qed.

Lemma double_div_nan_r (x y : float) : y = nan -> (x / y)%float = nan.
Proof.
  intros ->. apply Prim2SF_inj. rewrite FloatAxioms.div_spec.
  change (Prim2SF nan) with S754_nan. destruct (Prim2SF x); reflexivity.
Qed.

(** [x - y] for [x > y], or for a NaN among them. *)
Lemma double_sub_posOrNaN (x y : float) : (x <=? y)%float = false -> posOrNaN (x - y)%float.
Proof.
  intros H. destruct (Binary64.isNaN x) eqn:Ex.
  { rewrite (double_sub_nan_l x y Ex). exact I. }
  destruct (Binary64.isNaN y) eqn:Ey.
  { rewrite (double_sub_nan_r x y Ey). exact I. }
  apply double_leb_false in H as [H|[H|H]]; try congruence.
  unfold posOrNaN. rewrite FloatAxioms.sub_spec.
  apply SFsub_positive; try apply Prim2SF_valid; try exact H.
  - now apply isNaN_false.
  - now apply isNaN_false.
Qed.

Lemma double_leb_false_trans (x y z : float) :
  Binary64.isNaN y = false ->
  (y <=? x)%float = false -> (z <=? y)%float = false -> (z <=? x)%float = false.
Proof.
  intros Ny H1 H2. apply double_leb_false.
  apply double_leb_false in H1 as [H1|[H1|H1]]; try congruence; auto.
  apply double_leb_false in H2 as [H2|[H2|H2]]; try congruence; auto.
  right; right. eapply keyLt_trans; eauto.
Qed.

Lemma double_mul_posOrNaN (x y : float) : posOrNaN x -> posOrNaN y -> posOrNaN (x * y)%float.
Proof.
  unfold posOrNaN. rewrite FloatAxioms.mul_spec.
  destruct (Prim2SF x) as [sx|sx| |sx mx ex], (Prim2SF y) as [sy|sy| |sy my ey];
    cbn [SFsigned]; intros Hx Hy; subst; try exact I; try reflexivity.
  apply binary_round_aux_signed.
Qed.

Lemma double_div_posOrNaN (x y : float) : posOrNaN x -> posOrNaN y -> posOrNaN (x / y)%float.
Proof.
  unfold posOrNaN. rewrite FloatAxioms.div_spec.
  destruct (Prim2SF x) as [sx|sx| |sx mx ex], (Prim2SF y) as [sy|sy| |sy my ey];
    cbn [SFsigned]; intros Hx Hy; subst; try exact I; try reflexivity.
  unfold SF64div, SFdiv.
  destruct (SFdiv_core_binary prec emax (Zpos mx) ex (Zpos my) ey) as [[mz ez] lz].
  apply binary_round_aux_signed.
Qed.

Lemma numberOfZ_posOrNaN (z : Z) : (0 <= z)%Z -> posOrNaN (Binary64.numberOfZ z).
Proof.
  intros Hz. unfold Binary64.numberOfZ.
  destruct (Z.ltb_spec z 0) as [H|_]; [lia|].
  unfold posOrNaN. rewrite FloatAxioms.of_uint63_spec.
  apply binary_normalize_nonneg.
  pose proof (Uint63.to_Z_bounded (of_Z z)). lia.
Qed.

Lemma floor_posOrNaN (x : float) : posOrNaN x -> posOrNaN (Binary64.Math_floor x).
Proof.
  unfold Binary64.Math_floor. intros H.
  destruct (Prim2SF x) as [s|s| |s m e] eqn:E; try exact H.
  destruct (Z.leb_spec 0 e) as [He|He]; [exact H|].
  unfold posOrNaN in H. rewrite E in H. cbn in H. subst s.
  apply numberOfZ_posOrNaN. cbv iota.
  apply Z.div_pos; [lia | apply Z.pow_pos_nonneg; lia].
Qed.

Lemma Math_min_posOrNaN (x y : float) :
  posOrNaN x -> posOrNaN y -> posOrNaN (Binary64.Math_min x y).
Proof.
  intros Hx Hy. unfold Binary64.Math_min.
  destruct (_ || _); [exact I|].
  destruct (x <? y)%float; [exact Hx|].
  destruct (y <? x)%float; [exact Hy|].
  destruct (Binary64.signBit x); assumption.
Qed.

(** The lower clamp at 0 does nothing to such a number. *)
Lemma Math_max_zero (x : float) : posOrNaN x -> Binary64.Math_max 0 x = x.
Proof.
  intros H. unfold Binary64.Math_max.
  change (Binary64.isNaN 0) with false. cbn [orb].
  destruct (Binary64.isNaN x) eqn:N; [symmetry; now apply isNaN_eq|].
  apply isNaN_false in N. unfold posOrNaN in H.
  rewrite !FloatAxioms.ltb_spec. change (Prim2SF 0) with (S754_zero false).
  change (Binary64.signBit 0) with false.
  destruct (Prim2SF x) as [s|s| |s m e] eqn:E; cbn in H; subst; try reflexivity.
  - cbn. apply Prim2SF_inj. now rewrite E.
  - exfalso. now apply N.
Qed.

(** ** Doubles: [Math.min] and [Math.max] *)

(** [Math.max], [Math.min] and [Math.floor] at the values where they are
    easy to get wrong. *)
Example Math_functions_examples :
  Binary64.Math_max 0 neg_zero = 0%float /\ Binary64.Math_max neg_zero 0 = 0%float /\
  Binary64.Math_min 0 neg_zero = neg_zero /\ Binary64.Math_min neg_zero 0 = neg_zero /\
  Binary64.Math_max 0 nan = nan /\ Binary64.Math_min nan 1 = nan /\
  Binary64.Math_max 0.1 0.5 = 0.5%float /\ Binary64.Math_min 0.9 0.75 = 0.75%float /\
  Binary64.Math_floor 2.75 = 2%float /\ Binary64.Math_floor (-2.75) = (-3)%float /\
  Binary64.Math_floor 0.5 = 0%float /\ Binary64.Math_floor (-0.5) = (-1)%float /\
  Binary64.Math_floor neg_zero = neg_zero /\ Binary64.Math_floor 7 = 7%float /\
  Binary64.Math_floor 1e300 = 1e300%float /\ Binary64.Math_floor infinity = infinity /\
  Binary64.Math_floor nan = nan /\
  Binary64.Math_floor 0.99999999999999978 = 0%float /\
  Binary64.numberOfZ 5 = 5%float /\ (1 - Binary64.MIN_SCROLL_PORTION)%float = 0.9%float.
Proof. repeat split. Qed.

Lemma double_leb_notNaN (x y : float) :
  (x <=? y)%float = true -> Binary64.isNaN x = false /\ Binary64.isNaN y = false.
Proof. intros H. apply double_leb_true in H. tauto. Qed.

Lemma double_ltb_leb (x y : float) : (x <? y)%float = true -> (x <=? y)%float = true.
Proof.
  intros H. apply double_ltb_true in H as (A & B & C). apply double_leb_true. repeat split; auto. now left.
Qed.

Lemma Math_max_order (x y : float) :
  Binary64.isNaN x = false -> Binary64.isNaN y = false ->
  (x <=? Binary64.Math_max x y)%float = true /\
  (y <=? Binary64.Math_max x y)%float = true /\
  (Binary64.Math_max x y = x \/ Binary64.Math_max x y = y).
Proof.
  intros Nx Ny. unfold Binary64.Math_max. rewrite Nx, Ny. cbn [orb].
  destruct (x <? y)%float eqn:E1.
  { split; [now apply double_ltb_leb|]. split; [now apply double_leb_refl | now right]. }
  destruct (y <? x)%float eqn:E2.
  { split; [now apply double_leb_refl|]. split; [now apply double_ltb_leb | now left]. }
  apply double_ltb_false in E1 as [E1|[E1|E1]]; try congruence.
  apply double_ltb_false in E2 as [E2|[E2|E2]]; try congruence.
  assert (Hxy : (x <=? y)%float = true) by (apply double_leb_true; auto).
  assert (Hyx : (y <=? x)%float = true) by (apply double_leb_true; auto).
  destruct (Binary64.signBit x).
  - split; [exact Hxy|]. split; [now apply double_leb_refl | now right].
  - split; [now apply double_leb_refl|]. split; [exact Hyx | now left].
Qed.

Lemma Math_min_order (x y : float) :
  Binary64.isNaN x = false -> Binary64.isNaN y = false ->
  (Binary64.Math_min x y <=? x)%float = true /\
  (Binary64.Math_min x y <=? y)%float = true /\
  (Binary64.Math_min x y = x \/ Binary64.Math_min x y = y).
Proof.
  intros Nx Ny. unfold Binary64.Math_min. rewrite Nx, Ny. cbn [orb].
  destruct (x <? y)%float eqn:E1.
  { split; [now apply double_leb_refl|]. split; [now apply double_ltb_leb | now left]. }
  destruct (y <? x)%float eqn:E2.
  { split; [now apply double_ltb_leb|]. split; [now apply double_leb_refl | now right]. }
  apply double_ltb_false in E1 as [E1|[E1|E1]]; try congruence.
  apply double_ltb_false in E2 as [E2|[E2|E2]]; try congruence.
  assert (Hxy : (x <=? y)%float = true) by (apply double_leb_true; auto).
  assert (Hyx : (y <=? x)%float = true) by (apply double_leb_true; auto).
  destruct (Binary64.signBit x).
  - split; [now apply double_leb_refl|]. split; [exact Hxy | now left].
  - split; [exact Hyx|]. split; [now apply double_leb_refl | now right].
Qed.

(** ** The window index in doubles *)

Lemma progressOf_posOrNaN (normalized scrollStart scrollEnd : float) :
  posOrNaN (Binary64.progressOf normalized scrollStart scrollEnd).
Proof.
  unfold Binary64.progressOf.
  destruct (normalized <=? scrollStart)%float eqn:E1; [reflexivity|].
  destruct (scrollEnd <=? normalized)%float eqn:E2; [reflexivity|].
  destruct (Binary64.isNaN normalized) eqn:N.
  - rewrite (double_div_nan_l _ _ (double_sub_nan_l normalized scrollStart N)). exact I.
  - apply double_div_posOrNaN; apply double_sub_posOrNaN; [exact E1|].
    exact (double_leb_false_trans scrollStart normalized scrollEnd N E1 E2).
Qed.

Lemma mapped_is_progress (a b c dwellStart dwellEnd : float) :
  Binary64.ScrollSpec.mapped a b c dwellStart dwellEnd
  = Binary64.progressOf (Binary64.normalizedLineProgress a b c) dwellStart
      (Binary64.scrollEndOf dwellStart dwellEnd).
Proof. reflexivity. Qed.

Lemma numberOfZ_notNaN (z : Z) : (0 <= z)%Z -> Binary64.isNaN (Binary64.numberOfZ z) = false.
Proof.
  intros Hz. apply isNaN_false. unfold Binary64.numberOfZ, SFnotNaN.
  destruct (Z.ltb_spec z 0) as [H|_]; [lia|].
  rewrite FloatAxioms.of_uint63_spec.
  apply binary_normalize_nonneg.
  pose proof (Uint63.to_Z_bounded (of_Z z)). lia.
Qed.

Lemma posOrNaN_leb (x : float) :
  posOrNaN x -> Binary64.isNaN x = false -> (0 <=? x)%float = true.
Proof.
  intros H N. rewrite FloatAxioms.leb_spec. change (Prim2SF 0) with (S754_zero false).
  apply SFsigned_leb; [exact H | now apply isNaN_false].
Qed.

(** C4.  As amended: with every step an operation on doubles, the window
    index the code selects is the one of the specification: raw progress
    [(c - a) / max(300, b - a)] clamped to [0,1]; mapped progress 0 when raw
    progress is at most [dwellStart], otherwise 1 when it is at least
    [scrollEnd], otherwise the linear interpolation between; index 0 for at
    most one window, else the floor of [mapped * (n - 1)] clamped to
    [0, n - 1] (the lower clamp never acts: the product is NaN or has its
    sign bit clear).  So the index lies in [0, n - 1], unless it is NaN.  With
    both dwell fractions 0.25, a line of 4000 ms and 3 windows, 500 ms into the
    line selects window 0, 2000 ms window 1 and 3800 ms window 2. *)
Theorem double_currentWindowIndex_as_specified :
  (forall a b c dwellStart dwellEnd n,
     Binary64.currentWindowIndex a b c dwellStart dwellEnd n
     = Binary64.ScrollSpec.windowIndex a b c dwellStart dwellEnd n) /\
  (forall a b c dwellStart dwellEnd n,
     (1 <= n)%Z ->
     let index := Binary64.currentWindowIndex a b c dwellStart dwellEnd n in
     Binary64.isNaN index = true \/
     ((0 <=? index)%float = true /\ (index <=? Binary64.numberOfZ (n - 1))%float = true)) /\
  Binary64.currentWindowIndex 0 4000 500 0.25 0.25 3 = 0%float /\
  Binary64.currentWindowIndex 0 4000 2000 0.25 0.25 3 = 1%float /\
  Binary64.currentWindowIndex 0 4000 3800 0.25 0.25 3 = 2%float /\
  Binary64.currentWindowIndex 12500 16500 13000 0.25 0.25 3 = 0%float /\
  Binary64.currentWindowIndex 12500 16500 14500 0.25 0.25 3 = 1%float /\
  Binary64.currentWindowIndex 12500 16500 16300 0.25 0.25 3 = 2%float.
Proof.
  assert (Hfloor : forall a b c ds de n, (1 < n)%Z ->
    posOrNaN (Binary64.Math_floor
      (Binary64.progressOf (Binary64.normalizedLineProgress a b c) ds
         (Binary64.scrollEndOf ds de) * Binary64.numberOfZ (n - 1))%float)).
  { intros a b c ds de n Hn.
    apply floor_posOrNaN, double_mul_posOrNaN; [apply progressOf_posOrNaN|].
    apply numberOfZ_posOrNaN. lia. }
  split; [|split; [|repeat split]].
  - intros a b c ds de n.
    unfold Binary64.currentWindowIndex, Binary64.ScrollSpec.windowIndex,
      Binary64.ScrollSpec.clamp.
    destruct (n <=? 1)%Z eqn:Hn; [reflexivity|]. apply Z.leb_gt in Hn.
    rewrite mapped_is_progress, Math_max_zero; [reflexivity|].
    now apply Hfloor.
  - intros a b c ds de n Hn index. subst index. unfold Binary64.currentWindowIndex.
    destruct (Z.leb_spec n 1) as [Hn1|Hn1].
    { right. assert (n = 1)%Z by lia. subst n. split; reflexivity. }
    specialize (Hfloor a b c ds de n Hn1).
    set (v := Binary64.Math_floor _) in *.
    pose proof (numberOfZ_notNaN (n - 1) ltac:(lia)) as Nn.
    destruct (Binary64.isNaN v) eqn:Nv.
    { left. unfold Binary64.Math_min. rewrite Nn, Nv. reflexivity. }
    right. destruct (Math_min_order _ v Nn Nv) as (A & _ & C).
    split; [|exact A].
    destruct C as [C|C]; rewrite C.
    + apply posOrNaN_leb; [apply numberOfZ_posOrNaN; lia | exact Nn].
    + apply posOrNaN_leb; assumption.
Qed.

Lemma double_currentWindowIndex_as_specified_witness :
  let index := Binary64.currentWindowIndex 0 4000 2000 0.25 0.25 3 in
  Binary64.isNaN index = true \/
  ((0 <=? index)%float = true /\ (index <=? Binary64.numberOfZ (3 - 1))%float = true).
Proof.
  apply (proj1 (proj2 double_currentWindowIndex_as_specified)). lia.
Defined.

(** C4, as stated, fails.  For a line from 0 to 4000 ms at 1400 ms, both dwell
    fractions 0.25 and 6 windows, the formula gives mapped progress 0.2 and
    window 1 in exact arithmetic, and the code selects window 0: its mapped
    progress is the double 0.19999999999999996.  And with [dwellStart] 0.9,
    where [scrollEnd] is 0.9 as well, raw progress 0.9 is at least [scrollEnd]
    and the index is 0 all the same: the first case is tried first. *)
Lemma currentWindowIndex_rounds_below_formula :
  Binary64.ScrollSpec.mapped 0 4000 1400 0.25 0.25 = 0.19999999999999996%float /\
  Binary64.currentWindowIndex 0 4000 1400 0.25 0.25 6 = 0%float /\
  (ScrollSpec.mapped 0 4000 1400 (1 # 4) (1 # 4) == 1 # 5)%Q /\
  ScrollSpec.windowIndex 0 4000 1400 (1 # 4) (1 # 4) 6 = 1%Z /\
  (Binary64.scrollEndOf 0.9 0 <=? Binary64.normalizedLineProgress 0 4000 3600)%float = true /\
  Binary64.currentWindowIndex 0 4000 3600 0.9 0 3 = 0%float.
Proof. repeat split. Qed.

(** ** Dwell profile *)

Lemma finite_of_range (x : float) :
  Binary64.inDwellRange x -> SFfiniteOrZero (Prim2SF x).
Proof.
  intros [H0 H9]. apply double_leb_true in H0 as (_ & N & K0). apply double_leb_true in H9 as (_ & _ & K9).
  apply isNaN_false in N. unfold doubleKey in *.
  change (Prim2SF 0) with (S754_zero false) in K0.
  change (Prim2SF 0.9) with (S754_finite false 8106479329266893 (-53)) in K9.
  destruct (Prim2SF x) as [s|[|]| |s m e]; try exact I.
  - exfalso. destruct K0 as [K|K]; [cbn in K; lia | discriminate K].
  - exfalso. destruct K9 as [K|K]; [cbn in K; lia | discriminate K].
  - exfalso. now apply N.
Qed.

(** The room left beside a dwell fraction in range is not negative. *)
Lemma room_nonneg (clamped : float) :
  Binary64.inDwellRange clamped ->
  (0 <=? 1 - Binary64.MIN_SCROLL_PORTION - clamped)%float = true.
Proof.
  intros Hc. change (1 - Binary64.MIN_SCROLL_PORTION)%float with 0.9%float.
  rewrite FloatAxioms.leb_spec, FloatAxioms.sub_spec.
  change (Prim2SF 0) with (S754_zero false).
  apply SFsub_nonneg; try apply Prim2SF_valid.
  - exact I.
  - now apply finite_of_range.
  - destruct Hc as [_ H9]. apply double_leb_true in H9. tauto.
Qed.

Lemma clamp_dwell_range (nextValue : float) :
  Binary64.isNaN nextValue = false ->
  Binary64.inDwellRange (Binary64.Math_min 0.9 (Binary64.Math_max 0 nextValue)).
Proof.
  intros N.
  destruct (Math_max_order 0 nextValue eq_refl N) as (A & _ & _).
  destruct (double_leb_notNaN _ _ A) as [_ Nm].
  destruct (Math_min_order 0.9 _ eq_refl Nm) as (B & _ & [C|C]).
  - split; [rewrite C; reflexivity | exact B].
  - split; [rewrite C; exact A | exact B].
Qed.

Lemma clamp_other_dwell (prev clamped : float) :
  Binary64.inDwellRange prev -> Binary64.inDwellRange clamped ->
  let room := (1 - Binary64.MIN_SCROLL_PORTION - clamped)%float in
  let other := Binary64.Math_min prev (Binary64.Math_max 0 room) in
  Binary64.inDwellRange other /\ (other <=? room)%float = true.
Proof.
  intros [P0 P9] Hc room other.
  pose proof (room_nonneg clamped Hc) as R0. fold room in R0.
  destruct (double_leb_notNaN _ _ R0) as [_ Nr].
  destruct (double_leb_notNaN _ _ P0) as [_ Np].
  destruct (Math_max_order 0 room eq_refl Nr) as (A & _ & C).
  destruct (double_leb_notNaN _ _ A) as [_ Nm].
  assert (M : (Binary64.Math_max 0 room <=? room)%float = true).
  { destruct C as [C|C]; rewrite C; [exact R0 | now apply double_leb_refl]. }
  destruct (Math_min_order prev _ Np Nm) as (B1 & B2 & D). fold other in B1, B2, D.
  split; [split|].
  - destruct D as [D|D]; rewrite D; assumption.
  - exact (double_leb_trans _ _ _ B1 P9).
  - exact (double_leb_trans _ _ _ B2 M).
Qed.

Lemma applyDwellUpdate_invariant (st : Binary64.ScrollProfile) (u : Binary64.DwellUpdate) :
  Binary64.isNaN (Binary64.updateValue u) = false ->
  Binary64.inDwellRange (Binary64.scrollDwellStart st) ->
  Binary64.inDwellRange (Binary64.scrollDwellEnd st) ->
  Binary64.dwellInvariant (Binary64.applyDwellUpdate st u).
Proof.
  intros N Hs He. destruct u as [v|v]; cbn in N;
    pose proof (clamp_dwell_range v N) as Hc; unfold Binary64.dwellInvariant; cbn.
  - destruct (clamp_other_dwell _ _ He Hc) as [A B]. auto.
  - destruct (clamp_other_dwell _ _ Hs Hc) as [A B]. auto.
Qed.

(** C8.  As amended: from a state in which both dwell fractions lie in
    [0, 0.9], any sequence of dwell-start and dwell-end updates with values
    that are not NaN leads to such a state again, in which moreover (after at
    least one update, or if it held before) the fraction that was clamped is at
    most [1 - MIN_SCROLL_PORTION] minus the fraction that was set, the
    subtraction being that of doubles. *)
Theorem dwell_clamp_preserved
  (st : Binary64.ScrollProfile) (updates : list Binary64.DwellUpdate) :
  Forall (fun u => Binary64.isNaN (Binary64.updateValue u) = false) updates ->
  Binary64.inDwellRange (Binary64.scrollDwellStart st) ->
  Binary64.inDwellRange (Binary64.scrollDwellEnd st) ->
  (Binary64.dwellInvariant st \/ updates <> []) ->
  Binary64.dwellInvariant (Binary64.applyDwellUpdates st updates).
Proof.
  unfold Binary64.applyDwellUpdates. revert st.
  induction updates as [|u us IH]; intros st Hn Hs He Hst; cbn [fold_left].
  - destruct Hst as [Hst|Hst]; [exact Hst | congruence].
  - inversion Hn as [|? ? Hu Hus]; subst.
    pose proof (applyDwellUpdate_invariant st u Hu Hs He) as H1.
    apply IH; try assumption; try (now left); apply H1.
Qed.

Lemma dwell_clamp_preserved_witness :
  let st := Binary64.mkProfile 0.25 0.25 in
  let updates := [Binary64.DwellEndChange 0.7; Binary64.DwellStartChange 0.3;
                  Binary64.DwellStartChange (-0.5); Binary64.DwellEndChange 2] in
  Binary64.dwellInvariant (Binary64.applyDwellUpdates st updates).
Proof.
  intros st updates.
  apply (dwell_clamp_preserved st updates).
  - repeat constructor.
  - split; reflexivity.
  - split; reflexivity.
  - right. discriminate.
Defined.

(** C8, as stated, fails.  From (0.25, 0.25), where the sum is within 0.9,
    setting the end dwell to 0.7 and then the start dwell to 0.3 leaves the end
    dwell at [1 - 0.1 - 0.3], which is the double 0.6000000000000001, and the
    sum of the two at 0.9000000000000001. *)
Lemma dwell_sum_exceeds_by_rounding :
  let st := Binary64.mkProfile 0.25 0.25 in
  let st' := Binary64.applyDwellUpdates st
               [Binary64.DwellEndChange 0.7; Binary64.DwellStartChange 0.3] in
  Binary64.inDwellRange (Binary64.scrollDwellStart st) /\
  Binary64.inDwellRange (Binary64.scrollDwellEnd st) /\
  (Binary64.scrollDwellStart st + Binary64.scrollDwellEnd st <=? 0.9)%float = true /\
  st' = Binary64.mkProfile 0.3 0.6000000000000001 /\
  (Binary64.scrollDwellStart st' + Binary64.scrollDwellEnd st' <=? 0.9)%float = false.
Proof. repeat split. Qed.

(** ** Publish throttler *)

Section ThrottlerFacts.

Variable interval : Z.

(** What one event does to the refs: either nothing is sent and the time of
    the last send stays, or one payload is sent now, at least one interval
    after the last send. *)
Lemma step_send (clock : Z) (st : ThrottleState) (e : ThrottleEvent) :
  throttleInvariant interval clock st ->
  hostRun interval clock st [e] = true ->
  throttleInvariant interval (eventTime e) (fst (step interval st e)) /\
  ((snd (step interval st e) = [] /\
    lastMetadataSentAt (fst (step interval st e)) = lastMetadataSentAt st) \/
   (exists p, snd (step interval st e) = [(eventTime e, p)] /\
    lastMetadataSentAt (fst (step interval st e)) = eventTime e /\
    (interval <= eventTime e - lastMetadataSentAt st)%Z)).
Proof.
  intros [Hlast Htimer] Hhost. cbn [hostRun] in Hhost.
  rewrite andb_true_r in Hhost. apply andb_true_iff in Hhost as [Hclock Hfire].
  apply Z.leb_le in Hclock.
  destruct st as [last sig pending timer]. cbn [lastMetadataSentAt metadataFlushTimer] in *.
  destruct e as [now p|now|now]; cbn [eventTime step] in *.
  - (* a candidate *)
    unfold onPayload.
    destruct (isLastSent _ _ && isNone _).
    { split; [split; [cbn; lia | exact Htimer] | left; split; reflexivity]. }
    cbn [lastMetadataSentAt].
    destruct (Z.leb_spec interval (now - last)) as [Hel|Hel].
    + split; [split; cbn; [lia | exact I]|].
      right. exists p. cbn. repeat split. exact Hel.
    + destruct timer as [due|]; cbn.
      * split; [split; cbn; [lia | exact Htimer] | left; split; reflexivity].
      * split; [split; cbn; [lia | lia] | left; split; reflexivity].
  - (* the timer fires *)
    destruct timer as [due|]; [|discriminate]. apply Z.leb_le in Hfire.
    unfold onTimer. cbn.
    destruct pending as [q|]; cbn.
    + split; [split; cbn; [lia | exact I]|].
      right. exists q. repeat split. lia.
    + split; [split; cbn; [lia | exact I] | left; split; reflexivity].
  - (* no metadata *)
    cbn. split; [split; cbn; [lia | exact I] | left; split; reflexivity].
Qed.

Lemma run_spaced (events : list ThrottleEvent) (clock : Z) (st : ThrottleState) :
  throttleInvariant interval clock st ->
  hostRun interval clock st events = true ->
  spaced interval (lastMetadataSentAt st :: map fst (snd (run interval st events))).
Proof.
  revert clock st.
  induction events as [|e rest IH]; intros clock st Hinv Hhost; [exact I|].
  cbn [run].
  assert (Hhead : hostRun interval clock st [e] = true).
  { cbn [hostRun] in *. apply andb_true_iff in Hhost as [H _].
    rewrite H. reflexivity. }
  assert (Htail : hostRun interval (eventTime e) (fst (step interval st e)) rest = true).
  { cbn [hostRun] in Hhost. now apply andb_true_iff in Hhost as [_ H]. }
  destruct (step_send clock st e Hinv Hhead) as [Hinv' Hsend].
  specialize (IH _ _ Hinv' Htail).
  destruct (step interval st e) as [st1 sent1]. cbn [fst snd] in *.
  destruct (run interval st1 rest) as [st2 sent2]. cbn [fst snd] in *.
  destruct Hsend as [[-> Hsame]|(p & -> & Hnow & Hgap)].
  - rewrite <- Hsame. exact IH.
  - cbn. rewrite Hnow in IH. split; [exact Hgap | exact IH].
Qed.

End ThrottlerFacts.

(** C3 (as amended).  In every run the host allows, from refs that are
    consistent, two consecutive sends are at least the interval apart (and the
    first at least the interval after the send recorded in the refs).  A
    candidate equal to the payload sent last, while nothing is pending, is
    dropped without a send.  Any other candidate is sent at once when at least
    the interval has passed since the last send; otherwise nothing is sent and
    a timer is left armed that is due no earlier than the last send plus the
    interval. *)
Theorem throttle_sends_spaced :
  (forall interval clock st events,
     throttleInvariant interval clock st ->
     hostRun interval clock st events = true ->
     spaced interval (lastMetadataSentAt st :: map fst (snd (run interval st events)))) /\
  (forall interval clock, (0 <= clock)%Z ->
     throttleInvariant interval clock initialThrottle) /\
  (forall interval st now p,
     isLastSent st p && isNone (pendingMetadata st) = true ->
     onPayload interval st now p = (st, [])) /\
  (forall interval st now p,
     isLastSent st p && isNone (pendingMetadata st) = false ->
     (interval <= now - lastMetadataSentAt st)%Z ->
     snd (onPayload interval st now p) = [(now, p)]) /\
  (forall interval st now p,
     isLastSent st p && isNone (pendingMetadata st) = false ->
     (now - lastMetadataSentAt st < interval)%Z ->
     throttleInvariant interval now st ->
     snd (onPayload interval st now p) = [] /\
     exists due, metadataFlushTimer (fst (onPayload interval st now p)) = Some due /\
                 (lastMetadataSentAt st + interval <= due)%Z).
Proof.
  split; [intros interval clock st events; apply run_spaced|].
  split; [intros interval clock Hc; split; [exact Hc | exact I]|].
  split; [|split].
  - intros interval st now p Hdup. unfold onPayload. now rewrite Hdup.
  - intros interval st now p Hdup Hel. unfold onPayload. rewrite Hdup.
    apply Z.leb_le in Hel. now rewrite Hel.
  - intros interval st now p Hdup Hel [_ Htimer]. unfold onPayload. rewrite Hdup.
    apply Z.leb_gt in Hel as Hel'. rewrite Hel'.
    destruct st as [last sig pending timer]. cbn in *.
    destruct timer as [due|]; cbn.
    + split; [reflexivity|]. exists due. split; [reflexivity | exact Htimer].
    + split; [reflexivity|]. eexists. split; [reflexivity|]. lia.
Qed.

Lemma throttle_sends_spaced_witness :
  let events := [Candidate 5000 payloadA; Candidate 5200 payloadB;
                 Candidate 5700 payloadC; TimerFired 6003;
                 Candidate 6100 payloadA; Candidate 7500 payloadB] in
  throttleInvariant 1000 0 initialThrottle /\
  hostRun 1000 0 initialThrottle events = true /\
  map fst (snd (run 1000 initialThrottle events)) = [5000; 6003; 7500]%Z /\
  spaced 1000 (0%Z :: map fst (snd (run 1000 initialThrottle events))).
Proof.
  intros events.
  assert (Hinv : throttleInvariant 1000 0 initialThrottle) by (split; [cbn; lia | exact I]).
  split; [exact Hinv|]. split; [reflexivity|]. split; [reflexivity|].
  exact (proj1 throttle_sends_spaced 1000%Z 0%Z initialThrottle events Hinv eq_refl).
Defined.

(** C3 as stated fails for a repeated payload: with the interval long over, a
    candidate equal to the payload sent last is not sent. *)
Lemma throttle_drops_repeat_after_interval :
  let st := mkThrottle 0 (Some payloadA) None None in
  (1000 <= 5000 - lastMetadataSentAt st)%Z /\
  snd (onPayload 1000 st 5000 payloadA) = [] /\
  snd (onPayload 1000 st 5000 payloadA) <> [(5000%Z, payloadA)].
Proof. cbn. repeat split; try lia; discriminate. Qed.

(** C7 (as amended).  A candidate that arrives before the interval is over,
    and is not dropped as a repeat of the last send, is sent by nothing yet: it
    becomes the pending payload in place of any earlier one, an armed timer is
    kept and otherwise one is armed for the last send plus the interval.  When
    the timer fires, the payload pending then is sent.  With an interval of
    1000 ms and a send at 0, a different candidate at 200 is deferred, a
    candidate at 700 replaces it, and the send at 1000 carries the payload of
    700. *)
Theorem throttle_pending_coalesced :
  (forall interval st now p,
     isLastSent st p && isNone (pendingMetadata st) = false ->
     (now - lastMetadataSentAt st < interval)%Z ->
     snd (onPayload interval st now p) = [] /\
     pendingMetadata (fst (onPayload interval st now p)) = Some p /\
     metadataFlushTimer (fst (onPayload interval st now p))
     = match metadataFlushTimer st with
       | Some due => Some due
       | None => Some (lastMetadataSentAt st + interval)%Z
       end) /\
  (forall st now pending,
     pendingMetadata st = Some pending ->
     onTimer st now
     = (mkThrottle now (Some pending) None None, [(now, pending)])) /\
  (forall sent p200 p700,
     sameSignature p200 sent = false ->
     let st0 := mkThrottle 0 (Some sent) None None in
     run 1000 st0 [Candidate 200 p200]
     = (mkThrottle 0 (Some sent) (Some p200) (Some 1000%Z), []) /\
     run 1000 st0 [Candidate 200 p200; Candidate 700 p700]
     = (mkThrottle 0 (Some sent) (Some p700) (Some 1000%Z), []) /\
     hostRun 1000 0 st0 [Candidate 200 p200; Candidate 700 p700; TimerFired 1000] = true /\
     run 1000 st0 [Candidate 200 p200; Candidate 700 p700; TimerFired 1000]
     = (mkThrottle 1000 (Some p700) None None, [(1000%Z, p700)])).
Proof.
  split; [|split].
  - intros interval st now p Hdup Hel. unfold onPayload. rewrite Hdup.
    apply Z.leb_gt in Hel as Hel'. rewrite Hel'.
    destruct st as [last sig pending timer]. cbn in *.
    destruct timer as [due|]; cbn; repeat split.
    f_equal. lia.
  - intros st now pending Hp. unfold onTimer.
    destruct st as [last sig pend timer]. cbn in *. now rewrite Hp.
  - intros sent p200 p700 Hdiff st0.
    cbn. unfold onPayload, isLastSent. cbn. rewrite Hdiff. cbn.
    rewrite andb_false_r. cbn. repeat split.
Qed.

Lemma throttle_pending_coalesced_witness :
  sameSignature payloadB payloadA = false /\
  run 1000 (mkThrottle 0 (Some payloadA) None None)
      [Candidate 200 payloadB; Candidate 700 payloadC; TimerFired 1000]
  = (mkThrottle 1000 (Some payloadC) None None, [(1000%Z, payloadC)]).
Proof.
  split; [reflexivity|].
  exact (proj2 (proj2 (proj2 (proj2 (proj2 throttle_pending_coalesced)
           payloadA payloadB payloadC eq_refl)))).
Defined.

(** C7 as stated fails for a repeated payload: a candidate equal to the
    payload sent last, arriving inside the interval while nothing is pending,
    is not stored as pending and arms no timer. *)
Lemma throttle_drops_repeat_inside_interval :
  let st := mkThrottle 0 (Some payloadA) None None in
  (200 - lastMetadataSentAt st < 1000)%Z /\
  pendingMetadata (fst (onPayload 1000 st 200 payloadA)) = None /\
  pendingMetadata (fst (onPayload 1000 st 200 payloadA)) <> Some payloadA /\
  metadataFlushTimer (fst (onPayload 1000 st 200 payloadA)) = None.
Proof. cbn. repeat split; try lia; discriminate. Qed.

(** ** Further properties of the timeline parser *)

Lemma Number_from (s : string) (acc : Z) :
  fold_left (fun a c => (a * 10 + digitValue c)%Z) (list_ascii_of_string s) acc
  = (acc * 10 ^ Z.of_nat (String.length s) + Number s)%Z.
Proof.
  unfold Number. revert acc.
  induction s as [|c s IH]; intros acc; simpl String.length; simpl list_ascii_of_string.
  - simpl. lia.
  - cbn [fold_left]. rewrite IH. rewrite (IH (0 * 10 + digitValue c)%Z).
    rewrite Nat2Z.inj_succ, Z.pow_succ_r by lia. ring.
Qed.

Lemma Number_cons (c : ascii) (s : string) :
  Number (String c s) = (digitValue c * 10 ^ Z.of_nat (String.length s) + Number s)%Z.
Proof.
  unfold Number at 1. simpl list_ascii_of_string. cbn [fold_left].
  rewrite Number_from. ring.
Qed.

Lemma Number_append (a b : string) :
  Number (a ++ b) = (Number a * 10 ^ Z.of_nat (String.length b) + Number b)%Z.
Proof.
  induction a as [|c a IH]; simpl append.
  - reflexivity.
  - rewrite !Number_cons, IH, length_append, Nat2Z.inj_add, Z.pow_add_r by lia. ring.
Qed.

Lemma digitValue_range (c : ascii) : isDigit c = true -> (0 <= digitValue c <= 9)%Z.
Proof.
  unfold isDigit, digitValue. intros H.
  apply andb_true_iff in H as [H1 H2].
  apply Nat.leb_le in H1, H2. lia.
Qed.

Lemma Number_range (s : string) :
  allDigits s = true -> (0 <= Number s < 10 ^ Z.of_nat (String.length s))%Z.
Proof.
  induction s as [|c s IH]; intros H.
  - cbn. lia.
  - simpl in H. apply andb_true_iff in H as [Hc Hs].
    rewrite Number_cons. simpl String.length.
    rewrite Nat2Z.inj_succ, Z.pow_succ_r by lia.
    pose proof (digitValue_range c Hc) as Hd. specialize (IH Hs).
    set (P := (10 ^ Z.of_nat (String.length s))%Z) in *. clearbody P.
    assert (digitValue c * P <= 9 * P)%Z by (apply Z.mul_le_mono_nonneg_r; lia).
    assert (0 <= digitValue c * P)%Z by (apply Z.mul_nonneg_nonneg; lia).
    lia.
Qed.

Lemma Number_zeros (n : nat) : Number (repeatChar n "0") = 0%Z.
Proof.
  induction n as [|n IH]; [reflexivity|].
  simpl repeatChar. rewrite Number_cons, IH.
  change (digitValue "0") with 0%Z. lia.
Qed.

Lemma length_repeatChar (n : nat) (c : ascii) : String.length (repeatChar n c) = n.
Proof. induction n; simpl; congruence. Qed.

Lemma Number_padEnd (f : string) :
  (String.length f <= 3)%nat ->
  Number (padEnd 3 f) = (Number f * 10 ^ Z.of_nat (3 - String.length f))%Z.
Proof.
  intros _. unfold padEnd.
  rewrite Number_append, Number_zeros, length_repeatChar. lia.
Qed.

(** X3 and X1 share this reading of a tag's time. *)
Lemma parseTimestampMs_value (m : TimestampMatch) :
  wellFormedTag m ->
  parseTimestampMs m
  = (Number (minutesGroup m) * 60000 + Number (secondsGroup m) * 1000
     + match fractionGroup m with
       | Some f => Number f * 10 ^ Z.of_nat (3 - String.length f)
       | None => 0
       end)%Z.
Proof.
  intros (_ & _ & _ & _ & Hf). unfold parseTimestampMs.
  destruct (fractionGroup m) as [f|].
  - destruct Hf as [_ Hl]. rewrite Number_padEnd by lia. reflexivity.
  - reflexivity.
Qed.

Lemma parseTimestampMs_range (m : TimestampMatch) :
  wellFormedTag m -> (0 <= parseTimestampMs m <= 6039999)%Z.
Proof.
  intros Hwf. rewrite (parseTimestampMs_value m Hwf).
  destruct Hwf as (Hm & Lm & Hs & Ls & Hf).
  pose proof (Number_range _ Hm) as Rm. pose proof (Number_range _ Hs) as Rs.
  assert (Rm' : (0 <= Number (minutesGroup m) < 100)%Z).
  { split; [lia|]. apply Z.lt_le_trans with (10 ^ Z.of_nat (String.length (minutesGroup m)))%Z;
      [lia|]. change 100%Z with (10 ^ 2)%Z. apply Z.pow_le_mono_r; lia. }
  assert (Rs' : (0 <= Number (secondsGroup m) < 100)%Z).
  { rewrite Ls in Rs. exact Rs. }
  destruct (fractionGroup m) as [f|].
  - destruct Hf as [Hd Hl]. pose proof (Number_range _ Hd) as Rf.
    assert (Rf' : (0 <= Number f * 10 ^ Z.of_nat (3 - String.length f) < 1000)%Z).
    { destruct (String.length f) as [|[|[|[|k]]]]; cbn in *; lia. }
    lia.
  - lia.
Qed.

Lemma parseLrc_entry_origin (text : string) (e : LyricLine) :
  In e (parseLrc text) ->
  exists line m, In line (splitLines text) /\ In e (lineEntries line) /\
                 In m (execAll line) /\ wellFormedTag m /\
                 timeMs e = parseTimestampMs m.
Proof.
  intros He.
  apply (Permutation_in e (Permutation_sym (sort_perm (emitted text)))) in He.
  apply in_flat_map in He as (line & Hline & He).
  destruct (lineEntries_from_match _ _ He) as (m & Hm & Htime).
  exists line, m.
  split; [exact Hline|]. split; [exact He|]. split; [exact Hm|].
  split; [|exact Htime].
  now apply execAll_sound in Hm as [Hwf _].
Qed.

(** X1.  Every entry of a parsed timeline has a time between 0 and
    99 min 99 s 999 ms, that is, 6039999 ms. *)
Theorem parseLrc_times_bounded (text : string) (e : LyricLine) :
  In e (parseLrc text) -> (0 <= timeMs e <= 6039999)%Z.
Proof.
  intros He. destruct (parseLrc_entry_origin text e He) as (line & m & _ & _ & _ & Hwf & ->).
  now apply parseTimestampMs_range.
Qed.

Lemma parseLrc_times_bounded_witness :
  In (mkLyricLine 5999999 "la") (parseLrc "[99:59.999]la") /\
  (0 <= timeMs (mkLyricLine 5999999 "la") <= 6039999)%Z.
Proof.
  assert (H : In (mkLyricLine 5999999 "la") (parseLrc "[99:59.999]la")) by (now left).
  split; [exact H|].
  exact (parseLrc_times_bounded "[99:59.999]la" _ H).
Defined.

(** X3.  A tag stands for minutes * 60000 + seconds * 1000 + fraction, where a
    fraction of one or two digits counts tenths or hundredths of a second: its
    digits are padded with zeros on the right to milliseconds. *)
Theorem parseTimestampMs_pads_fraction (m : TimestampMatch) :
  wellFormedTag m ->
  parseTimestampMs m
  = (Number (minutesGroup m) * 60000 + Number (secondsGroup m) * 1000
     + match fractionGroup m with
       | Some f => Number f * 10 ^ Z.of_nat (3 - String.length f)
       | None => 0
       end)%Z.
Proof. exact (parseTimestampMs_value m). Qed.

Lemma parseTimestampMs_pads_fraction_witness :
  wellFormedTag (mkMatch "01" "02" (Some "5")) /\
  parseTimestampMs (mkMatch "01" "02" (Some "5")) = 62500%Z.
Proof.
  assert (H : wellFormedTag (mkMatch "01" "02" (Some "5"))).
  { unfold wellFormedTag. cbn. repeat split; lia. }
  split; [exact H|].
  exact (parseTimestampMs_pads_fraction _ H).
Defined.

Lemma trimEnd_idempotent (s : string) : trimEnd (trimEnd s) = trimEnd s.
Proof.
  induction s as [|c s IH]; [reflexivity|].
  cbn [trimEnd]. destruct (trimEnd s) as [|d t] eqn:E.
  - destruct (isWhiteSpace c) eqn:Ec; [reflexivity|].
    cbn [trimEnd]. now rewrite Ec.
  - cbn [trimEnd]. cbn [trimEnd] in IH. rewrite IH. reflexivity.
Qed.

Lemma trimEnd_startsVisible (s : string) :
  startsVisible s = true -> startsVisible (trimEnd s) = true.
Proof.
  destruct s as [|c s]; [discriminate|]. cbn [startsVisible trimEnd].
  intros Hc. destruct (trimEnd s).
  - destruct (isWhiteSpace c) eqn:Ec; [discriminate|].
    cbn [startsVisible]. now rewrite Ec.
  - exact Hc.
Qed.

Lemma trim_idempotent (s : string) : trim (trim s) = trim s.
Proof.
  unfold trim. destruct (trimStart_cases s) as [E|E].
  - rewrite E. reflexivity.
  - rewrite (trimStart_visible (trimEnd (trimStart s))) by (now apply trimEnd_startsVisible).
    apply trimEnd_idempotent.
Qed.

(** X2.  The text of every entry of a parsed timeline is not empty and has no
    white space at either end: it is the line without its tags, trimmed, or the
    placeholder of three dots. *)
Theorem parseLrc_texts_trimmed (content : string) (e : LyricLine) :
  In e (parseLrc content) -> text e <> "" /\ trim (text e) = text e.
Proof.
  intros He.
  destruct (parseLrc_entry_origin content e He) as (line & _ & _ & Hin & _).
  unfold lineEntries in Hin.
  destruct (map parseTimestampMs (execAll line)) as [|t ts]; [destruct Hin|].
  apply in_map_iff in Hin as (t' & <- & _). cbn [text].
  unfold orElse. destruct (isEmpty (trim (stripTimestamps line))) eqn:E.
  - split; [discriminate | reflexivity].
  - split; [now apply isEmpty_false | apply trim_idempotent].
Qed.

Lemma parseLrc_texts_trimmed_witness :
  parseLrc "[00:01]   [00:02]  two words  " =
    [mkLyricLine 1000 "two words"; mkLyricLine 2000 "two words"] /\
  parseLrc "[00:03]  " = [mkLyricLine 3000 "..."] /\
  text (mkLyricLine 3000 "...") <> "" /\ trim (text (mkLyricLine 3000 "...")) = "...".
Proof.
  split; [reflexivity|]. split; [reflexivity|].
  apply (parseLrc_texts_trimmed "[00:03]  "). now left.
Defined.

Lemma execAll_at_match (s : string) (m : TimestampMatch) (after : string) :
  matchTimestamp s = Some (m, after) -> execAll s = m :: execAll after.
Proof.
  funelim (execAll s); clear Heqcall; intros Hs.
  - discriminate.
  - assert (E1 : m0 = m) by congruence.
    assert (E2 : after0 = after) by congruence.
    rewrite E1, E2. reflexivity.
  - congruence.
Qed.

Lemma execAll_skip (s : string) :
  matchTimestamp s = None ->
  execAll s = match s with String _ rest => execAll rest | EmptyString => [] end.
Proof.
  funelim (execAll s); clear Heqcall; intros Hnone.
  - reflexivity.
  - congruence.
  - reflexivity.
Qed.

Lemma execAll_no_match (c : ascii) (rest : string) :
  matchTimestamp (String c rest) = None -> execAll (String c rest) = execAll rest.
Proof. intros H. now rewrite (execAll_skip _ H). Qed.

Lemma stripTimestamps_at_match (s : string) (m : TimestampMatch) (after : string) :
  matchTimestamp s = Some (m, after) -> stripTimestamps s = stripTimestamps after.
Proof.
  funelim (stripTimestamps s); clear Heqcall; intros Hs.
  - discriminate.
  - assert (E2 : after0 = after) by congruence.
    rewrite E2. reflexivity.
  - congruence.
Qed.

Lemma stripTimestamps_skip (s : string) :
  matchTimestamp s = None ->
  stripTimestamps s
  = match s with String c rest => String c (stripTimestamps rest) | EmptyString => "" end.
Proof.
  funelim (stripTimestamps s); clear Heqcall; intros Hnone.
  - reflexivity.
  - congruence.
  - reflexivity.
Qed.

Lemma stripTimestamps_no_match (c : ascii) (rest : string) :
  matchTimestamp (String c rest) = None ->
  stripTimestamps (String c rest) = String c (stripTimestamps rest).
Proof. intros H. now rewrite (stripTimestamps_skip _ H). Qed.

Lemma matchTimestamp_needs_bracket (c : ascii) (rest : string) :
  Ascii.eqb c "[" = false -> matchTimestamp (String c rest) = None.
Proof. intros H. unfold matchTimestamp. cbn [expectChar]. now rewrite H. Qed.

Lemma untagged_text (body : string) :
  lacksChar "[" body = true -> execAll body = [] /\ stripTimestamps body = body.
Proof.
  induction body as [|c rest IH]; intros H.
  - split; reflexivity.
  - simpl in H. apply andb_true_iff in H as [Hc Hrest].
    apply negb_true_iff in Hc.
    pose proof (matchTimestamp_needs_bracket c rest Hc) as Hnone.
    destruct (IH Hrest) as [IH1 IH2].
    rewrite (execAll_no_match c rest Hnone), (stripTimestamps_no_match c rest Hnone).
    rewrite IH1, IH2. split; reflexivity.
Qed.

Lemma tagsText_cons (m : TimestampMatch) (ms : list TimestampMatch) (body : string) :
  tagsText (m :: ms) ++ body = tagText m ++ (tagsText ms ++ body).
Proof. unfold tagsText. cbn [map join fold_right]. apply append_assoc. Qed.

Lemma tagged_text (ms : list TimestampMatch) (body : string) :
  Forall wellFormedTag ms ->
  execAll (tagsText ms ++ body) = (ms ++ execAll body)%list /\
  stripTimestamps (tagsText ms ++ body) = stripTimestamps body.
Proof.
  induction 1 as [|m ms Hm _ [IH1 IH2]]; [split; reflexivity|].
  rewrite tagsText_cons.
  pose proof (matchTimestamp_complete m (tagsText ms ++ body) Hm) as Hmatch.
  rewrite (execAll_at_match _ _ _ Hmatch), (stripTimestamps_at_match _ _ _ Hmatch).
  rewrite IH1, IH2. split; reflexivity.
Qed.

(** X4.  A line that starts with one or more well-formed tags, followed by text
    without an opening bracket, yields one entry per tag, in the order of the
    tags, all with the same text: the rest of the line trimmed, or three dots
    when nothing is left. *)
Theorem lineEntries_of_tagged_line (ms : list TimestampMatch) (body : string) :
  Forall wellFormedTag ms ->
  lacksChar "[" body = true ->
  lineEntries (tagsText ms ++ body)
  = map (fun m => mkLyricLine (parseTimestampMs m) (orElse (trim body) "...")) ms.
Proof.
  intros Hms Hbody. unfold lineEntries.
  destruct (tagged_text ms body Hms) as [He Hs].
  destruct (untagged_text body Hbody) as [He' Hs'].
  rewrite He, Hs, He', Hs', app_nil_r.
  destruct ms as [|m ms]; [reflexivity|].
  cbn [map]. rewrite map_map. reflexivity.
Qed.

Lemma lineEntries_of_tagged_line_witness :
  let ms := [mkMatch "01" "15" (Some "5"); mkMatch "0" "07" None] in
  Forall wellFormedTag ms /\ lacksChar "[" " la la " = true /\
  tagsText ms ++ " la la " = "[01:15.5][0:07] la la " /\
  lineEntries "[01:15.5][0:07] la la "
  = [mkLyricLine 75500 "la la"; mkLyricLine 7000 "la la"].
Proof.
  intros ms.
  assert (Hms : Forall wellFormedTag ms).
  { repeat constructor; cbn; lia. }
  split; [exact Hms|]. split; [reflexivity|]. split; [reflexivity|].
  exact (lineEntries_of_tagged_line ms " la la " Hms eq_refl).
Defined.

(** ** Line splitting *)

Lemma concat_cons_line (c : ascii) (line : string) (lines : list string) :
  String.concat (String LF "") (String c line :: lines)
  = String c (String.concat (String LF "") (line :: lines)).
Proof. destruct lines; reflexivity. Qed.

Lemma splitLinesFrom_joined (content : string) :
  String.concat (String LF "")
    (fst (splitLinesFrom content) :: snd (splitLinesFrom content))
  = dropCarriageReturns content.
Proof.
  induction content as [|c rest IH]; [reflexivity|].
  cbn [splitLinesFrom dropCarriageReturns].
  destruct (splitLinesFrom rest) as [line lines] eqn:E. cbn [fst snd] in *.
  destruct (Ascii.eqb_spec c LF) as [->|Hc].
  - cbn [fst snd]. change (Ascii.eqb LF CR) with false. cbn [andb].
    rewrite <- IH. reflexivity.
  - destruct (Ascii.eqb c CR && _); cbn [fst snd].
    + exact IH.
    + rewrite concat_cons_line. now rewrite IH.
Qed.

Lemma splitLinesFrom_no_LF (content : string) :
  lacksChar LF (fst (splitLinesFrom content)) = true /\
  Forall (fun l => lacksChar LF l = true) (snd (splitLinesFrom content)).
Proof.
  induction content as [|c rest [IH1 IH2]]; [split; [reflexivity | constructor]|].
  cbn [splitLinesFrom].
  destruct (splitLinesFrom rest) as [line lines]. cbn [fst snd] in *.
  destruct (Ascii.eqb c LF) eqn:Ec; cbn [fst snd].
  - split; [reflexivity | now constructor].
  - destruct (Ascii.eqb c CR && _); cbn [fst snd]; [now split|].
    split; [|exact IH2]. cbn [lacksChar]. now rewrite Ec, IH1.
Qed.

Lemma dropCarriageReturns_without_CR (content : string) :
  lacksChar CR content = true -> dropCarriageReturns content = content.
Proof.
  induction content as [|c rest IH]; [reflexivity|].
  cbn [lacksChar dropCarriageReturns]. intros H.
  apply andb_true_iff in H as [Hc Hrest]. apply negb_true_iff in Hc.
  rewrite Hc. cbn [andb]. now rewrite IH.
Qed.

(** X5.  Splitting a text into lines loses nothing but the line ends: no line
    contains a line feed, and the lines joined by line feeds are the text with
    each CR LF pair replaced by LF, so the text itself when it has no carriage
    return. *)
Theorem splitLines_joined (content : string) :
  Forall (fun l => lacksChar LF l = true) (splitLines content) /\
  String.concat (String LF "") (splitLines content) = dropCarriageReturns content /\
  (lacksChar CR content = true ->
   String.concat (String LF "") (splitLines content) = content).
Proof.
  pose proof (splitLinesFrom_joined content) as Hj.
  pose proof (splitLinesFrom_no_LF content) as [H1 H2].
  unfold splitLines. destruct (splitLinesFrom content) as [line lines].
  cbn [fst snd] in *.
  split; [now constructor|]. split; [exact Hj|].
  intros Hcr. rewrite Hj. now apply dropCarriageReturns_without_CR.
Qed.

Lemma splitLines_joined_witness :
  lacksChar CR "one
two

four" = true /\
  String.concat (String LF "") (splitLines "one
two

four") = "one
two

four".
Proof.
  split; [reflexivity|].
  exact (proj2 (proj2 (splitLines_joined "one
two

four")) eq_refl).
Defined.

(** ** Further properties of the resolver *)

Lemma searchLoop_in_range (lines : list LyricLine) (currentMs : Q) (lo hi answer : Z) :
  (0 <= lo)%Z -> (hi < Z.of_nat (length lines))%Z ->
  (-1 <= answer < Z.of_nat (length lines))%Z ->
  ((0 <= answer)%Z -> exists l, lineAt lines answer = Some l /\ startedBy currentMs l) ->
  exists r, searchLoop lines currentMs lo hi answer = Some r /\
    (-1 <= r < Z.of_nat (length lines))%Z /\
    ((0 <= r)%Z -> exists l, lineAt lines r = Some l /\ startedBy currentMs l).
Proof.
  funelim (searchLoop lines currentMs lo hi answer); intros Hlo Hhi Hans Hstarted.
  - exists answer. auto.
  - exfalso. pose proof (proj1 (Z.leb_le _ _) Hle) as Hle'.
    assert (Hmid : (lo <= (lo + hi) / 2 <= hi)%Z)
      by (split; [apply Z.div_le_lower_bound | apply Z.div_le_upper_bound]; lia).
    destruct (lineAt_in_range lines ((lo + hi) / 2)) as [l Hl]; [lia|].
    congruence.
  - pose proof (proj1 (Z.leb_le _ _) Hle) as Hle'.
    assert (Hmid : (lo <= (lo + hi) / 2 <= hi)%Z)
      by (split; [apply Z.div_le_lower_bound | apply Z.div_le_upper_bound]; lia).
    match goal with IH : _ -> _ -> _ -> _ -> exists _, _ |- _ =>
      apply IH; clear IH end; try lia.
    intros _. exists line. split; [assumption|].
    unfold startedBy. now apply Qle_bool_iff.
  - pose proof (proj1 (Z.leb_le _ _) Hle) as Hle'.
    assert (Hmid : (lo <= (lo + hi) / 2 <= hi)%Z)
      by (split; [apply Z.div_le_lower_bound | apply Z.div_le_upper_bound]; lia).
    match goal with IH : _ -> _ -> _ -> _ -> exists _, _ |- _ =>
      apply IH; clear IH end; try lia; assumption.
Qed.

(** X6.  On any timeline, sorted or not, the resolver returns without raising,
    its result is [-1] or an index of the timeline, and a line it selects has
    started. *)
Theorem activeLyricIndex_in_range (lines : list LyricLine) (currentMs : Q) :
  exists r, activeLyricIndex lines currentMs = Some r /\
    (-1 <= r < Z.of_nat (length lines))%Z /\
    ((0 <= r)%Z -> exists l, lineAt lines r = Some l /\ startedBy currentMs l).
Proof.
  unfold activeLyricIndex. destruct lines as [|l0 rest] eqn:E.
  - exists (-1)%Z. split; [reflexivity|]. split; [cbn; lia | intros; lia].
  - rewrite <- E. apply searchLoop_in_range; lia.
Qed.

Lemma activeLyricIndex_in_range_witness :
  exists r,
    activeLyricIndex [mkLyricLine 3000 "late"; mkLyricLine 1000 "early"] 2000 = Some r /\
    (-1 <= r < 2)%Z /\
    ((0 <= r)%Z ->
     exists l, lineAt [mkLyricLine 3000 "late"; mkLyricLine 1000 "early"] r = Some l /\
               startedBy 2000 l).
Proof.
  exact (activeLyricIndex_in_range
           [mkLyricLine 3000 "late"; mkLyricLine 1000 "early"] 2000).
Defined.

Lemma activeLyricIndex_partition (lines : list LyricLine) (currentMs : Q) :
  ascendingByTime lines ->
  exists r, activeLyricIndex lines currentMs = Some r /\
    (-1 <= r < Z.of_nat (length lines))%Z /\
    (forall i l, lineAt lines i = Some l -> (i <= r)%Z -> startedBy currentMs l) /\
    (forall i l, lineAt lines i = Some l -> (r < i)%Z -> ~ startedBy currentMs l).
Proof.
  intros Hsorted. unfold activeLyricIndex. destruct lines as [|l0 rest] eqn:E.
  - exists (-1)%Z. split; [reflexivity|]. simpl. repeat split; try lia.
    + intros i l H. apply lineAt_In in H. destruct H.
    + intros i l H. apply lineAt_In in H. destruct H.
  - rewrite <- E in *. apply searchLoop_spec; auto; try lia.
    + intros i l H Hi. apply lineAt_Some in H. lia.
    + intros i l H Hi. apply lineAt_Some in H. lia.
Qed.

(** X7.  On a sorted timeline the active line never moves back as the playback
    position advances. *)
Theorem activeLyricIndex_monotone (lines : list LyricLine) (t1 t2 : Q) (r1 r2 : Z) :
  ascendingByTime lines ->
  (t1 <= t2)%Q ->
  activeLyricIndex lines t1 = Some r1 ->
  activeLyricIndex lines t2 = Some r2 ->
  (r1 <= r2)%Z.
Proof.
  intros Hsorted Ht H1 H2.
  destruct (activeLyricIndex_partition lines t1 Hsorted) as (r1' & E1 & R1 & B1 & _).
  destruct (activeLyricIndex_partition lines t2 Hsorted) as (r2' & E2 & R2 & _ & A2).
  assert (r1' = r1) by congruence. assert (r2' = r2) by congruence. subst r1' r2'.
  destruct (Z.le_gt_cases r1 r2) as [Hle|Hgt]; [exact Hle|]. exfalso.
  destruct (lineAt_in_range lines r1) as [l Hl]; [lia|].
  apply (A2 r1 l Hl Hgt).
  unfold startedBy. apply Qle_trans with t1; [|exact Ht].
  apply (B1 r1 l Hl). lia.
Qed.

Lemma activeLyricIndex_monotone_witness :
  let lines := [mkLyricLine 12500 "Hello"; mkLyricLine 15000 "World"] in
  ascendingByTime lines /\ (13000 # 1 <= 15000 # 1)%Q /\
  activeLyricIndex lines (13000 # 1) = Some 0%Z /\
  activeLyricIndex lines (15000 # 1) = Some 1%Z /\ (0 <= 1)%Z.
Proof.
  intros lines.
  assert (Hs : ascendingByTime lines) by (repeat constructor; simpl; lia).
  assert (Ht : (13000 # 1 <= 15000 # 1)%Q) by (vm_compute; discriminate).
  split; [exact Hs|]. split; [exact Ht|]. split; [reflexivity|]. split; [reflexivity|].
  exact (activeLyricIndex_monotone lines (13000 # 1) (15000 # 1) 0 1 Hs Ht eq_refl eq_refl).
Defined.

(** ** Further properties of the text fitter *)

Lemma trimStart_suffix (s : string) : exists pre, s = pre ++ trimStart s.
Proof.
  induction s as [|c s [pre IH]]; [exists ""; reflexivity|].
  cbn [trimStart]. destruct (isWhiteSpace c).
  - exists (String c pre). cbn. now rewrite <- IH.
  - exists "". reflexivity.
Qed.

Lemma trimStart_idempotent (s : string) : trimStart (trimStart s) = trimStart s.
Proof.
  destruct (trimStart_cases s) as [E|E]; [now rewrite E | now apply trimStart_visible].
Qed.

Lemma recorded_occurs (piece : string) : occursIn (orElse (trimStart piece) piece) piece.
Proof.
  unfold orElse. destruct (isEmpty (trimStart piece)); [apply occursIn_refl|].
  destruct (trimStart_suffix piece) as [pre E].
  exists pre, "". now rewrite append_nil_r.
Qed.

Lemma join_app (a b : list string) : join (a ++ b)%list = join a ++ join b.
Proof.
  unfold join. induction a as [|x a IH]; [reflexivity|].
  cbn [fold_right app]. now rewrite IH, append_assoc.
Qed.

Lemma join_firstn_skipn (k : nat) (l : list string) :
  join l = join (firstn k l) ++ join (skipn k l).
Proof. now rewrite <- join_app, firstn_skipn. Qed.

Lemma lastWindow_snoc (windows : list string) (w : string) :
  lastWindow (windows ++ [w])%list = Some w.
Proof. unfold lastWindow. now rewrite rev_unit. Qed.

Lemma lastWindow_pushDistinct (windows : list string) (w : string) :
  lastWindow (pushDistinct windows w) = Some w.
Proof.
  unfold pushDistinct. destruct (lastWindow windows) as [l|] eqn:E.
  - destruct (String.eqb_spec l w) as [->|_]; [exact E | apply lastWindow_snoc].
  - apply lastWindow_snoc.
Qed.

Lemma lastWindow_cons (a b : string) (windows : list string) :
  lastWindow (a :: b :: windows) = lastWindow (b :: windows).
Proof.
  unfold lastWindow. cbn [rev].
  destruct (rev windows ++ [b])%list as [|x xs] eqn:E.
  - destruct (rev windows); discriminate.
  - reflexivity.
Qed.

Lemma adjacentDistinct_snoc (windows : list string) (w : string) :
  adjacentDistinct windows -> lastWindow windows <> Some w ->
  adjacentDistinct (windows ++ [w])%list.
Proof.
  induction windows as [|a [|b rest] IH]; intros Hd Hlast.
  - exact I.
  - cbn. split; [|exact I]. intros ->. now apply Hlast.
  - destruct Hd as [Hab Hd]. rewrite lastWindow_cons in Hlast.
    change (a <> b /\ adjacentDistinct ((b :: rest) ++ [w])%list).
    split; [exact Hab | now apply IH].
Qed.

Lemma adjacentDistinct_pushDistinct (windows : list string) (w : string) :
  adjacentDistinct windows -> adjacentDistinct (pushDistinct windows w).
Proof.
  intros Hd. unfold pushDistinct. destruct (lastWindow windows) as [l|] eqn:E.
  - destruct (String.eqb_spec l w) as [->|Hne]; [exact Hd|].
    apply adjacentDistinct_snoc; [exact Hd | congruence].
  - apply adjacentDistinct_snoc; [exact Hd | congruence].
Qed.

Lemma pushDistinct_length (windows : list string) (w : string) :
  (length (pushDistinct windows w) <= S (length windows))%nat.
Proof.
  unfold pushDistinct.
  destruct (lastWindow windows) as [l|]; [destruct (l =? w)|];
    rewrite ?length_app; simpl; lia.
Qed.

Lemma pushDistinct_head (w0 : string) (windows : list string) (w : string) :
  exists tl, pushDistinct (w0 :: windows) w = w0 :: tl.
Proof.
  unfold pushDistinct.
  destruct (lastWindow (w0 :: windows)) as [l|]; [destruct (l =? w)|];
    cbn [app]; eauto.
Qed.

Section FitterMore.

Variable splitGraphemes : string -> list string.
Variable measureWidth : string -> Q.
Variable maxWidthPx : Q.

Lemma growCandidate_fits (rest : list string) (candidate : string) (reached : bool) :
  fst (growCandidate measureWidth maxWidthPx candidate reached rest) = candidate \/
  fits measureWidth maxWidthPx
    (fst (growCandidate measureWidth maxWidthPx candidate reached rest)) = true.
Proof.
  revert candidate reached.
  induction rest as [|g rest IH]; intros candidate reached; cbn [growCandidate].
  - now left.
  - destruct (fits measureWidth maxWidthPx (candidate ++ g)) eqn:E; [|now left].
    right. destruct (IH (candidate ++ g) (match rest with [] => true | _ => false end))
      as [H|H]; [now rewrite H | exact H].
Qed.

Lemma growCandidate_first_fails (g : string) (rest : list string) :
  g <> "" ->
  fst (growCandidate measureWidth maxWidthPx "" false (g :: rest)) = "" ->
  fits measureWidth maxWidthPx g = false.
Proof.
  intros Hg. cbn [growCandidate append].
  destruct (fits measureWidth maxWidthPx g) eqn:E; [|reflexivity].
  destruct (growCandidate_prefix measureWidth maxWidthPx rest g
              (match rest with [] => true | _ => false end)) as (k & _ & Hfst & _).
  rewrite Hfst. intros H. destruct g; [congruence | discriminate].
Qed.

Lemma growCandidate_single (g : string) :
  growCandidate measureWidth maxWidthPx "" false [g]
  = if fits measureWidth maxWidthPx g then (g, true) else ("", false).
Proof. cbn. now destruct (fits measureWidth maxWidthPx g). Qed.

Lemma finalWindowOf_recorded (g candidate : string) :
  recordedFrom (if isEmpty candidate then g else candidate) (finalWindowOf g candidate).
Proof. reflexivity. Qed.

(** Every window the scan adds is recorded from a run of consecutive
    graphemes. *)
Lemma scanWindows_occur (whole : string) (rest : list string) (windows : list string) :
  (forall w, In w windows -> occursIn w whole) ->
  occursIn (join rest) whole ->
  forall w, In w (scanWindows measureWidth maxWidthPx windows rest) -> occursIn w whole.
Proof.
  revert windows.
  induction rest as [|g rest IH]; intros windows Hwin Hrest; [exact Hwin|].
  cbn [scanWindows].
  destruct (growCandidate_prefix measureWidth maxWidthPx (g :: rest) "" false)
    as (k & _ & Hfst & _).
  destruct (growCandidate measureWidth maxWidthPx "" false (g :: rest))
    as [candidate reached].
  cbn [fst] in Hfst. simpl append in Hfst. subst candidate.
  set (fw := finalWindowOf g (join (firstn k (g :: rest)))).
  assert (Hfw : occursIn fw whole).
  { apply occursIn_trans with (join (g :: rest)); [|exact Hrest].
    subst fw. unfold finalWindowOf.
    eapply occursIn_trans; [apply recorded_occurs|].
    destruct (isEmpty (join (firstn k (g :: rest)))).
    - apply occursIn_append_l, occursIn_refl.
    - rewrite (join_firstn_skipn k (g :: rest)).
      apply occursIn_append_l, occursIn_refl. }
  assert (Hpush : forall w, In w (pushDistinct windows fw) -> occursIn w whole).
  { intros w Hw. apply pushDistinct_subset in Hw as [Hw|Hw]; [now apply Hwin | now subst]. }
  destruct reached; [exact Hpush|].
  apply IH; [exact Hpush|].
  apply occursIn_trans with (join (g :: rest)); [|exact Hrest].
  apply occursIn_append_r, occursIn_refl.
Qed.

Lemma scanWindows_adjacentDistinct (rest : list string) (windows : list string) :
  adjacentDistinct windows ->
  adjacentDistinct (scanWindows measureWidth maxWidthPx windows rest).
Proof.
  revert windows. induction rest as [|g rest IH]; intros windows Hd; [exact Hd|].
  cbn [scanWindows].
  destruct (growCandidate measureWidth maxWidthPx "" false (g :: rest))
    as [candidate reached].
  destruct reached; [|apply IH]; now apply adjacentDistinct_pushDistinct.
Qed.

Lemma scanWindows_length (rest : list string) (windows : list string) :
  (length (scanWindows measureWidth maxWidthPx windows rest)
   <= length windows + length rest)%nat.
Proof.
  revert windows. induction rest as [|g rest IH]; intros windows; [simpl; lia|].
  cbn [scanWindows].
  destruct (growCandidate measureWidth maxWidthPx "" false (g :: rest))
    as [candidate reached].
  pose proof (pushDistinct_length windows (finalWindowOf g candidate)) as Hp.
  destruct reached; [simpl; lia|].
  specialize (IH (pushDistinct windows (finalWindowOf g candidate))). simpl. lia.
Qed.

Lemma scanWindows_head (w0 : string) (windows rest : list string) :
  exists tl, scanWindows measureWidth maxWidthPx (w0 :: windows) rest = w0 :: tl.
Proof.
  revert windows. induction rest as [|g rest IH]; intros windows;
    [exists windows; reflexivity|].
  cbn [scanWindows].
  destruct (growCandidate measureWidth maxWidthPx "" false (g :: rest))
    as [candidate reached].
  destruct (pushDistinct_head w0 windows (finalWindowOf g candidate)) as [tl ->].
  destruct reached; [exists tl; reflexivity | apply IH].
Qed.

(** The scan ends on a window recorded from a tail of the graphemes. *)
Lemma scanWindows_last (rest : list string) (windows : list string) :
  rest <> [] ->
  exists pre suf, join rest = pre ++ suf /\
    lastWindow (scanWindows measureWidth maxWidthPx windows rest)
    = Some (orElse (trimStart suf) suf).
Proof.
  revert windows. induction rest as [|g rest IH]; intros windows Hne; [congruence|].
  cbn [scanWindows].
  destruct (growCandidate_prefix measureWidth maxWidthPx (g :: rest) "" false)
    as (k & _ & Hfst & Hsnd).
  pose proof (growCandidate_single g) as Hsingle.
  destruct (growCandidate measureWidth maxWidthPx "" false (g :: rest))
    as [candidate reached] eqn:Egrow.
  cbn [fst snd] in Hfst, Hsnd. simpl append in Hfst.
  destruct reached.
  - destruct (Hsnd eq_refl) as [Hr|Hr]; [discriminate|].
    rewrite Hr, firstn_all in Hfst. subst candidate.
    exists "", (join (g :: rest)). split; [reflexivity|].
    rewrite lastWindow_pushDistinct. f_equal. unfold finalWindowOf.
    destruct (isEmpty (join (g :: rest))) eqn:E; [|reflexivity].
    apply isEmpty_true in E. rewrite E.
    cbn [join fold_right] in E. destruct g; [reflexivity | discriminate].
  - destruct rest as [|g' rest'].
    + rewrite Egrow in Hsingle.
      destruct (fits measureWidth maxWidthPx g); [discriminate|].
      injection Hsingle as ->.
      exists "", g. split; [cbn; now rewrite append_nil_r|].
      cbn [scanWindows]. now rewrite lastWindow_pushDistinct.
    + destruct (IH (pushDistinct windows (finalWindowOf g candidate)))
        as (pre & suf & Hjoin & Hlast); [discriminate|].
      exists (g ++ pre), suf. split; [|exact Hlast].
      change (join (g :: g' :: rest')) with (g ++ join (g' :: rest')).
      now rewrite Hjoin, append_assoc.
Qed.

End FitterMore.

Lemma fits_recorded (measureWidth : string -> Q) (maxWidthPx : Q) (piece : string) :
  fits measureWidth maxWidthPx piece = true ->
  fits measureWidth maxWidthPx (orElse (trimStart piece) piece) = true.
Proof.
  unfold orElse. destruct (isEmpty (trimStart piece)); [auto|].
  unfold fits. now rewrite trimStart_idempotent.
Qed.

Lemma scanWindows_fit (measureWidth : string -> Q) (maxWidthPx : Q)
      (graphemes rest windows : list string) :
  let ok w := fits measureWidth maxWidthPx w = true \/
              exists g, In g graphemes /\ fits measureWidth maxWidthPx g = false /\
                        recordedFrom g w in
  (forall g, In g rest -> g <> "" /\ In g graphemes) ->
  Forall ok windows ->
  Forall ok (scanWindows measureWidth maxWidthPx windows rest).
Proof.
  intros ok. revert windows.
  induction rest as [|g rest IH]; intros windows Hrest Hwin; [exact Hwin|].
  cbn [scanWindows].
  pose proof (growCandidate_fits measureWidth maxWidthPx (g :: rest) "" false) as Hfits.
  pose proof (growCandidate_first_fails measureWidth maxWidthPx g rest) as Hfail.
  destruct (growCandidate measureWidth maxWidthPx "" false (g :: rest))
    as [candidate reached].
  cbn [fst] in Hfits, Hfail.
  destruct (Hrest g (or_introl eq_refl)) as [Hg HgIn].
  assert (Hfw : ok (finalWindowOf g candidate)).
  { unfold finalWindowOf. destruct (isEmpty candidate) eqn:E.
    - apply isEmpty_true in E. right. exists g.
      split; [exact HgIn|]. split; [now apply Hfail | reflexivity].
    - left. apply fits_recorded.
      destruct Hfits as [H|H]; [subst candidate; discriminate | exact H]. }
  assert (Hpush : Forall ok (pushDistinct windows (finalWindowOf g candidate))).
  { apply Forall_forall. intros w Hw.
    apply pushDistinct_subset in Hw as [Hw|Hw]; [|now subst].
    revert w Hw. now apply Forall_forall. }
  destruct reached; [exact Hpush|].
  apply IH; [|exact Hpush]. intros g' Hg'. apply Hrest. now right.
Qed.

(** X9.  Every returned window stands in the text as it is: the fitter shows
    pieces of the line and nothing else. *)
Theorem fitter_windows_occur_in_text
  (splitGraphemes : string -> list string) (measureWidth : string -> Q)
  (maxWidthPx : Q) (content : string) :
  LawfulSegmenter splitGraphemes ->
  forall w, In w (buildFittingWindows splitGraphemes measureWidth maxWidthPx content) ->
            occursIn w content.
Proof.
  intros Hseg w. unfold buildFittingWindows.
  destruct (isEmpty (trim content)).
  { intros [<-|[]]. apply occursIn_nil. }
  destruct (fits measureWidth maxWidthPx content).
  { intros [<-|[]]. destruct (trimStart_suffix content) as [pre E].
    exists pre, "". now rewrite append_nil_r. }
  pose proof (scanWindows_occur measureWidth maxWidthPx content
                (splitGraphemes content) []) as Hscan.
  destruct (scanWindows measureWidth maxWidthPx [] (splitGraphemes content)) as [|w0 ws].
  { intros [<-|[]]. apply occursIn_refl. }
  apply Hscan; [intros ? [] | rewrite segments_join; apply occursIn_refl].
Qed.

Lemma fitter_windows_occur_in_text_witness :
  LawfulSegmenter arrayFrom /\
  In "quick bro" (buildFittingWindows arrayFrom fallbackMeasureWidth (72 # 1)
                    "The quick brown fox") /\
  occursIn "quick bro" "The quick brown fox".
Proof.
  split; [exact arrayFrom_lawful|].
  assert (H : In "quick bro" (buildFittingWindows arrayFrom fallbackMeasureWidth (72 # 1)
                                "The quick brown fox")).
  { vm_compute. tauto. }
  split; [exact H|].
  exact (fitter_windows_occur_in_text arrayFrom fallbackMeasureWidth (72 # 1)
           "The quick brown fox" arrayFrom_lawful "quick bro" H).
Defined.

(** X10.  For a text that is not blank, every returned window is within the
    width (measured, as the fitter does, without leading white space), except
    for a window recorded from a single grapheme that alone is too wide. *)
Theorem fitter_windows_within_width
  (splitGraphemes : string -> list string) (measureWidth : string -> Q)
  (maxWidthPx : Q) (content : string) :
  LawfulSegmenter splitGraphemes ->
  hasVisible content = true ->
  forall w, In w (buildFittingWindows splitGraphemes measureWidth maxWidthPx content) ->
    (measureWidth (trimStart w) <= maxWidthPx)%Q \/
    exists g, In g (splitGraphemes content) /\
              ~ (measureWidth (trimStart g) <= maxWidthPx)%Q /\
              recordedFrom g w.
Proof.
  intros Hseg Hvis w Hw.
  assert (Hok : fits measureWidth maxWidthPx w = true \/
              exists g, In g (splitGraphemes content) /\
                        fits measureWidth maxWidthPx g = false /\ recordedFrom g w).
  { revert w Hw. apply Forall_forall. unfold buildFittingWindows.
    destruct (isEmpty (trim content)) eqn:Etrim.
    { apply trim_empty in Etrim. congruence. }
    destruct (fits measureWidth maxWidthPx content) eqn:Efit.
    { constructor; [|constructor]. left. unfold fits in *.
      now rewrite trimStart_idempotent. }
    pose proof (scanWindows_fit measureWidth maxWidthPx (splitGraphemes content)
                  (splitGraphemes content) []) as Hscan.
    cbv zeta in Hscan.
    destruct (scanWindows measureWidth maxWidthPx [] (splitGraphemes content)) as [|w0 ws] eqn:E.
    - exfalso. pose proof (segments_join content) as Hjoin.
      destruct (splitGraphemes content) as [|g gs] eqn:Eg.
      + cbn in Hjoin. subst content. discriminate.
      + clear Hscan. cbn [scanWindows] in E.
        destruct (growCandidate measureWidth maxWidthPx "" false (g :: gs)) as [c r].
        pose proof (pushDistinct_In [] (finalWindowOf g c)) as Hin.
        pose proof (scanWindows_covers measureWidth maxWidthPx gs
                      (pushDistinct [] (finalWindowOf g c))) as [Hincl _].
        destruct r; [rewrite E in Hin; destruct Hin|].
        apply Hincl in Hin. rewrite E in Hin. destruct Hin.
    - apply Hscan; [|constructor].
      intros g Hg. split; [now apply (segments_nonempty content) | exact Hg]. }
  destruct Hok as [H|(g & Hg & Hfail & Hrec)].
  - left. now apply Qle_bool_iff.
  - right. exists g. split; [exact Hg|]. split; [|exact Hrec].
    unfold fits in Hfail. rewrite <- Qle_bool_iff. congruence.
Qed.

Lemma fitter_windows_within_width_witness :
  LawfulSegmenter arrayFrom /\ hasVisible " ab" = true /\
  In "a" (buildFittingWindows arrayFrom fallbackMeasureWidth (4 # 1) " ab") /\
  ((fallbackMeasureWidth (trimStart "a") <= 4 # 1)%Q \/
   exists g, In g (arrayFrom " ab") /\
             ~ (fallbackMeasureWidth (trimStart g) <= 4 # 1)%Q /\ recordedFrom g "a").
Proof.
  split; [exact arrayFrom_lawful|]. split; [reflexivity|].
  assert (H : In "a" (buildFittingWindows arrayFrom fallbackMeasureWidth (4 # 1) " ab")).
  { vm_compute. tauto. }
  split; [exact H|].
  exact (fitter_windows_within_width arrayFrom fallbackMeasureWidth (4 # 1) " ab"
           arrayFrom_lawful eq_refl "a" H).
Defined.

(** X11.  No returned window is followed by an equal one. *)
Theorem fitter_windows_adjacent_distinct
  (splitGraphemes : string -> list string) (measureWidth : string -> Q)
  (maxWidthPx : Q) (content : string) :
  adjacentDistinct (buildFittingWindows splitGraphemes measureWidth maxWidthPx content).
Proof.
  unfold buildFittingWindows.
  destruct (isEmpty (trim content)); [exact I|].
  destruct (fits measureWidth maxWidthPx content); [exact I|].
  pose proof (scanWindows_adjacentDistinct measureWidth maxWidthPx
                (splitGraphemes content) [] I) as H.
  destruct (scanWindows measureWidth maxWidthPx [] (splitGraphemes content));
    [exact I | exact H].
Qed.

(** X12.  The first window is recorded from a head of the text and the last
    window from a tail of it: the ticker starts at the start of the line and
    ends at its end. *)
Theorem fitter_first_and_last_window
  (splitGraphemes : string -> list string) (measureWidth : string -> Q)
  (maxWidthPx : Q) (content : string) :
  LawfulSegmenter splitGraphemes ->
  (exists head rest, content = head ++ rest /\
     exists first, hd_error (buildFittingWindows splitGraphemes measureWidth maxWidthPx content)
                   = Some first /\ recordedFrom head first) /\
  (exists rest tail, content = rest ++ tail /\
     exists last, lastWindow (buildFittingWindows splitGraphemes measureWidth maxWidthPx content)
                  = Some last /\ recordedFrom tail last).
Proof.
  intros Hseg. unfold buildFittingWindows, recordedFrom.
  destruct (isEmpty (trim content)) eqn:Etrim.
  { split.
    - exists "", content. split; [reflexivity|]. exists "". split; reflexivity.
    - exists content, "". split; [now rewrite append_nil_r|]. exists "". split; reflexivity. }
  assert (Hne : trimStart content <> "").
  { intros E. apply trimStart_empty in E. apply trim_empty in E. congruence. }
  assert (Hrec : orElse (trimStart content) content = trimStart content).
  { unfold orElse. apply isEmpty_false in Hne. now rewrite Hne. }
  destruct (fits measureWidth maxWidthPx content).
  { split.
    - exists content, "". split; [now rewrite append_nil_r|].
      exists (trimStart content). split; [reflexivity | now rewrite Hrec].
    - exists "", content. split; [reflexivity|].
      exists (trimStart content). split; [reflexivity | now rewrite Hrec]. }
  pose proof (segments_join content) as Hjoin.
  destruct (splitGraphemes content) as [|g gs] eqn:Eg.
  { cbn in Hjoin. subst content. discriminate. }
  destruct (scanWindows_last measureWidth maxWidthPx (g :: gs) [])
    as (pre & suf & Hsplit & Hlast); [discriminate|].
  destruct (growCandidate_prefix measureWidth maxWidthPx (g :: gs) "" false)
    as (k & _ & Hfst & _).
  assert (Hfirst : exists tl, scanWindows measureWidth maxWidthPx [] (g :: gs)
                   = finalWindowOf g (join (firstn k (g :: gs))) :: tl).
  { cbn [scanWindows].
    destruct (growCandidate measureWidth maxWidthPx "" false (g :: gs)) as [c r].
    cbn [fst] in Hfst. simpl append in Hfst. subst c.
    change (pushDistinct [] ?w) with [w].
    destruct r; [exists []; reflexivity | apply scanWindows_head]. }
  destruct Hfirst as [tl Hscan]. rewrite Hscan in *.
  split.
  - set (cand := join (firstn k (g :: gs))) in *.
    exists (if isEmpty cand then g else cand).
    destruct (isEmpty cand) eqn:E.
    + exists (join gs). split; [now rewrite <- Hjoin|].
      eexists. split; [reflexivity|]. unfold finalWindowOf. now rewrite E.
    + exists (join (skipn k (g :: gs))). split.
      * rewrite <- Hjoin. subst cand. apply join_firstn_skipn.
      * eexists. split; [reflexivity|]. unfold finalWindowOf. now rewrite E.
  - exists pre, suf. split; [now rewrite <- Hjoin|].
    eexists. split; [exact Hlast | reflexivity].
Qed.

Lemma fitter_first_and_last_window_witness :
  LawfulSegmenter arrayFrom /\
  hd_error (buildFittingWindows arrayFrom fallbackMeasureWidth (72 # 1)
              "The quick brown fox") = Some "The quick" /\
  lastWindow (buildFittingWindows arrayFrom fallbackMeasureWidth (72 # 1)
                "The quick brown fox") = Some "brown fox" /\
  exists rest tail, "The quick brown fox" = rest ++ tail /\
     exists last, lastWindow (buildFittingWindows arrayFrom fallbackMeasureWidth (72 # 1)
                                "The quick brown fox") = Some last /\
                  recordedFrom tail last.
Proof.
  split; [exact arrayFrom_lawful|]. split; [reflexivity|]. split; [reflexivity|].
  exact (proj2 (fitter_first_and_last_window arrayFrom fallbackMeasureWidth (72 # 1)
                  "The quick brown fox" arrayFrom_lawful)).
Defined.

(** X13.  There is at least one window and at most one per grapheme of the
    text. *)
Theorem fitter_window_count
  (splitGraphemes : string -> list string) (measureWidth : string -> Q)
  (maxWidthPx : Q) (content : string) :
  (1 <= length (buildFittingWindows splitGraphemes measureWidth maxWidthPx content)
     <= Nat.max 1 (length (splitGraphemes content)))%nat.
Proof.
  unfold buildFittingWindows.
  destruct (isEmpty (trim content)); [cbn [length]; lia|].
  destruct (fits measureWidth maxWidthPx content); [cbn [length]; lia|].
  pose proof (scanWindows_length measureWidth maxWidthPx (splitGraphemes content) []) as H.
  destruct (scanWindows measureWidth maxWidthPx [] (splitGraphemes content));
    cbn [length] in *; lia.
Qed.

(** ** Further properties of the scroll calculator *)











(** ** The lyric window *)






Lemma buildFittingWindows_blank splitGraphemes measureWidth maxWidthPx :
  buildFittingWindows splitGraphemes measureWidth maxWidthPx "" = [""].
Proof. reflexivity. Qed.



(** ** The payload *)

Lemma placeholder_cases (value : string) :
  (hasVisible value = true /\ metadataFieldValueOrPlaceholder value = value) \/
  (hasVisible value = false /\
   metadataFieldValueOrPlaceholder value = EMPTY_METADATA_PLACEHOLDER).
Proof.
  unfold metadataFieldValueOrPlaceholder.
  destruct (hasVisible value) eqn:E.
  - left. split; [reflexivity|].
    destruct (trim value) eqn:Et; [|reflexivity].
    assert (isEmpty (trim value) = true) by (now rewrite Et).
    apply trim_empty in H. congruence.
  - right. split; [reflexivity|].
    apply trim_empty, isEmpty_true in E. now rewrite E.
Qed.

Lemma placeholder_not_empty (value : string) :
  metadataFieldValueOrPlaceholder value <> "".
Proof.
  destruct (placeholder_cases value) as [[Hv ->]|[_ ->]]; [|discriminate].
  intros ->. discriminate.
Qed.

(** X18.  No field of a composed payload is the empty string: a source text
    with a visible character is passed on unchanged, and a blank one is
    replaced by the single-space placeholder.  The artwork is that of the
    track. *)
Theorem composePayload_fields_never_empty
  (usesLyricsWindow : bool) (w : LyricWindow) (fieldMapping : FieldMapping)
  (currentMetadata : TrackMetadata) :
  let p := composePayload usesLyricsWindow w fieldMapping currentMetadata in
  title p <> "" /\ artist p <> "" /\ album p <> "" /\
  artworkUrl p = trackArtworkUrl currentMetadata /\
  (usesLyricsWindow = false ->
   hasVisible (trackTitle currentMetadata) = true ->
   hasVisible (trackArtist currentMetadata) = true ->
   hasVisible (trackAlbum currentMetadata) = true ->
   p = mkPayload (trackTitle currentMetadata) (trackArtist currentMetadata)
                 (trackAlbum currentMetadata) (trackArtworkUrl currentMetadata)) /\
  (usesLyricsWindow = true -> w = mkLyricWindow "" "" "" ->
   p = mkPayload " " " " " " (trackArtworkUrl currentMetadata)).
Proof.
  intros p. subst p. unfold composePayload. cbn [title artist album artworkUrl].
  repeat (split; [apply placeholder_not_empty|]).
  split; [reflexivity|]. split.
  - intros -> Ht Ha Hb.
    destruct (placeholder_cases (trackTitle currentMetadata)) as [[_ ->]|[E _]]; [|congruence].
    destruct (placeholder_cases (trackArtist currentMetadata)) as [[_ ->]|[E _]]; [|congruence].
    destruct (placeholder_cases (trackAlbum currentMetadata)) as [[_ ->]|[E _]]; [|congruence].
    reflexivity.
  - intros -> ->.
    destruct (titleRole fieldMapping), (artistRole fieldMapping), (albumRole fieldMapping);
      reflexivity.
Qed.

Lemma composePayload_fields_never_empty_witness :
  composePayload false (mkLyricWindow "" "" "") DEFAULT_FIELD_MAPPING
    (mkTrackMetadata "Song" "Artist" "Album" None)
  = mkPayload "Song" "Artist" "Album" None.
Proof.
  apply (proj1 (proj2 (proj2 (proj2 (proj2
           (composePayload_fields_never_empty false (mkLyricWindow "" "" "")
              DEFAULT_FIELD_MAPPING (mkTrackMetadata "Song" "Artist" "Album" None)))))));
    reflexivity.
Defined.

(** ** Further properties of the throttler *)

Lemma sameSignature_refl (p : BluetoothMetadataPayload) : sameSignature p p = true.
Proof.
  unfold sameSignature. rewrite !String.eqb_refl. cbn.
  destruct (artworkUrl p); cbn; [apply String.eqb_refl | reflexivity].
Qed.

Lemma step_pendingArmed (interval : Z) (st : ThrottleState) (e : ThrottleEvent) :
  pendingArmed interval st -> pendingArmed interval (fst (step interval st e)).
Proof.
  unfold pendingArmed. destruct st as [last sig pending timer].
  cbn [pendingMetadata metadataFlushTimer lastMetadataSentAt].
  intros Hinv. destruct e as [now p|now|now]; cbn [step].
  - unfold onPayload. destruct (isLastSent _ _ && isNone _); [exact Hinv|].
    cbn [lastMetadataSentAt].
    destruct (Z.leb_spec interval (now - last)) as [Hel|Hel]; [exact I|].
    destruct pending as [q|], timer as [due|]; cbn; try contradiction; [exact Hinv | lia].
  - unfold onTimer. destruct pending as [q|], timer as [due|]; cbn; try contradiction; exact I.
  - exact I.
Qed.

(** X19.  In every state the throttler reaches, a payload is pending exactly
    while the timer is armed, and the armed timer is due exactly one interval
    after the last send: a deferred payload never waits without a timer. *)
Theorem throttle_pending_iff_armed
  (interval : Z) (st : ThrottleState) (events : list ThrottleEvent) :
  pendingArmed interval st ->
  pendingArmed interval (fst (run interval st events)).
Proof.
  revert st. induction events as [|e rest IH]; intros st Hinv; [exact Hinv|].
  cbn [run]. pose proof (step_pendingArmed interval st e Hinv) as Hstep.
  destruct (step interval st e) as [st1 sent1]. specialize (IH st1 Hstep).
  destruct (run interval st1 rest) as [st2 sent2]. exact IH.
Qed.

Lemma throttle_pending_iff_armed_witness :
  pendingArmed 1000 initialThrottle /\
  pendingArmed 1000
    (fst (run 1000 initialThrottle
            [Candidate 5000 payloadA; Candidate 5200 payloadB; Candidate 5700 payloadC])) /\
  fst (run 1000 initialThrottle
         [Candidate 5000 payloadA; Candidate 5200 payloadB; Candidate 5700 payloadC])
  = mkThrottle 5000 (Some payloadA) (Some payloadC) (Some 6000%Z).
Proof.
  split; [exact I|]. split; [|reflexivity].
  exact (throttle_pending_iff_armed 1000 initialThrottle
           [Candidate 5000 payloadA; Candidate 5200 payloadB; Candidate 5700 payloadC] I).
Defined.

Lemma step_latestHeld (interval : Z) (st : ThrottleState) (e : ThrottleEvent)
      (latest : option BluetoothMetadataPayload) :
  latestHeld st latest ->
  latestHeld (fst (step interval st e))
    (match e with
     | Candidate _ p => Some p
     | TimerFired _ => latest
     | NoMetadata _ => None
     end).
Proof.
  destruct st as [last sig pending timer]. unfold latestHeld.
  cbn [pendingMetadata]. intros Hinv.
  destruct e as [now p|now|now]; cbn [step]; [| |exact I].
  - unfold onPayload.
    destruct (isLastSent _ p && isNone _) eqn:Hdup.
    + apply andb_true_iff in Hdup as [Hsame Hnone]. cbn [fst pendingMetadata] in *.
      destruct pending; [discriminate | exact Hsame].
    + cbn [lastMetadataSentAt].
      destruct (Z.leb_spec interval (now - last)).
      * cbn. unfold isLastSent. cbn. apply sameSignature_refl.
      * destruct timer; reflexivity.
  - unfold onTimer. cbn. destruct latest as [p|]; [|exact I].
    destruct pending as [q|]; cbn.
    + subst q. unfold isLastSent. cbn. apply sameSignature_refl.
    + exact Hinv.
Qed.

Lemma run_latestHeld (interval : Z) (events : list ThrottleEvent) (st : ThrottleState)
      (latest : option BluetoothMetadataPayload) :
  latestHeld st latest ->
  latestHeld (fst (run interval st events))
    (fold_left (fun latest e =>
                  match e with
                  | Candidate _ p => Some p
                  | TimerFired _ => latest
                  | NoMetadata _ => None
                  end) events latest).
Proof.
  revert st latest. induction events as [|e rest IH]; intros st latest Hinv; [exact Hinv|].
  cbn [run fold_left]. pose proof (step_latestHeld interval st e latest Hinv) as Hstep.
  destruct (step interval st e) as [st1 sent1]. cbn [fst] in Hstep.
  specialize (IH st1 _ Hstep).
  destruct (run interval st1 rest) as [st2 sent2]. exact IH.
Qed.

(** X20.  No update is lost: after any run, the payload of the latest
    candidate is either still pending or equal to the payload sent last. *)
Theorem throttle_latest_candidate_held
  (interval : Z) (events : list ThrottleEvent) (p : BluetoothMetadataPayload) :
  latestCandidate events = Some p ->
  let st := fst (run interval initialThrottle events) in
  pendingMetadata st = Some p \/
  (pendingMetadata st = None /\ isLastSent st p = true).
Proof.
  intros Hlatest st.
  pose proof (run_latestHeld interval events initialThrottle None I) as H.
  fold (latestCandidate events) in H. rewrite Hlatest in H.
  fold st in H. unfold latestHeld in H.
  destruct (pendingMetadata st) as [q|]; [left; now subst | right; now split].
Qed.

Lemma throttle_latest_candidate_held_witness :
  let events := [Candidate 5000 payloadA; Candidate 5200 payloadB;
                 Candidate 5700 payloadC; TimerFired 6003] in
  latestCandidate events = Some payloadC /\
  (pendingMetadata (fst (run 1000 initialThrottle events)) = Some payloadC \/
   (pendingMetadata (fst (run 1000 initialThrottle events)) = None /\
    isLastSent (fst (run 1000 initialThrottle events)) payloadC = true)).
Proof.
  intros events. split; [reflexivity|].
  exact (throttle_latest_candidate_held 1000 events payloadC eq_refl).
Defined.

(** ** Track navigation *)

Lemma findIndex_range (ids : list string) (currentTrackId : option string) :
  (-1 <= findIndex ids currentTrackId < Z.of_nat (length ids))%Z.
Proof.
  induction ids as [|id rest IH]; cbn [findIndex length]; [lia|].
  destruct (match currentTrackId with Some c => (id =? c) | None => false end); [lia|].
  destruct (Z.ltb_spec (findIndex rest currentTrackId) 0); lia.
Qed.

(** X21.  With at least one track, the index played next and the index played
    before are always indexes of the track list, also when no track is current
    (index -1); from a current track, next then previous, and previous then
    next, lead back to it. *)
Theorem track_navigation_wraps (ids : list string) (currentTrackId : option string) :
  ids <> [] ->
  let n := Z.of_nat (length ids) in
  let i := findIndex ids currentTrackId in
  (0 <= nextIndex n i < n)%Z /\ (0 <= prevIndex n i < n)%Z /\
  ((0 <= i)%Z -> prevIndex n (nextIndex n i) = i /\ nextIndex n (prevIndex n i) = i) /\
  (i = (-1)%Z -> nextIndex n i = 0%Z /\ prevIndex n i = (n - 1)%Z).
Proof.
  intros Hne n i.
  assert (Hn : (1 <= n)%Z) by (subst n; destruct ids; [congruence | cbn [length]; lia]).
  pose proof (findIndex_range ids currentTrackId) as Hi. fold n i in Hi.
  unfold nextIndex, prevIndex.
  repeat match goal with
         | |- context [(?a <=? ?b)%Z] => destruct (Z.leb_spec a b)
         end; lia.
Qed.

Lemma track_navigation_wraps_witness :
  let ids := ["a/1.mp3"; "a/2.mp3"; "b/3.flac"] in
  ids <> [] /\
  findIndex ids (Some "b/3.flac") = 2%Z /\
  nextIndex 3 (findIndex ids (Some "b/3.flac")) = 0%Z /\
  prevIndex 3 (findIndex ids None) = 2%Z /\
  (0 <= nextIndex (Z.of_nat (length ids)) (findIndex ids None) < Z.of_nat (length ids))%Z.
Proof.
  intros ids.
  assert (H : ids <> []) by discriminate.
  split; [exact H|].
  split; [reflexivity|]. split; [reflexivity|]. split; [reflexivity|].
  exact (proj1 (track_navigation_wraps ids None H)).
Defined.

(** ** Paths and file names *)

Lemma splitOnFrom_plain (sep : ascii) (a : string) :
  lacksChar sep a = true -> splitOnFrom sep a = (a, []).
Proof.
  induction a as [|c a IH]; [reflexivity|]. cbn [lacksChar splitOnFrom].
  intros H. apply andb_true_iff in H as [Hc Ha]. apply negb_true_iff in Hc.
  now rewrite (IH Ha), Hc.
Qed.

Lemma splitOnFrom_app (sep : ascii) (a r : string) :
  lacksChar sep a = true ->
  splitOnFrom sep (a ++ String sep r) = (a, splitOn sep r).
Proof.
  induction a as [|c a IH]; cbn [lacksChar append splitOnFrom].
  - intros _. unfold splitOn. destruct (splitOnFrom sep r).
    now rewrite Ascii.eqb_refl.
  - intros H. apply andb_true_iff in H as [Hc Ha]. apply negb_true_iff in Hc.
    now rewrite (IH Ha), Hc.
Qed.

Lemma concat_cons2 (sep x y : string) (l : list string) :
  String.concat sep (x :: y :: l) = x ++ sep ++ String.concat sep (y :: l).
Proof. reflexivity. Qed.

Lemma splitOn_concat (sep : ascii) (segs : list string) :
  segs <> [] ->
  Forall (fun s => lacksChar sep s = true) segs ->
  splitOn sep (String.concat (String sep "") segs) = segs.
Proof.
  induction segs as [|x [|y l] IH]; intros Hne Hall; [congruence| |].
  - inversion Hall; subst. cbn [String.concat]. unfold splitOn.
    now rewrite splitOnFrom_plain.
  - inversion Hall as [|? ? Hx Hrest]; subst.
    rewrite concat_cons2. cbn [append]. unfold splitOn at 1.
    rewrite splitOnFrom_app by exact Hx.
    rewrite IH; [reflexivity | discriminate | exact Hrest].
Qed.

Lemma concat_snoc (sep : string) (l : list string) (x : string) :
  l <> [] -> String.concat sep (l ++ [x]) = String.concat sep l ++ sep ++ x.
Proof.
  induction l as [|a [|b l] IH]; intros Hne; [congruence|reflexivity|].
  change ((a :: b :: l) ++ [x])%list with (a :: (b :: l) ++ [x])%list.
  cbn [app]. rewrite !concat_cons2.
  change (b :: (l ++ [x]))%list with ((b :: l) ++ [x])%list.
  rewrite IH by discriminate. now rewrite !append_assoc.
Qed.

Lemma fold_pathJoin_from (l : list string) (acc : string) :
  acc <> "" -> fold_left pathJoin l acc = String.concat "/" (acc :: l).
Proof.
  revert acc. induction l as [|d l IH]; intros acc Hacc; [reflexivity|].
  cbn [fold_left]. unfold pathJoin at 2.
  apply isEmpty_false in Hacc as Hacc'. rewrite Hacc'.
  rewrite IH by (destruct acc; [congruence | discriminate]).
  destruct l as [|e l]; [reflexivity|].
  rewrite !concat_cons2. now rewrite !append_assoc.
Qed.

Lemma directoryPath_concat (directories : list string) :
  Forall (fun s => isSegment s = true) directories ->
  directoryPath directories = String.concat "/" directories.
Proof.
  unfold directoryPath. destruct directories as [|d l]; [reflexivity|].
  intros Hall. inversion Hall as [|? ? Hd _]; subst.
  cbn [fold_left]. unfold pathJoin at 2. cbn [isEmpty].
  apply fold_pathJoin_from.
  unfold isSegment, truthy in Hd. destruct d; [discriminate | discriminate].
Qed.

Lemma segments_truthy (l : list string) :
  Forall (fun s => isSegment s = true) l -> filter truthy l = l.
Proof.
  induction 1 as [|x l Hx _ IH]; [reflexivity|].
  cbn [filter]. unfold isSegment in Hx. apply andb_true_iff in Hx as [Hx _].
  now rewrite Hx, IH.
Qed.

Lemma segments_lack_slash (l : list string) :
  Forall (fun s => isSegment s = true) l ->
  Forall (fun s => lacksChar "/" s = true) l.
Proof.
  apply Forall_impl. intros s H. unfold isSegment in H.
  now apply andb_true_iff in H.
Qed.

Lemma Forall_take {A} (P : A -> Prop) (k : nat) (l : list A) :
  Forall P l -> Forall P (firstn k l).
Proof.
  revert k. induction l as [|x l IH]; intros [|k] H; cbn [firstn]; try constructor.
  - now inversion H.
  - apply IH. now inversion H.
Qed.

Lemma pathParts_trackPath (directories : list string) (fileName : string) :
  directories <> [] ->
  Forall (fun s => isSegment s = true) directories ->
  isSegment fileName = true ->
  pathParts (trackPath directories fileName) = (directories ++ [fileName])%list.
Proof.
  intros Hne Hdirs Hfile. unfold trackPath, pathParts.
  rewrite directoryPath_concat by exact Hdirs.
  rewrite <- concat_snoc by exact Hne.
  assert (Hall : Forall (fun s => isSegment s = true) (directories ++ [fileName])%list).
  { apply Forall_app. split; [exact Hdirs | now constructor]. }
  rewrite (splitOn_concat "/").
  - now apply segments_truthy.
  - destruct directories; discriminate.
  - now apply segments_lack_slash.
Qed.

(** X22.  For a track that [walkDirectory] found in a directory reached through
    the directories [d1 .. dn], the ancestors computed from the track's path
    are exactly the paths, and so the ids, of those directories, outermost
    first. *)
Theorem directoryAncestors_are_directory_ids
  (directories : list string) (fileName : string) :
  directories <> [] ->
  Forall (fun s => isSegment s = true) directories ->
  isSegment fileName = true ->
  directoryAncestorsFromTrackPath (trackPath directories fileName)
  = map (fun k => directoryPath (firstn k directories)) (seq 1 (length directories)).
Proof.
  intros Hne Hdirs Hfile. unfold directoryAncestorsFromTrackPath.
  rewrite (pathParts_trackPath directories fileName Hne Hdirs Hfile).
  rewrite removelast_last, length_app. cbn [length].
  destruct (Nat.ltb_spec (length directories + 1) 2) as [Hlt|_].
  { destruct directories; [congruence | cbn [length] in Hlt; lia]. }
  rewrite <- seq_shift, map_map.
  apply map_ext. intros index. rewrite Nat.add_1_r.
  symmetry. apply directoryPath_concat.
  now apply Forall_take.
Qed.

Lemma directoryAncestors_are_directory_ids_witness :
  let directories := ["Music"; "Artist"; "Album"] in
  directories <> [] /\
  Forall (fun s => isSegment s = true) directories /\
  isSegment "01 - Song.mp3" = true /\
  trackPath directories "01 - Song.mp3" = "Music/Artist/Album/01 - Song.mp3" /\
  directoryAncestorsFromTrackPath "Music/Artist/Album/01 - Song.mp3"
  = ["Music"; "Music/Artist"; "Music/Artist/Album"].
Proof.
  intros directories.
  assert (H1 : directories <> []) by discriminate.
  assert (H2 : Forall (fun s => isSegment s = true) directories)
    by (repeat constructor).
  split; [exact H1|]. split; [exact H2|]. split; [reflexivity|]. split; [reflexivity|].
  exact (directoryAncestors_are_directory_ids directories "01 - Song.mp3" H1 H2 eq_refl).
Defined.

Lemma pathParts_truthy (path part : string) :
  In part (pathParts path) -> part <> "".
Proof.
  unfold pathParts. intros H. apply filter_In in H as [_ H].
  unfold truthy in H. destruct part; [discriminate | discriminate].
Qed.

Lemma In_removelast {A} (x : A) (l : list A) : In x (removelast l) -> In x l.
Proof.
  induction l as [|a l IH]; [intros []|].
  destruct l as [|b l]; [intros []|].
  change (removelast (a :: b :: l)) with (a :: removelast (b :: l)).
  intros [->|H]; [now left | right; now apply IH].
Qed.

(** X23.  The artist and album taken from a path are never empty strings.  For
    a track below at least two directories they are the names of the last two
    directories; below a single directory the artist is that directory and the
    album is unknown. *)
Theorem fallbackFromPath_directories :
  (forall path, fst (fallbackFromPath path) <> "" /\ snd (fallbackFromPath path) <> "") /\
  (forall above artistDir albumDir fileName,
     Forall (fun s => isSegment s = true) (above ++ [artistDir; albumDir])%list ->
     isSegment fileName = true ->
     fallbackFromPath (Some (trackPath (above ++ [artistDir; albumDir])%list fileName))
     = (artistDir, albumDir)) /\
  (forall directory fileName,
     isSegment directory = true -> isSegment fileName = true ->
     fallbackFromPath (Some (trackPath [directory] fileName))
     = (directory, "Unknown album")).
Proof.
  split; [|split].
  - intros [p|]; [|split; discriminate]. unfold fallbackFromPath.
    destruct (isEmpty p); [split; discriminate|].
    assert (Hall : forall i, (i < length (removelast (pathParts p)))%nat ->
                             nth i (removelast (pathParts p)) "" <> "").
    { intros i Hi. apply (pathParts_truthy p), In_removelast, nth_In, Hi. }
    destruct (Nat.leb_spec 2 (length (removelast (pathParts p)))) as [H2|H2].
    { cbn [fst snd]. split; apply Hall; lia. }
    destruct (Nat.eqb_spec (length (removelast (pathParts p))) 1) as [H1|H1].
    { cbn [fst snd]. split; [apply Hall; lia | discriminate]. }
    split; discriminate.
  - intros above artistDir albumDir fileName Hdirs Hfile.
    assert (Hne : (above ++ [artistDir; albumDir])%list <> [])
      by (destruct above; discriminate).
    unfold fallbackFromPath.
    rewrite (pathParts_trackPath _ fileName Hne Hdirs Hfile), removelast_last.
    assert (Hpath : isEmpty (trackPath (above ++ [artistDir; albumDir]) fileName) = false).
    { unfold trackPath. destruct (directoryPath _); reflexivity. }
    rewrite Hpath, length_app. cbn [length].
    destruct (Nat.leb_spec 2 (length above + 2)) as [_|H]; [|lia].
    f_equal.
    + rewrite app_nth2 by lia.
      now replace (length above + 2 - 2 - length above)%nat with 0%nat by lia.
    + rewrite app_nth2 by lia.
      now replace (length above + 2 - 1 - length above)%nat with 1%nat by lia.
  - intros directory fileName Hdir Hfile.
    assert (Hdirs : Forall (fun s => isSegment s = true) [directory]) by (now constructor).
    unfold fallbackFromPath.
    rewrite (pathParts_trackPath [directory] fileName ltac:(discriminate) Hdirs Hfile).
    assert (Hpath : isEmpty (trackPath [directory] fileName) = false).
    { unfold trackPath. destruct (directoryPath _); reflexivity. }
    rewrite Hpath. reflexivity.
Qed.

Lemma fallbackFromPath_directories_witness :
  Forall (fun s => isSegment s = true) (["Music"] ++ ["Artist"; "Album"])%list /\
  isSegment "01 - Song.mp3" = true /\
  fallbackFromPath (Some "Music/Artist/Album/01 - Song.mp3") = ("Artist", "Album").
Proof.
  assert (H : Forall (fun s => isSegment s = true) (["Music"] ++ ["Artist"; "Album"])%list)
    by (repeat constructor).
  split; [exact H|]. split; [reflexivity|].
  exact (proj1 (proj2 fallbackFromPath_directories) ["Music"] "Artist" "Album"
           "01 - Song.mp3" H eq_refl).
Defined.

Lemma lastIndexOf_lacks (c : ascii) (s : string) :
  lacksChar c s = true -> lastIndexOf c s = (-1)%Z.
Proof.
  induction s as [|d s IH]; [reflexivity|]. cbn [lacksChar lastIndexOf].
  intros H. apply andb_true_iff in H as [Hd Hs]. apply negb_true_iff in Hd.
  rewrite (IH Hs), Hd. reflexivity.
Qed.

Lemma lastIndexOf_range (c : ascii) (s : string) :
  (-1 <= lastIndexOf c s < Z.of_nat (String.length s))%Z.
Proof.
  induction s as [|d s IH]; cbn [lastIndexOf String.length]; [lia|].
  destruct (Z.leb_spec 0 (lastIndexOf c s)); [lia|].
  destruct (Ascii.eqb d c); lia.
Qed.

Lemma lastIndexOf_app (c : ascii) (b e : string) :
  lacksChar c e = true ->
  lastIndexOf c (b ++ String c e) = Z.of_nat (String.length b).
Proof.
  intros He. induction b as [|d b IH]; cbn [append lastIndexOf String.length].
  - rewrite (lastIndexOf_lacks c e He), Ascii.eqb_refl. reflexivity.
  - rewrite IH. destruct (Z.leb_spec 0 (Z.of_nat (String.length b))); lia.
Qed.

Lemma takeChars_app (b r : string) : takeChars (String.length b) (b ++ r) = b.
Proof.
  induction b as [|d b IH]; cbn [String.length append takeChars].
  - now destruct r.
  - now rewrite IH.
Qed.

Lemma dropChars_app (b r : string) : dropChars (String.length b) (b ++ r) = r.
Proof.
  induction b as [|d b IH]; cbn [String.length append dropChars]; [|exact IH].
  now destruct r.
Qed.

(** X24.  A file name is cut at its last dot: the base name is what stands
    before it and the extension what stands after it, in lower case; a name
    without a dot is its own base name and has the empty extension.  So a track
    and a lyric file named alike but for the extension have the same base
    name. *)
Theorem baseName_and_extension (base extension : string) :
  lacksChar "." extension = true ->
  baseName (base ++ "." ++ extension) = base /\
  extensionOf (base ++ "." ++ extension) = toLowerCase extension /\
  baseName extension = extension /\ extensionOf extension = "" /\
  baseName (base ++ ".lrc") = base.
Proof.
  intros He.
  assert (Hcut : forall e, lacksChar "." e = true ->
            baseName (base ++ "." ++ e) = base /\
            extensionOf (base ++ "." ++ e) = toLowerCase e).
  { intros e Hl. unfold baseName, extensionOf. cbn [append].
    rewrite (lastIndexOf_app "." base e Hl).
    destruct (Z.ltb_spec (Z.of_nat (String.length base)) 0) as [H|_]; [lia|].
    unfold sliceTo, sliceFrom. rewrite Nat2Z.id.
    replace (Z.to_nat (Z.of_nat (String.length base) + 1))
      with (String.length (base ++ ".")) by (rewrite length_append; cbn; lia).
    split; [apply takeChars_app|].
    change (String "." e) with ("." ++ e). rewrite <- append_assoc.
    now rewrite dropChars_app. }
  split; [apply Hcut, He|]. split; [apply Hcut, He|].
  unfold baseName, extensionOf. rewrite (lastIndexOf_lacks "." extension He).
  split; [reflexivity|]. split; [reflexivity|].
  now apply (Hcut "lrc").
Qed.

Lemma baseName_and_extension_witness :
  lacksChar "." "MP3" = true /\
  baseName ("Song.live" ++ "." ++ "MP3") = "Song.live" /\
  extensionOf "Song.live.MP3" = "mp3".
Proof.
  split; [reflexivity|].
  destruct (baseName_and_extension "Song.live" "MP3" eq_refl) as (H1 & H2 & _).
  split; [exact H1 | exact H2].
Defined.

Lemma dropWhile_app (p : ascii -> bool) (a r : string) :
  (forall c, lacksChar c a = false -> p c = true) ->
  match r with String c _ => p c = false | EmptyString => True end ->
  dropWhile p (a ++ r) = r.
Proof.
  intros Ha Hr. induction a as [|d a IH]; cbn [append dropWhile].
  - destruct r as [|c r]; [reflexivity|]. cbn [dropWhile]. now rewrite Hr.
  - rewrite (Ha d) by (cbn [lacksChar]; now rewrite Ascii.eqb_refl).
    apply IH. intros c Hc. apply Ha. cbn [lacksChar]. now rewrite Hc, andb_false_r.
Qed.

Lemma allDigits_chars (d : string) :
  allDigits d = true -> forall c, lacksChar c d = false -> isDigit c = true.
Proof.
  induction d as [|x d IH]; cbn [allDigits lacksChar]; [discriminate|].
  intros H c Hc. apply andb_true_iff in H as [Hx Hd].
  destruct (Ascii.eqb_spec x c) as [->|Hne]; [exact Hx|].
  cbn [negb andb] in Hc. now apply IH.
Qed.

Lemma dropWhile_visible (s : string) :
  startsVisible s = true -> dropWhile isWhiteSpace s = s.
Proof.
  destruct s as [|c s]; [discriminate|]. cbn [startsVisible dropWhile].
  intros H. apply negb_true_iff in H. now rewrite H.
Qed.

Lemma separator_not_space (c : ascii) : isSeparator c = true -> isWhiteSpace c = false.
Proof.
  unfold isSeparator. intros H.
  apply orb_true_iff in H as [H|H]; [apply orb_true_iff in H as [H|H]|];
    apply Ascii.eqb_eq in H; subst; reflexivity.
Qed.

Lemma fileNameWithoutExtension_not_empty (name : string) :
  name <> "" -> fileNameWithoutExtension name <> "".
Proof.
  intros Hne. unfold fileNameWithoutExtension, sliceTo.
  destruct (Z.ltb_spec 0 (lastIndexOf "." name)) as [H|_]; [|exact Hne].
  destruct name as [|c name]; [congruence|].
  destruct (Z.to_nat (lastIndexOf "." (String c name))) eqn:E; [lia|].
  discriminate.
Qed.

Lemma fileNameWithoutExtension_cut (base extension : string) :
  base <> "" -> lacksChar "." extension = true ->
  fileNameWithoutExtension (base ++ "." ++ extension) = base.
Proof.
  intros Hb He. unfold fileNameWithoutExtension. cbn [append].
  rewrite (lastIndexOf_app "." base extension He).
  destruct (Z.ltb_spec 0 (Z.of_nat (String.length base))) as [_|H].
  - unfold sliceTo. rewrite Nat2Z.id. apply takeChars_app.
  - destruct base; [congruence | cbn [String.length] in H; lia].
Qed.

(** X25.  The title taken from a non-empty file name is never empty.  For a
    name made of a track number, a space, one of the separators [-], [_] and
    [.], a space, a title without white space at its ends, and an extension,
    it is that title. *)
Theorem titleFromFileName_strips_track_number :
  (forall name, name <> "" -> titleFromFileName name <> "") /\
  (forall number separator title extension,
     allDigits number = true -> number <> "" ->
     isSeparator separator = true ->
     startsVisible title = true -> trimEnd title = title ->
     lacksChar "." extension = true ->
     titleFromFileName
       (number ++ " " ++ String separator " " ++ title ++ "." ++ extension)
     = title).
Proof.
  split.
  - intros name Hne. unfold titleFromFileName, orElse.
    pose proof (fileNameWithoutExtension_not_empty name Hne) as Hraw.
    destruct (isEmpty (trim _)) eqn:E; [exact Hraw | now apply isEmpty_false].
  - intros number separator title extension Hd Hn Hsep Hvis Hend He.
    unfold titleFromFileName.
    assert (Hname : number ++ " " ++ String separator " " ++ title ++ "." ++ extension
                    = (number ++ String " " (String separator (String " " title)))
                        ++ "." ++ extension).
    { cbn [append]. now rewrite !append_assoc. }
    rewrite Hname, fileNameWithoutExtension_cut;
      [|destruct number; [congruence | discriminate] | exact He].
    assert (Hstrip : stripTrackNumber
                       (number ++ String " " (String separator (String " " title)))
                     = title).
    { unfold stripTrackNumber.
      assert (Hstart : startsWithDigit
                (number ++ String " " (String separator (String " " title))) = true).
      { destruct number as [|c number]; [congruence|].
        cbn in *. now apply andb_true_iff in Hd as [Hc _]. }
      rewrite Hstart.
      rewrite (dropWhile_app isDigit number) by (try apply allDigits_chars; auto).
      cbn [dropWhile]. change (isWhiteSpace " ") with true. cbv iota.
      cbn [dropWhile]. rewrite (separator_not_space separator Hsep), Hsep.
      cbn [dropWhile]. change (isWhiteSpace " ") with true. cbv iota.
      now apply dropWhile_visible. }
    rewrite Hstrip. unfold trim. rewrite (trimStart_visible _ Hvis), Hend.
    unfold orElse. destruct title; [discriminate | reflexivity].
Qed.

Lemma titleFromFileName_strips_track_number_witness :
  allDigits "07" = true /\ startsVisible "Blue Moon" = true /\
  trimEnd "Blue Moon" = "Blue Moon" /\
  titleFromFileName "07 - Blue Moon.flac" = "Blue Moon" /\
  titleFromFileName ".hidden" = ".hidden".
Proof.
  split; [reflexivity|]. split; [reflexivity|]. split; [reflexivity|].
  split; [|reflexivity].
  apply (proj2 titleFromFileName_strips_track_number "07" "-"%char "Blue Moon" "flac");
    try reflexivity. discriminate.
Defined.
